(** * J-PAKE over secp256k1: a shallow embedding of the TypeScript sources

    Embedded files: [src/constants.mts], [src/JPakeErrors.mts],
    [src/schnorr.mts], [src/deriveSFromPassword.mts], [src/JPake.mts],
    [src/JPakeThreePass.mts].

    The curve and hash packages (@noble/curves, @noble/hashes) are not part
    of the repository; they enter through the class [Noble] below, which
    lists the operations the sources call together with the contract the
    sources rely on.  Everything else is translated from the sources. *)

From Stdlib Require Import ZArith Zdivisibility List Bool Lia.
From Stdlib.Strings Require Import String Ascii Byte.
Import ListNotations.

Local Open Scope Z_scope.

(** ** Byte arrays ([Uint8Array]) and the big-endian helpers of
       @noble/curves/abstract/utils *)

Definition bytes := list byte.

Definition byte_to_Z (b : byte) : Z := Z.of_N (Byte.to_N b).

(** [new Uint8Array([z])]: the element is stored modulo 256. *)
Definition byte_of_Z (z : Z) : byte :=
  match Byte.of_N (Z.to_N (z mod 256)) with
  | Some b => b
  | None => x00
  end.

(** [bytesToNumberBE]: the unsigned big-endian value of a byte array. *)
Definition bytesToNumberBE (bs : bytes) : Z :=
  fold_left (fun acc b => acc * 256 + byte_to_Z b) bs 0.

Fixpoint numberToBytesLE (len : nat) (x : Z) : bytes :=
  match len with
  | O => []
  | S l => byte_of_Z (x mod 256) :: numberToBytesLE l (x / 256)
  end.

(** [numberToBytesBE(x, len)]: [x] written on [len] big-endian bytes.  Every
    call in the sources passes [mod(_, n)] and [len = 32], and [n < 2^256],
    so the value always fits. *)
Definition numberToBytesBE (x : Z) (len : nat) : bytes :=
  rev (numberToBytesLE len x).

(** [arr.slice(from, to)]. *)
Definition slice {A} (from to : nat) (l : list A) : list A :=
  firstn (to - from) (skipn from l).

(** [new TextEncoder().encode(s)]; a string is represented by the sequence of
    its UTF-8 code units. *)
Definition utf8 (s : string) : bytes := list_byte_of_string s.

(** ** Errors ([src/JPakeErrors.mts]) and the result of a call that may throw *)

Inductive error : Type :=
| JPakeError (message : string)
| InvalidStateError (message : string)
| InvalidArgumentError (message : string)
| VerificationError (message : string)
| Error (message : string).   (* a plain [Error] thrown inside @noble/curves *)

Inductive result (A : Type) : Type :=
| Ok (a : A)
| Throw (e : error).
Arguments Ok {A} a.
Arguments Throw {A} e.

Definition rbind {A B} (r : result A) (k : A -> result B) : result B :=
  match r with
  | Ok a => k a
  | Throw e => Throw e
  end.

Declare Scope result_scope.
Delimit Scope result_scope with result.
Notation "x <- r ;; k" := (rbind r (fun x => k))
  (at level 61, r at next level, right associativity) : result_scope.

Fixpoint mapM {A B} (f : A -> result B) (l : list A) : result (list B) :=
  match l with
  | [] => Ok []
  | a :: l' =>
      (b <- f a ;;
       bs <- mapM f l' ;;
       Ok (b :: bs))%result
  end.

Definition is_ok {A} (r : result A) : bool :=
  match r with Ok _ => true | Throw _ => false end.

(** ** The interface to @noble/curves (secp256k1) and @noble/hashes (sha3) *)

(** [k] times [p] by double-and-add, for any integer [k]. *)
Definition scalar_mul {P : Type} (add : P -> P -> P) (zero : P) (neg : P -> P)
    (p : P) (k : Z) : P :=
  match k with
  | Z0 => zero
  | Zpos q => Pos.iter_op add q p
  | Zneg q => neg (Pos.iter_op add q p)
  end.

(** A [ProjectivePoint] value stands for the curve point it denotes, so that
    [equals] is equality of points.

    Contract of the library, as the sources use it:
    - [add]/[negate]/[ZERO] form a commutative group whose order is the prime
      [CURVE_n], below [2^256]; [BASE] is not [ZERO];
    - [toAffine] determines the point ([ZERO] has affine image (0,0), which is
      not on the curve);
    - [toBytes] is the 33-byte compressed SEC1 form of a point other than
      [ZERO], and [fromHex] parses it back; [fromHex] never yields [ZERO]
      (it asserts validity) and throws on anything that is not a point;
    - [sha3_256] returns 32 bytes. *)
Class Noble : Type := {
  ProjectivePoint : Type;
  CURVE_n : Z;
  BASE : ProjectivePoint;
  ZERO : ProjectivePoint;
  add : ProjectivePoint -> ProjectivePoint -> ProjectivePoint;
  negate : ProjectivePoint -> ProjectivePoint;
  equals : ProjectivePoint -> ProjectivePoint -> bool;
  toAffine : ProjectivePoint -> Z * Z;
  toBytes : ProjectivePoint -> bytes;
  fromHex : bytes -> option ProjectivePoint;
  sha3_256 : bytes -> bytes;

  equals_spec : forall p q, equals p q = true <-> p = q;
  add_assoc : forall p q r, add p (add q r) = add (add p q) r;
  add_comm : forall p q, add p q = add q p;
  add_ZERO : forall p, add p ZERO = p;
  add_negate : forall p, add p (negate p) = ZERO;
  n_prime : Z.prime CURVE_n;
  n_256 : CURVE_n < 2 ^ 256;
  order_n : forall p, scalar_mul add ZERO negate p CURVE_n = ZERO;
  BASE_not_ZERO : BASE <> ZERO;
  toAffine_inj : forall p q, toAffine p = toAffine q -> p = q;
  toBytes_length : forall p, p <> ZERO -> List.length (toBytes p) = 33%nat;
  fromHex_toBytes : forall p, p <> ZERO -> fromHex (toBytes p) = Some p;
  fromHex_not_ZERO : forall b p, fromHex b = Some p -> p <> ZERO;
  sha3_256_length : forall b, List.length (sha3_256 b) = 32%nat
}.

(** [mod(a, b)] of @noble/curves/abstract/modular: the JavaScript remainder
    [a % b] (truncated), moved into [0, b) when it is negative. *)
Definition mod_ (a b : Z) : Z :=
  let result := Z.rem a b in
  if 0 <=? result then result else b + result.

Section Sources.

Context {noble : Noble}.

Local Open Scope string_scope.
Local Open Scope Z_scope.
Local Open Scope result_scope.

(** *** [src/constants.mts] *)

Definition n : Z := CURVE_n.
Definition G : ProjectivePoint := BASE.

(** *** Methods of [ProjectivePoint] defined from the interface *)

Definition pmul (p : ProjectivePoint) (k : Z) : ProjectivePoint :=
  scalar_mul add ZERO negate p k.

(** [p.multiply(k)] asserts [0 < k < CURVE.n] and throws otherwise. *)
Definition multiply (p : ProjectivePoint) (k : Z) : result ProjectivePoint :=
  if (0 <? k) && (k <? n) then Ok (pmul p k)
  else Throw (Error "invalid scalar: expected 0 < scalar < curve.n").

(** [p.subtract(q)] is [p.add(q.negate())]. *)
Definition subtract (p q : ProjectivePoint) : ProjectivePoint :=
  add p (negate q).

(** [p.toRawBytes(true)] asserts the validity of [p] first, which rejects
    [ZERO]. *)
Definition toRawBytes (p : ProjectivePoint) : result bytes :=
  if equals p ZERO then Throw (Error "bad point: ZERO") else Ok (toBytes p).

(** [secp256k1.utils.randomPrivateKey()].  As the comment in [round1] records,
    it ends with [mod(b2n(hash), N - 1n) + 1n]; [entropy] is the integer read
    from the random bytes. *)
Definition randomPrivateKey (entropy : Z) : bytes :=
  numberToBytesBE (mod_ entropy (n - 1) + 1) 32.

(** *** [src/schnorr.mts] *)

(** The default value [[]] of the parameter [otherInfo]. *)
Definition otherInfo_or_default (otherInfo : option (list string)) : list string :=
  match otherInfo with
  | Some l => l
  | None => []
  end.

Definition len (b : bytes) : Z := Z.of_nat (List.length b).

Definition encodeInfo (info : string) : result bytes :=
  let infoBytes := utf8 info in
  if 255 <? len infoBytes then
    Throw (InvalidArgumentError
      "Each otherInfo string must be 255 bytes or less when UTF-8 encoded.")
  else Ok (byte_of_Z (len infoBytes) :: infoBytes).

Definition generateSchnorrChallenge (userId : string)
    (gx gr : ProjectivePoint) (otherInfo : option (list string)) : result Z :=
  let otherInfo := otherInfo_or_default otherInfo in
  let userIdBytes := utf8 userId in
  gxBytes <- toRawBytes gx ;;
  grBytes <- toRawBytes gr ;;
  if 255 <? len userIdBytes then
    Throw (InvalidArgumentError
      "userId is too long. It must be 255 bytes or less when UTF-8 encoded.")
  else if 255 <? len gxBytes then
    Throw (InvalidArgumentError
      "gxBytes is too long. It must be 255 bytes or less.")
  else if 255 <? len grBytes then
    Throw (InvalidArgumentError
      "grBytes is too long. It must be 255 bytes or less.")
  else
    gxRaw <- toRawBytes gx ;;
    grRaw <- toRawBytes gr ;;
    infos <- mapM encodeInfo otherInfo ;;
    Ok (mod_
          (bytesToNumberBE
             (sha3_256
                (List.concat
                   ([byte_of_Z (len gxBytes)] :: gxRaw ::
                    [byte_of_Z (len grBytes)] :: grRaw ::
                    [byte_of_Z (len userIdBytes)] :: userIdBytes ::
                    infos))))
          n).

(** [proof[i] !== v]; an index out of range reads [undefined]. *)
Definition index_is (proof : bytes) (i : option nat) (v : Z) : bool :=
  match i with
  | Some i =>
      match nth_error proof i with
      | Some b => byte_to_Z b =? v
      | None => false
      end
  | None => false
  end.

Definition verifySchnorrProof (peerUserId : string) (gx : ProjectivePoint)
    (proof : bytes) (g : ProjectivePoint) (otherInfo : option (list string))
    : result bool :=
  if negb (len proof =? 33 + 32 + 2) then
    Throw (VerificationError "Invalid proof, must be 33 + 32 + 2 bytes long")
  else
    let VLength := nth_error proof 0 in
    let rIndex := option_map (fun v => (1 + Z.to_nat (byte_to_Z v))%nat) VLength in
    if negb (index_is proof (Some 0%nat) 33) || negb (index_is proof rIndex 32) then
      Throw (VerificationError
        "Invalid proof, V must be 33 bytes and r must be 32 bytes")
    else
      match fromHex (slice 1 (1 + 33) proof) with
      | None => Ok false
      | Some V =>
          let r := bytesToNumberBE (slice (1 + 33 + 1) (1 + 33 + 1 + 32) proof) in
          c <- generateSchnorrChallenge peerUserId gx V otherInfo ;;
          gr <- multiply g r ;;
          gxc <- multiply gx c ;;
          let leftSideAffine := toAffine V in
          let rightSideAffine := toAffine (add gr gxc) in
          Ok ((fst leftSideAffine =? fst rightSideAffine) &&
              (snd leftSideAffine =? snd rightSideAffine))
      end.

Definition generateSchnorrProof (userId : string) (x : bytes)
    (gx g : ProjectivePoint) (otherInfo : option (list string))
    (entropy : Z) : result bytes :=
  let otherInfo := Some (otherInfo_or_default otherInfo) in
  let v := bytesToNumberBE (randomPrivateKey entropy) in
  V <- multiply g v ;;
  challenge <- generateSchnorrChallenge userId gx V otherInfo ;;
  let r := numberToBytesBE (mod_ (v - bytesToNumberBE x * challenge) n) 32 in
  Vbytes <- toRawBytes V ;;
  if negb (len Vbytes =? 33) || negb (len r =? 32) then
    Throw (JPakeError
      "Generated proof is invalid, V and r must be 33 and 32 bytes respectively")
  else
    let proof :=
      List.concat [[byte_of_Z (len Vbytes)]; Vbytes; [byte_of_Z (len r)]; r] in
    isValidProof <- verifySchnorrProof userId gx proof g otherInfo ;;
    if negb isValidProof then
      Throw (JPakeError "Generated Schnorr proof is invalid")
    else Ok proof.

(** *** [src/deriveSFromPassword.mts] *)

Definition hashToScalar (text : string) : Z :=
  mod_ (bytesToNumberBE (sha3_256 (utf8 text))) n.

(** The [while (s === 0n)] loop; [None] when [fuel] iterations do not leave
    it.  Each iteration hashes the same string, [password + 'retried']. *)
Fixpoint retryLoop (fuel : nat) (password : string) (s : Z) : option Z :=
  if s =? 0 then
    match fuel with
    | O => None
    | S fuel' => retryLoop fuel' password (hashToScalar (password ++ "retried"))
    end
  else Some s.

Definition deriveSFromPassword (fuel : nat) (password : string)
    : option (result bytes) :=
  if String.eqb password "" then
    Some (Throw (InvalidArgumentError "Missing password"))
  else
    match retryLoop fuel password (hashToScalar password) with
    | None => None
    | Some s => Some (Ok (numberToBytesBE s 32))
    end.

End Sources.

(** *** [src/JPake.mts]: messages and the state enumeration *)

(** A field read from a received message may be [undefined] (the tests pass
    [{} as Round1Result]); a present field is a [Uint8Array]. *)
Module Round1Result.
Record t : Type := mk {
  G1 : option bytes;
  G2 : option bytes;
  ZKPx1 : option bytes;
  ZKPx2 : option bytes
}.
End Round1Result.

Module Round2Result.
Record t : Type := mk {
  A : option bytes;
  ZKPx2s : option bytes
}.
End Round2Result.

Inductive JPakeState : Type :=
| INITIAL
| ROUND1FINISHED
| ROUND2FINISHED
| ROUND2RESULTSRECEIVED
| KEYDERIVED.

(** The numeric value TypeScript gives each member of the enum. *)
Definition state_value (st : JPakeState) : nat :=
  match st with
  | INITIAL => 0
  | ROUND1FINISHED => 1
  | ROUND2FINISHED => 2
  | ROUND2RESULTSRECEIVED => 3
  | KEYDERIVED => 4
  end.

Definition state_eqb (a b : JPakeState) : bool :=
  Nat.eqb (state_value a) (state_value b).

Section Session.

Context {noble : Noble}.

Local Open Scope string_scope.
Local Open Scope Z_scope.

(** The fields of [class JPake]; an optional field is [None] until it is
    assigned.  A [Uint8Array] or [string[]] held in a field stands for its
    contents: the class keeps the caller's array itself ([otherInfo],
    [ZKPx2sBob]), and the embedding takes it that the caller does not write
    to an array after handing it over. *)
Record JPake : Type := mkJPake {
  userId : string;
  otherInfo : option (list string);
  state : JPakeState;
  x1 : option bytes;
  x2 : option bytes;
  G1 : option ProjectivePoint;
  G2 : option ProjectivePoint;
  G3 : option ProjectivePoint;
  G4 : option ProjectivePoint;
  B : option ProjectivePoint;
  x2s : option bytes;
  ZKPx2sBob : option bytes;
  bobUserId : option string
}.

(** Field assignments [this.f = v]. *)
Definition set_state v (j : JPake) : JPake :=
  mkJPake (userId j) (otherInfo j) v (x1 j) (x2 j) (G1 j) (G2 j) (G3 j) (G4 j)
    (B j) (x2s j) (ZKPx2sBob j) (bobUserId j).
Definition set_x1 v (j : JPake) : JPake :=
  mkJPake (userId j) (otherInfo j) (state j) v (x2 j) (G1 j) (G2 j) (G3 j) (G4 j)
    (B j) (x2s j) (ZKPx2sBob j) (bobUserId j).
Definition set_x2 v (j : JPake) : JPake :=
  mkJPake (userId j) (otherInfo j) (state j) (x1 j) v (G1 j) (G2 j) (G3 j) (G4 j)
    (B j) (x2s j) (ZKPx2sBob j) (bobUserId j).
Definition set_G1 v (j : JPake) : JPake :=
  mkJPake (userId j) (otherInfo j) (state j) (x1 j) (x2 j) v (G2 j) (G3 j) (G4 j)
    (B j) (x2s j) (ZKPx2sBob j) (bobUserId j).
Definition set_G2 v (j : JPake) : JPake :=
  mkJPake (userId j) (otherInfo j) (state j) (x1 j) (x2 j) (G1 j) v (G3 j) (G4 j)
    (B j) (x2s j) (ZKPx2sBob j) (bobUserId j).
Definition set_G3 v (j : JPake) : JPake :=
  mkJPake (userId j) (otherInfo j) (state j) (x1 j) (x2 j) (G1 j) (G2 j) v (G4 j)
    (B j) (x2s j) (ZKPx2sBob j) (bobUserId j).
Definition set_G4 v (j : JPake) : JPake :=
  mkJPake (userId j) (otherInfo j) (state j) (x1 j) (x2 j) (G1 j) (G2 j) (G3 j) v
    (B j) (x2s j) (ZKPx2sBob j) (bobUserId j).
Definition set_B v (j : JPake) : JPake :=
  mkJPake (userId j) (otherInfo j) (state j) (x1 j) (x2 j) (G1 j) (G2 j) (G3 j)
    (G4 j) v (x2s j) (ZKPx2sBob j) (bobUserId j).
Definition set_x2s v (j : JPake) : JPake :=
  mkJPake (userId j) (otherInfo j) (state j) (x1 j) (x2 j) (G1 j) (G2 j) (G3 j)
    (G4 j) (B j) v (ZKPx2sBob j) (bobUserId j).
Definition set_ZKPx2sBob v (j : JPake) : JPake :=
  mkJPake (userId j) (otherInfo j) (state j) (x1 j) (x2 j) (G1 j) (G2 j) (G3 j)
    (G4 j) (B j) (x2s j) v (bobUserId j).
Definition set_bobUserId v (j : JPake) : JPake :=
  mkJPake (userId j) (otherInfo j) (state j) (x1 j) (x2 j) (G1 j) (G2 j) (G3 j)
    (G4 j) (B j) (x2s j) (ZKPx2sBob j) v.

(** A method: it runs on the object, may assign fields, and returns or
    throws.  The assignments made before a throw stay. *)
Definition method (T : Type) : Type := JPake -> result T * JPake.

Definition ret {T} (a : T) : method T := fun this => (Ok a, this).
Definition throw {T} (e : error) : method T := fun this => (Throw e, this).
Definition lift {T} (r : result T) : method T := fun this => (r, this).
Definition this_ : method JPake := fun this => (Ok this, this).
Definition assign (f : JPake -> JPake) : method unit :=
  fun this => (Ok tt, f this).
Definition bind {T U} (m : method T) (k : T -> method U) : method U :=
  fun this =>
    match m this with
    | (Ok a, this') => k a this'
    | (Throw e, this') => (Throw e, this')
    end.

End Session.

Declare Scope method_scope.
Delimit Scope method_scope with method.
Notation "x <- m ;; k" := (bind m (fun x => k))
  (at level 61, m at next level, right associativity) : method_scope.
Notation "m ;; k" := (bind m (fun _ => k))
  (at level 61, right associativity) : method_scope.

Section Methods.

Context {noble : Noble}.

Local Open Scope string_scope.
Local Open Scope Z_scope.
Local Open Scope method_scope.

(** [new JPake(userId, otherInfo)]. *)
Definition newJPake (userId : string) (otherInfo : option (list string))
    : result JPake :=
  if String.eqb userId "" then
    Throw (InvalidArgumentError "UserId cannot be empty")
  else
    Ok (mkJPake userId otherInfo INITIAL None None None None None None None
          None None None).

Definition getState (this : JPake) : JPakeState := state this.

Definition verifyPeerProof (peerUserId : string) (gx : ProjectivePoint)
    (proof : bytes) (g : ProjectivePoint) : method bool :=
  this <- this_ ;;
  if String.eqb (userId this) peerUserId then
    throw (VerificationError "Proof verification failed, userIds are equal.")
  else if String.eqb peerUserId "" then
    throw (InvalidArgumentError "PeerUserId is empty.")
  else
    lift (verifySchnorrProof peerUserId gx proof g (otherInfo this)).

Definition is_some {T} (o : option T) : bool :=
  match o with Some _ => true | None => false end.

(** [round1()]; the four arguments are the random draws, in the order the
    method makes them: [x1], [x2], then [v] of each of the two proofs. *)
Definition round1 (e1 e2 ev1 ev2 : Z) : method Round1Result.t :=
  this <- this_ ;;
  if negb (state_eqb (state this) INITIAL) then
    throw (InvalidStateError "Round 1 can only be executed in INITIAL state")
  else
    let x1 := randomPrivateKey e1 in
    assign (set_x1 (Some x1)) ;;
    let x2 := randomPrivateKey e2 in
    assign (set_x2 (Some x2)) ;;
    G1 <- lift (multiply G (bytesToNumberBE x1)) ;;
    assign (set_G1 (Some G1)) ;;
    G2 <- lift (multiply G (bytesToNumberBE x2)) ;;
    assign (set_G2 (Some G2)) ;;
    ZKPx1 <- lift (generateSchnorrProof (userId this) x1 G1 G (otherInfo this) ev1) ;;
    ZKPx2 <- lift (generateSchnorrProof (userId this) x2 G2 G (otherInfo this) ev2) ;;
    (* [!this.G1 || !this.G2 || !ZKPx1 || !ZKPx2]: all four are objects here *)
    assign (set_state ROUND1FINISHED) ;;
    G1raw <- lift (toRawBytes G1) ;;
    G2raw <- lift (toRawBytes G2) ;;
    ret (Round1Result.mk (Some G1raw) (Some G2raw) (Some ZKPx1) (Some ZKPx2)).

(** [round2(round1ResultBob, s, bobUserId)]; [entropy] is the draw made by
    the proof for [x2*s]. *)
Definition round2 (round1ResultBob : Round1Result.t) (s : option bytes)
    (bobUserId : string) (entropy : Z) : method Round2Result.t :=
  this <- this_ ;;
  if negb (state_eqb (state this) ROUND1FINISHED) then
    throw (InvalidStateError "Round 2 can only be executed after Round 1")
  else
    match Round1Result.G1 round1ResultBob, Round1Result.G2 round1ResultBob,
          Round1Result.ZKPx1 round1ResultBob, Round1Result.ZKPx2 round1ResultBob,
          s, negb (String.eqb bobUserId "") with
    | Some bobG1, Some bobG2, Some bobZKPx1, Some bobZKPx2, Some s, true =>
        match x2 this, G1 this with
        | Some x2, Some G1 =>
            match fromHex bobG1, fromHex bobG2 with
            | Some round1ResultBobG1, Some round1ResultBobG2 =>
                let sBigInt := bytesToNumberBE s in
                if mod_ sBigInt n =? 0 then
                  throw (InvalidArgumentError
                    "Invalid s: s MUST not be equal to 0 mod n")
                else
                  assign (set_bobUserId (Some bobUserId)) ;;
                  isValidZKP <- verifyPeerProof bobUserId round1ResultBobG1 bobZKPx1 G ;;
                  if negb isValidZKP then
                    throw (VerificationError "ZKP verification failed")
                  else
                    assign (set_G3 (Some round1ResultBobG1)) ;;
                    assign (set_G4 (Some round1ResultBobG2)) ;;
                    let G3 := round1ResultBobG1 in
                    let G4 := round1ResultBobG2 in
                    let x2s :=
                      numberToBytesBE (mod_ (bytesToNumberBE x2 * sBigInt) n) 32 in
                    assign (set_x2s (Some x2s)) ;;
                    A <- lift (multiply (add (add G1 G3) G4) (bytesToNumberBE x2s)) ;;
                    let generator := add (add G1 G3) G4 in
                    ZKPx2s <- lift (generateSchnorrProof (userId this) x2s A
                                      generator (otherInfo this) entropy) ;;
                    if equals generator ZERO then
                      throw (VerificationError
                        "Invalid point: The new generator is the point at infinity")
                    else
                      assign (set_state ROUND2FINISHED) ;;
                      Araw <- lift (toRawBytes A) ;;
                      ret (Round2Result.mk (Some Araw) (Some ZKPx2s))
            | _, _ =>
                throw (InvalidArgumentError
                  "Invalid points received: G1 or G2 is not a valid ProjectivePoint")
            end
        | _, _ => throw (JPakeError "Missing required data for round 2")
        end
    | _, _, _, _, _, _ =>
        throw (InvalidArgumentError "Missing required arguments for round 2")
    end.

(** [setRound2ResultFromBob(round2ResultBob)]; the [fromHex] call is not
    guarded, so its [Error] escapes. *)
Definition setRound2ResultFromBob (round2ResultBob : Round2Result.t)
    : method unit :=
  this <- this_ ;;
  if negb (state_eqb (state this) ROUND2FINISHED) then
    throw (InvalidStateError
      "Round 2 results can only be set after Round 2 is finished")
  else
    match Round2Result.A round2ResultBob, Round2Result.ZKPx2s round2ResultBob with
    | Some bobA, Some bobZKPx2s =>
        match fromHex bobA with
        | Some p =>
            assign (set_B (Some p)) ;;
            assign (set_ZKPx2sBob (Some bobZKPx2s)) ;;
            assign (set_state ROUND2RESULTSRECEIVED)
        | None => throw (Error "Point is not on curve")
        end
    | _, _ =>
        throw (InvalidArgumentError
          "Missing required arguments for setRound2ResultFromBob")
    end.

(** A stored string is falsy when it is absent or empty. *)
Definition truthy_string (o : option string) : option string :=
  match o with
  | Some u => if String.eqb u "" then None else Some u
  | None => None
  end.

(** [deriveSharedKey()]. *)
Definition deriveSharedKey : method bytes :=
  this <- this_ ;;
  if negb (state_eqb (state this) ROUND2RESULTSRECEIVED) then
    throw (InvalidStateError
      "Shared key can only be derived after receiving Round 2 results")
  else
    match B this, G1 this, G2 this, G3 this, G4 this with
    | Some B, Some G1, Some G2, Some G3, Some G4 =>
        match x2 this, x2s this, ZKPx2sBob this, truthy_string (bobUserId this) with
        | Some x2, Some x2s, Some ZKPx2sBob, Some bobUserId =>
            if equals B ZERO then
              throw (VerificationError "Invalid point: B is the point at infinity")
            else
              let generator := add (add G1 G3) G2 in
              isValidZKP <- verifyPeerProof bobUserId B ZKPx2sBob generator ;;
              if negb isValidZKP then
                throw (VerificationError "ZKP verification failed")
              else
                G4x2s <- lift (multiply G4 (bytesToNumberBE x2s)) ;;
                Ka <- lift (multiply (subtract B G4x2s) (bytesToNumberBE x2)) ;;
                sharedSecret <- lift (toRawBytes Ka) ;;
                assign (set_state KEYDERIVED) ;;
                ret (sha3_256 sharedSecret)
        | _, _, _, _ => throw (JPakeError "Missing required data for key derivation")
        end
    | _, _, _, _, _ => throw (JPakeError "Missing required data for key derivation")
    end.

(** A call of one of the four public methods, with its arguments and the
    random draws it will make. *)
Inductive call : Type :=
| Round1 (e1 e2 ev1 ev2 : Z)
| Round2 (round1ResultBob : Round1Result.t) (s : option bytes)
    (bobUserId : string) (entropy : Z)
| SetRound2ResultFromBob (round2ResultBob : Round2Result.t)
| DeriveSharedKey.

Inductive returned : Type :=
| RetRound1 (r : Round1Result.t)
| RetRound2 (r : Round2Result.t)
| RetUnit
| RetKey (k : bytes).

Definition map_result {T U} (f : T -> U) (r : result T) : result U :=
  match r with Ok a => Ok (f a) | Throw e => Throw e end.

Definition run (c : call) (this : JPake) : result returned * JPake :=
  match c with
  | Round1 e1 e2 ev1 ev2 =>
      let (r, this') := round1 e1 e2 ev1 ev2 this in (map_result RetRound1 r, this')
  | Round2 r1 s u e =>
      let (r, this') := round2 r1 s u e this in (map_result RetRound2 r, this')
  | SetRound2ResultFromBob r2 =>
      let (r, this') := setRound2ResultFromBob r2 this in
      (map_result (fun _ => RetUnit) r, this')
  | DeriveSharedKey =>
      let (r, this') := deriveSharedKey this in (map_result RetKey r, this')
  end.

(** The state in which the method of a call is meant to run. *)
Definition source_state (c : call) : JPakeState :=
  match c with
  | Round1 _ _ _ _ => INITIAL
  | Round2 _ _ _ _ => ROUND1FINISHED
  | SetRound2ResultFromBob _ => ROUND2FINISHED
  | DeriveSharedKey => ROUND2RESULTSRECEIVED
  end.

(** The object after a sequence of calls, whatever each returns or throws. *)
Fixpoint run_all (cs : list call) (this : JPake) : JPake :=
  match cs with
  | [] => this
  | c :: cs' => run_all cs' (snd (run c this))
  end.

(** The objects a caller can hold: built by the constructor and then only
    touched through the public methods. *)
Inductive reachable : JPake -> Prop :=
| reach_new : forall userId otherInfo this,
    newJPake userId otherInfo = Ok this -> reachable this
| reach_run : forall c this, reachable this -> reachable (snd (run c this)).

End Methods.

(** *** [src/JPakeThreePass.mts] *)

Module Pass2Result.
Record t : Type := mk {
  round1Result : Round1Result.t;
  round2Result : Round2Result.t
}.
End Pass2Result.

(** [class JPakeThreePass]: a [JPake] object driven through three messages.
    The object holds its [userId] and the [JPake] it created; the methods
    only touch the latter. *)
Module JPakeThreePass.

Section ThreePass.

Context {noble : Noble}.

Local Open Scope string_scope.
Local Open Scope Z_scope.
Local Open Scope method_scope.

Record t : Type := mk {
  userId : string;
  jpake : JPake
}.

(** [new JPakeThreePass(userId)]: the inner object gets no [otherInfo]. *)
Definition new (userId : string) : result t :=
  match newJPake userId None with
  | Ok j => Ok (mk userId j)
  | Throw e => Throw e
  end.

(** A method of the inner object run from the outer one. *)
Definition on_jpake {T} (m : method T) (this : t) : result T * t :=
  let (r, j) := m (jpake this) in (r, mk (userId this) j).

Definition pass1 (e1 e2 ev1 ev2 : Z) : t -> result Round1Result.t * t :=
  on_jpake (round1 e1 e2 ev1 ev2).

(** [pass2]: the first four draws are those of [round1], the fifth that of
    [round2]. *)
Definition pass2 (peerRound1Result : Round1Result.t) (s : option bytes)
    (peerUserId : string) (e1 e2 ev1 ev2 entropy : Z)
    : t -> result Pass2Result.t * t :=
  on_jpake
    (round1Result <- round1 e1 e2 ev1 ev2 ;;
     round2Result <- round2 peerRound1Result s peerUserId entropy ;;
     ret (Pass2Result.mk round1Result round2Result)).

Definition pass3 (pass2Result : Pass2Result.t) (s : option bytes)
    (peerUserId : string) (entropy : Z) : t -> result Round2Result.t * t :=
  on_jpake
    (round2Result <- round2 (Pass2Result.round1Result pass2Result) s
                       peerUserId entropy ;;
     setRound2ResultFromBob (Pass2Result.round2Result pass2Result) ;;
     ret round2Result).

Definition receivePass3Results (pass3Result : Round2Result.t)
    : t -> result unit * t :=
  on_jpake (setRound2ResultFromBob pass3Result).

Definition deriveSharedKey : t -> result bytes * t :=
  on_jpake deriveSharedKey.

End ThreePass.

End JPakeThreePass.

(** * Facts about the byte helpers *)

Lemma mod__spec (a b : Z) : 0 < b -> mod_ a b = a mod b.
Proof.
  intros Hb. unfold mod_. cbv zeta.
  destruct (0 <=? Z.rem a b) eqn:E.
  - apply Z.leb_le in E.
    apply Z.mod_unique_pos with (q := Z.quot a b).
    + pose proof (Z.rem_bound_abs a b). lia.
    + pose proof (Z.quot_rem' a b). lia.
  - apply Z.leb_gt in E.
    apply Z.mod_unique_pos with (q := Z.quot a b - 1).
    + pose proof (Z.rem_bound_abs a b ltac:(lia)). lia.
    + pose proof (Z.quot_rem' a b). lia.
Qed.

Lemma byte_to_Z_range (b : byte) : 0 <= byte_to_Z b < 256.
Proof.
  unfold byte_to_Z. pose proof (Byte.to_N_bounded b). lia.
Qed.

Lemma byte_to_Z_of_Z (z : Z) : 0 <= z < 256 -> byte_to_Z (byte_of_Z z) = z.
Proof.
  intros Hz. unfold byte_to_Z, byte_of_Z.
  rewrite Z.mod_small by lia.
  destruct (Byte.of_N (Z.to_N z)) as [b|] eqn:E.
  - apply Byte.to_of_N in E. rewrite E. lia.
  - apply Byte.of_N_None_iff in E. lia.
Qed.

Lemma numberToBytesLE_length (k : nat) (x : Z) :
  List.length (numberToBytesLE k x) = k.
Proof.
  revert x. induction k as [|k IH]; intros x; simpl; [reflexivity|].
  now rewrite IH.
Qed.

Lemma numberToBytesBE_length (x : Z) (k : nat) :
  List.length (numberToBytesBE x k) = k.
Proof.
  unfold numberToBytesBE. rewrite length_rev. apply numberToBytesLE_length.
Qed.

(** The little-endian value of a byte list, the mirror of [bytesToNumberBE]. *)
Fixpoint valueLE (bs : bytes) : Z :=
  match bs with
  | [] => 0
  | b :: bs' => byte_to_Z b + 256 * valueLE bs'
  end.

Lemma bytesToNumberBE_app (bs : bytes) (b : byte) :
  bytesToNumberBE (bs ++ [b]) = bytesToNumberBE bs * 256 + byte_to_Z b.
Proof.
  unfold bytesToNumberBE. now rewrite fold_left_app.
Qed.

Lemma bytesToNumberBE_rev (bs : bytes) : bytesToNumberBE (rev bs) = valueLE bs.
Proof.
  induction bs as [|b bs IH]; [reflexivity|].
  simpl rev. rewrite bytesToNumberBE_app, IH. cbn [valueLE]. lia.
Qed.

Lemma valueLE_numberToBytesLE (k : nat) (x : Z) :
  0 <= x < 256 ^ Z.of_nat k -> valueLE (numberToBytesLE k x) = x.
Proof.
  revert x. induction k as [|k IH]; intros x Hx.
  - simpl in *. lia.
  - cbn [numberToBytesLE valueLE].
    rewrite byte_to_Z_of_Z by (apply Z.mod_pos_bound; lia).
    rewrite IH.
    + pose proof (Z.div_mod x 256 ltac:(lia)). lia.
    + rewrite Nat2Z.inj_succ, Z.pow_succ_r in Hx by lia.
      split; [apply Z.div_pos; lia|].
      apply Z.div_lt_upper_bound; lia.
Qed.

Lemma bytesToNumberBE_numberToBytesBE (x : Z) (k : nat) :
  0 <= x < 256 ^ Z.of_nat k -> bytesToNumberBE (numberToBytesBE x k) = x.
Proof.
  intros Hx. unfold numberToBytesBE.
  rewrite bytesToNumberBE_rev. now apply valueLE_numberToBytesLE.
Qed.

Lemma bytesToNumberBE_nonneg (bs : bytes) : 0 <= bytesToNumberBE bs.
Proof.
  induction bs as [|b bs IH] using rev_ind; [cbv; discriminate|].
  rewrite bytesToNumberBE_app. pose proof (byte_to_Z_range b). lia.
Qed.

(** * The group of curve points *)

Section Group.

Context {noble : Noble}.

Lemma n_gt_1 : 1 < n.
Proof. exact (proj1 n_prime). Qed.

Lemma ZERO_add (p : ProjectivePoint) : add ZERO p = p.
Proof. rewrite add_comm. apply add_ZERO. Qed.

Lemma negate_add (p : ProjectivePoint) : add (negate p) p = ZERO.
Proof. rewrite add_comm. apply add_negate. Qed.

Lemma add_cancel_l (p q r : ProjectivePoint) : add p q = add p r -> q = r.
Proof.
  intros H.
  rewrite <- (ZERO_add q), <- (ZERO_add r), <- (negate_add p), <- !add_assoc.
  now rewrite H.
Qed.

Lemma negate_unique (p q : ProjectivePoint) : add p q = ZERO -> q = negate p.
Proof.
  intros H. apply (add_cancel_l p). now rewrite add_negate.
Qed.

Lemma negate_ZERO : negate ZERO = ZERO.
Proof. symmetry. apply negate_unique, add_ZERO. Qed.

Lemma negate_negate (p : ProjectivePoint) : negate (negate p) = p.
Proof. symmetry. apply negate_unique, negate_add. Qed.

Lemma negate_add_distr (p q : ProjectivePoint) :
  negate (add p q) = add (negate p) (negate q).
Proof.
  symmetry. apply negate_unique.
  rewrite (add_comm (negate p)), add_assoc, <- (add_assoc p), add_negate.
  now rewrite add_ZERO, add_negate.
Qed.

Lemma pmul_0 (p : ProjectivePoint) : pmul p 0 = ZERO.
Proof. reflexivity. Qed.

Lemma pmul_1 (p : ProjectivePoint) : pmul p 1 = p.
Proof. reflexivity. Qed.

Lemma pmul_opp (p : ProjectivePoint) (k : Z) : pmul p (- k) = negate (pmul p k).
Proof.
  destruct k; simpl.
  - now rewrite negate_ZERO.
  - reflexivity.
  - now rewrite negate_negate.
Qed.

Lemma pmul_succ_nonneg (p : ProjectivePoint) (k : Z) :
  0 <= k -> pmul p (k + 1) = add p (pmul p k).
Proof.
  intros Hk. destruct k as [|q|q]; [| |lia].
  - simpl. now rewrite add_ZERO.
  - change (Z.pos q + 1) with (Z.pos (q + 1)). rewrite Pos.add_1_r.
    unfold pmul, scalar_mul. apply Pos.iter_op_succ. apply add_assoc.
Qed.

Lemma pmul_succ (p : ProjectivePoint) (k : Z) :
  pmul p (k + 1) = add p (pmul p k).
Proof.
  destruct (Z_le_gt_dec 0 k) as [Hk|Hk]; [now apply pmul_succ_nonneg|].
  replace (k + 1) with (- (- k - 1)) by lia.
  replace k with (- ((- k - 1) + 1)) at 2 by lia.
  rewrite !pmul_opp, pmul_succ_nonneg by lia.
  rewrite negate_add_distr, add_assoc, add_negate. now rewrite ZERO_add.
Qed.

Lemma pmul_pred (p : ProjectivePoint) (k : Z) :
  pmul p (k - 1) = add (negate p) (pmul p k).
Proof.
  replace k with ((k - 1) + 1) at 2 by lia.
  rewrite pmul_succ, add_assoc, negate_add. now rewrite ZERO_add.
Qed.

Lemma pmul_add (p : ProjectivePoint) (a b : Z) :
  pmul p (a + b) = add (pmul p a) (pmul p b).
Proof.
  revert a. induction b as [|b IH|b IH] using Z.peano_ind; intros a.
  - now rewrite Z.add_0_r, pmul_0, add_ZERO.
  - replace (a + Z.succ b) with ((a + b) + 1) by lia.
    replace (Z.succ b) with (b + 1) by lia.
    rewrite !pmul_succ, IH.
    now rewrite add_assoc, (add_comm p), <- add_assoc.
  - replace (a + Z.pred b) with ((a + b) - 1) by lia.
    replace (Z.pred b) with (b - 1) by lia.
    rewrite !pmul_pred, IH.
    now rewrite add_assoc, (add_comm (negate p)), <- add_assoc.
Qed.

Lemma pmul_ZERO (k : Z) : pmul ZERO k = ZERO.
Proof.
  induction k as [|k IH|k IH] using Z.peano_ind.
  - reflexivity.
  - replace (Z.succ k) with (k + 1) by lia. now rewrite pmul_succ, IH, add_ZERO.
  - replace (Z.pred k) with (k - 1) by lia.
    now rewrite pmul_pred, IH, add_ZERO, negate_ZERO.
Qed.

Lemma pmul_mul (p : ProjectivePoint) (a b : Z) :
  pmul (pmul p a) b = pmul p (a * b).
Proof.
  induction b as [|b IH|b IH] using Z.peano_ind.
  - now rewrite Z.mul_0_r.
  - replace (Z.succ b) with (b + 1) by lia.
    replace (a * (b + 1)) with (a + a * b) by lia.
    now rewrite pmul_succ, pmul_add, IH.
  - replace (Z.pred b) with (b - 1) by lia.
    replace (a * (b - 1)) with (- a + a * b) by lia.
    now rewrite pmul_pred, pmul_add, pmul_opp, IH.
Qed.

Lemma pmul_add_points (p q : ProjectivePoint) (k : Z) :
  pmul (add p q) k = add (pmul p k) (pmul q k).
Proof.
  induction k as [|k IH|k IH] using Z.peano_ind.
  - now rewrite !pmul_0, add_ZERO.
  - replace (Z.succ k) with (k + 1) by lia. rewrite !pmul_succ, IH.
    rewrite <- !add_assoc. f_equal.
    now rewrite !add_assoc, (add_comm q).
  - replace (Z.pred k) with (k - 1) by lia. rewrite !pmul_pred, IH.
    rewrite negate_add_distr, <- !add_assoc. f_equal.
    now rewrite !add_assoc, (add_comm (negate q)).
Qed.

Lemma pmul_n (p : ProjectivePoint) : pmul p n = ZERO.
Proof. apply order_n. Qed.

Lemma pmul_mod (p : ProjectivePoint) (k : Z) : pmul p (k mod n) = pmul p k.
Proof.
  pose proof n_gt_1.
  rewrite (Z.div_mod k n) at 2 by lia.
  now rewrite pmul_add, <- pmul_mul, pmul_n, pmul_ZERO, ZERO_add.
Qed.

(** Every point other than [ZERO] has order exactly [n]. *)
Lemma pmul_eq_ZERO (p : ProjectivePoint) (k : Z) :
  p <> ZERO -> pmul p k = ZERO -> (n | k).
Proof.
  intros Hp Hk. pose proof n_gt_1 as Hn.
  destruct (Z.eq_dec (k mod n) 0) as [Hd|Hd];
    [apply Z.mod_divide; [lia|exact Hd]|exfalso].
  assert (~ (n | k)) as Hd'
    by (intros Hd'; apply Hd; apply Z.mod_divide; [lia|exact Hd']).
  clear Hd; rename Hd' into Hd.
  apply Hp.
  pose proof (Z.coprime_prime_l n k n_prime Hd) as Hc.
  apply Z.Bezout_coprime in Hc. destruct Hc as (u & v & Huv).
  rewrite <- (pmul_1 p), <- Huv, pmul_add.
  rewrite (Z.mul_comm u), (Z.mul_comm v), <- !pmul_mul, pmul_n, Hk.
  now rewrite !pmul_ZERO, add_ZERO.
Qed.

Lemma pmul_not_ZERO (p : ProjectivePoint) (k : Z) :
  p <> ZERO -> k mod n <> 0 -> pmul p k <> ZERO.
Proof.
  intros Hp Hk H. apply Hk. apply pmul_eq_ZERO in H; [|exact Hp].
  pose proof n_gt_1. apply Z.mod_divide; [lia|exact H].
Qed.

Lemma mul_mod_nonzero (a b : Z) :
  a mod n <> 0 -> b mod n <> 0 -> (a * b) mod n <> 0.
Proof.
  intros Ha Hb H. assert (n <> 0) as Hn by (pose proof n_gt_1; lia).
  apply (Z.mod_divide _ _ Hn) in H.
  apply (Z.divide_prime_mul _ _ _ n_prime) in H.
  destruct H as [H|H]; apply (Z.mod_divide _ _ Hn) in H; contradiction.
Qed.

End Group.

(** * A small instance of the interface

    The curve [y^2 = x^3 + 7] (the equation of secp256k1) over the field of
    13 elements.  It has 7 points, a prime number, so every point other than
    the point at infinity generates the group.  Points are listed as the
    multiples of (7, 5).  The instance makes the methods executable. *)

Module Tiny.

Inductive point : Type := O | P1 | P2 | P3 | P4 | P5 | P6.

Definition p : Z := 13.
Definition order : Z := 7.

Definition affine (a : point) : option (Z * Z) :=
  match a with
  | O => None
  | P1 => Some (7, 5)
  | P2 => Some (8, 5)
  | P3 => Some (11, 8)
  | P4 => Some (11, 5)
  | P5 => Some (8, 8)
  | P6 => Some (7, 8)
  end.

Definition points : list point := [P1; P2; P3; P4; P5; P6].

Definition on_curve (xy : Z * Z) : bool :=
  let (x, y) := xy in (y * y) mod p =? (x * x * x + 7) mod p.

Definition of_affine (a : option (Z * Z)) : point :=
  match a with
  | None => O
  | Some (x, y) =>
      match find (fun q => match affine q with
                           | Some (x', y') => (x =? x') && (y =? y')
                           | None => false
                           end) points with
      | Some q => q
      | None => O
      end
  end.

(** Inverse in the field, by Fermat's little theorem. *)
Definition finv (a : Z) : Z := (a ^ (p - 2)) mod p.

(** The chord-and-tangent law on affine coordinates. *)
Definition add_affine (a b : option (Z * Z)) : option (Z * Z) :=
  match a, b with
  | None, _ => b
  | _, None => a
  | Some (x1, y1), Some (x2, y2) =>
      if (x1 =? x2) && ((y1 + y2) mod p =? 0) then None
      else
        let l := if x1 =? x2 then (3 * x1 * x1 * finv (2 * y1)) mod p
                 else ((y2 - y1) * finv (x2 - x1)) mod p in
        let x3 := (l * l - x1 - x2) mod p in
        Some (x3, (l * (x1 - x3) - y1) mod p)
  end.

Definition add (a b : point) : point :=
  of_affine (add_affine (affine a) (affine b)).

Definition negate (a : point) : point :=
  of_affine (option_map (fun xy => (fst xy, (- snd xy) mod p)) (affine a)).

Definition equals (a b : point) : bool :=
  match a, b with
  | O, O | P1, P1 | P2, P2 | P3, P3 | P4, P4 | P5, P5 | P6, P6 => true
  | _, _ => false
  end.

Definition toAffine (a : point) : Z * Z :=
  match affine a with
  | Some xy => xy
  | None => (0, 0)
  end.

(** Compressed SEC1: a byte 2 or 3 for the parity of [y], then [x] on 32
    big-endian bytes. *)
Definition toBytes (a : point) : bytes :=
  byte_of_Z (2 + snd (toAffine a) mod 2) :: numberToBytesBE (fst (toAffine a)) 32.

Definition fromHex (b : bytes) : option point :=
  match b with
  | [] => None
  | head :: xs =>
      if Nat.eqb (List.length xs) 32 then
        find (fun q => (byte_to_Z head =? 2 + snd (toAffine q) mod 2) &&
                       (bytesToNumberBE xs =? fst (toAffine q))) points
      else None
  end.

(** A 32-byte checksum standing in for SHA3-256. *)
Definition checksum (b : bytes) : bytes :=
  numberToBytesBE
    (fold_left (fun acc c => (acc * 257 + byte_to_Z c + 1) mod 2 ^ 256) b 0) 32.

Lemma points_on_curve (a : point) :
  In a points -> on_curve (toAffine a) = true.
Proof.
  intros H. repeat (destruct H as [<-|H]; [reflexivity|]). destruct H.
Qed.

Lemma equals_spec (a b : point) : equals a b = true <-> a = b.
Proof.
  split.
  - destruct a, b; simpl; intros H; try reflexivity; discriminate H.
  - intros <-. destruct a; reflexivity.
Qed.

Lemma add_assoc (a b c : point) : add a (add b c) = add (add a b) c.
Proof. destruct a, b, c; vm_compute; reflexivity. Qed.

Lemma add_comm (a b : point) : add a b = add b a.
Proof. destruct a, b; vm_compute; reflexivity. Qed.

Lemma add_O (a : point) : add a O = a.
Proof. destruct a; vm_compute; reflexivity. Qed.

Lemma add_negate (a : point) : add a (negate a) = O.
Proof. destruct a; vm_compute; reflexivity. Qed.

Lemma order_prime : Z.prime order.
Proof.
  split; [reflexivity|].
  intros k Hk [q Hq]. unfold order in *.
  assert (k = 2 \/ k = 3 \/ k = 4 \/ k = 5 \/ k = 6) as Hc by lia.
  destruct Hc as [->|[->|[->|[->| ->]]]]; lia.
Qed.

Lemma order_256 : order < 2 ^ 256.
Proof. reflexivity. Qed.

Lemma order_point (a : point) : scalar_mul add O negate a order = O.
Proof. destruct a; vm_compute; reflexivity. Qed.

Lemma P1_not_O : P1 <> O.
Proof. discriminate. Qed.

Lemma toAffine_inj (a b : point) : toAffine a = toAffine b -> a = b.
Proof. destruct a, b; vm_compute; intros H; try reflexivity; discriminate H. Qed.

Lemma toBytes_length (a : point) : a <> O -> List.length (toBytes a) = 33%nat.
Proof.
  intros _. unfold toBytes. cbn [List.length].
  now rewrite numberToBytesBE_length.
Qed.

Lemma fromHex_toBytes (a : point) : a <> O -> fromHex (toBytes a) = Some a.
Proof. destruct a; intros H; [contradiction| ..]; vm_compute; reflexivity. Qed.

Lemma fromHex_not_O (b : bytes) (a : point) : fromHex b = Some a -> a <> O.
Proof.
  unfold fromHex. destruct b as [|head xs]; [discriminate|].
  destruct (Nat.eqb (List.length xs) 32); [|discriminate].
  intros H. apply find_some in H. destruct H as [H _].
  intros ->. repeat (destruct H as [H|H]; [discriminate H|]). destruct H.
Qed.

Lemma checksum_length (b : bytes) : List.length (checksum b) = 32%nat.
Proof. apply numberToBytesBE_length. Qed.

Definition tiny : Noble :=
  Build_Noble point order P1 O add negate equals toAffine toBytes fromHex
    checksum equals_spec add_assoc add_comm add_O add_negate order_prime
    order_256 order_point P1_not_O toAffine_inj toBytes_length fromHex_toBytes
    fromHex_not_O checksum_length.

End Tiny.

(** * Facts about the library wrappers and the Schnorr functions *)

Section SchnorrFacts.

Context {noble : Noble}.

Local Open Scope string_scope.
Local Open Scope Z_scope.

Lemma multiply_ok (p : ProjectivePoint) (k : Z) :
  0 < k < n -> multiply p k = Ok (pmul p k).
Proof.
  intros [H1 H2]. unfold multiply.
  apply Z.ltb_lt in H1, H2. now rewrite H1, H2.
Qed.

Lemma multiply_inv (p q : ProjectivePoint) (k : Z) :
  multiply p k = Ok q -> 0 < k < n /\ q = pmul p k.
Proof.
  unfold multiply.
  destruct (0 <? k) eqn:E1; destruct (k <? n) eqn:E2; simpl;
    intros H; try discriminate H.
  apply Z.ltb_lt in E1, E2. now inversion H.
Qed.

Lemma multiply_throws (p : ProjectivePoint) (k : Z) (e : error) :
  multiply p k = Throw e -> ~ (0 < k < n) /\ exists msg, e = Error msg.
Proof.
  unfold multiply.
  destruct (0 <? k) eqn:E1; destruct (k <? n) eqn:E2; simpl;
    intros H; inversion H; subst;
    (split; [|eexists; reflexivity]);
    try apply Z.ltb_ge in E1; try apply Z.ltb_ge in E2; lia.
Qed.

Lemma toRawBytes_ok (p : ProjectivePoint) :
  p <> ZERO -> toRawBytes p = Ok (toBytes p).
Proof.
  intros Hp. unfold toRawBytes.
  destruct (equals p ZERO) eqn:E; [|reflexivity].
  apply equals_spec in E. contradiction.
Qed.

Lemma toRawBytes_inv (p : ProjectivePoint) (b : bytes) :
  toRawBytes p = Ok b -> p <> ZERO /\ b = toBytes p.
Proof.
  unfold toRawBytes. destruct (equals p ZERO) eqn:E; intros H; inversion H.
  split; [|reflexivity]. intros ->.
  assert (equals ZERO ZERO = true) by now apply equals_spec.
  congruence.
Qed.

Lemma toRawBytes_throws (p : ProjectivePoint) (e : error) :
  toRawBytes p = Throw e -> p = ZERO /\ e = Error "bad point: ZERO".
Proof.
  unfold toRawBytes. destruct (equals p ZERO) eqn:E; intros H; inversion H.
  split; [now apply equals_spec|reflexivity].
Qed.

Lemma toRawBytes_ZERO : toRawBytes ZERO = Throw (Error "bad point: ZERO").
Proof.
  unfold toRawBytes.
  assert (equals ZERO ZERO = true) as -> by now apply equals_spec.
  reflexivity.
Qed.

Lemma equals_refl (p : ProjectivePoint) : equals p p = true.
Proof. now apply equals_spec. Qed.

Lemma equals_false (p q : ProjectivePoint) : equals p q = false <-> p <> q.
Proof.
  split.
  - intros H ->. rewrite equals_refl in H. discriminate.
  - intros H. destruct (equals p q) eqn:E; [|reflexivity].
    apply equals_spec in E. contradiction.
Qed.

(** The draws of [randomPrivateKey] are 32 bytes long and encode a scalar of
    [[1, n)]; every such scalar is drawn for some entropy. *)
Lemma randomPrivateKey_range (entropy : Z) :
  1 <= bytesToNumberBE (randomPrivateKey entropy) < n.
Proof.
  pose proof n_gt_1 as Hn. pose proof n_256 as H256. fold n in H256.
  unfold randomPrivateKey. rewrite mod__spec by lia.
  assert (0 < n - 1) as Hn1 by lia.
  pose proof (Z.mod_pos_bound entropy (n - 1) Hn1).
  rewrite bytesToNumberBE_numberToBytesBE; [lia|].
  change (256 ^ Z.of_nat 32) with (2 ^ 256). lia.
Qed.

Lemma randomPrivateKey_length (entropy : Z) :
  List.length (randomPrivateKey entropy) = 32%nat.
Proof. apply numberToBytesBE_length. Qed.

Lemma randomPrivateKey_onto (v : Z) :
  1 <= v < n -> bytesToNumberBE (randomPrivateKey (v - 1)) = v.
Proof.
  intros Hv. pose proof n_256 as H256. fold n in H256.
  unfold randomPrivateKey. rewrite mod__spec by lia.
  rewrite Z.mod_small by lia.
  rewrite bytesToNumberBE_numberToBytesBE; [lia|].
  change (256 ^ Z.of_nat 32) with (2 ^ 256). lia.
Qed.

Lemma scalar_bytes (k : Z) :
  0 <= k < n -> bytesToNumberBE (numberToBytesBE k 32) = k.
Proof.
  intros Hk. pose proof n_256 as H256. fold n in H256.
  apply bytesToNumberBE_numberToBytesBE.
  change (256 ^ Z.of_nat 32) with (2 ^ 256). lia.
Qed.

Lemma mod_n_range (a : Z) : 0 <= mod_ a n < n.
Proof.
  pose proof n_gt_1. rewrite mod__spec by lia. apply Z.mod_pos_bound. lia.
Qed.

(** The challenge: which errors it raises, and when it returns. *)

Definition fits (s : string) : Prop := len (utf8 s) <= 255.

Lemma encodeInfo_ok (info : string) :
  fits info -> is_ok (encodeInfo info) = true.
Proof.
  unfold fits, encodeInfo. intros H.
  destruct (255 <? len (utf8 info)) eqn:E; [|reflexivity].
  apply Z.ltb_lt in E. lia.
Qed.

Lemma mapM_encodeInfo_ok (l : list string) :
  Forall fits l -> is_ok (mapM encodeInfo l) = true.
Proof.
  induction 1 as [|info l Hi Hl IH]; [reflexivity|].
  simpl. pose proof (encodeInfo_ok info Hi) as H1.
  destruct (encodeInfo info); [|discriminate H1].
  simpl. destruct (mapM encodeInfo l); [reflexivity|discriminate IH].
Qed.

Lemma mapM_encodeInfo_throws (l : list string) (e : error) :
  mapM encodeInfo l = Throw e ->
  ~ Forall fits l /\ exists msg, e = InvalidArgumentError msg.
Proof.
  revert e. induction l as [|info l IH]; intros e; [discriminate|].
  simpl. unfold encodeInfo at 1.
  destruct (255 <? len (utf8 info)) eqn:E.
  - simpl. intros H. inversion H. split; [|eexists; reflexivity].
    intros HF. inversion HF as [|? ? Hfit _]. unfold fits in Hfit.
    apply Z.ltb_lt in E. lia.
  - simpl. destruct (mapM encodeInfo l) as [|e'] eqn:El; [discriminate|].
    simpl. intros H. inversion H. subst.
    destruct (IH e eq_refl) as [Hn Hm]. split; [|exact Hm].
    intros HF. inversion HF. contradiction.
Qed.

Lemma generateSchnorrChallenge_default (u : string) (gx gr : ProjectivePoint)
    (oi : option (list string)) :
  generateSchnorrChallenge u gx gr (Some (otherInfo_or_default oi)) =
  generateSchnorrChallenge u gx gr oi.
Proof. destruct oi; reflexivity. Qed.

Lemma generateSchnorrChallenge_inv (u : string) (gx gr : ProjectivePoint)
    (oi : option (list string)) (c : Z) :
  generateSchnorrChallenge u gx gr oi = Ok c ->
  gx <> ZERO /\ gr <> ZERO /\ 0 <= c < n.
Proof.
  unfold generateSchnorrChallenge. cbv zeta.
  destruct (toRawBytes gx) as [gxb|] eqn:E1; [|discriminate].
  destruct (toRawBytes gr) as [grb|] eqn:E2; [|discriminate].
  apply toRawBytes_inv in E1, E2. destruct E1 as [H1 _], E2 as [H2 _].
  simpl rbind.
  destruct (255 <? len (utf8 u)); [discriminate|].
  destruct (255 <? len gxb); [discriminate|].
  destruct (255 <? len grb); [discriminate|].
  destruct (mapM encodeInfo (otherInfo_or_default oi)); [|discriminate].
  simpl rbind. intros H. inversion H. subst.
  split; [exact H1|split; [exact H2|apply mod_n_range]].
Qed.

(** An error of the challenge is a library [Error] exactly when one of the
    points is [ZERO]; otherwise it is an [InvalidArgumentError]. *)
Lemma generateSchnorrChallenge_throws (u : string) (gx gr : ProjectivePoint)
    (oi : option (list string)) (e : error) :
  generateSchnorrChallenge u gx gr oi = Throw e ->
  ((gx = ZERO \/ gr = ZERO) /\ e = Error "bad point: ZERO") \/
  (gx <> ZERO /\ gr <> ZERO /\
   (~ fits u \/ ~ Forall fits (otherInfo_or_default oi)) /\
   exists msg, e = InvalidArgumentError msg).
Proof.
  unfold generateSchnorrChallenge. cbv zeta.
  destruct (toRawBytes gx) as [gxb|] eqn:E1.
  2:{ simpl. intros H. inversion H. subst. apply toRawBytes_throws in E1.
      left. destruct E1 as [-> ->]. now split; [left|]. }
  destruct (toRawBytes gr) as [grb|] eqn:E2.
  2:{ simpl. intros H. inversion H. subst. apply toRawBytes_throws in E2.
      left. destruct E2 as [-> ->]. now split; [right|]. }
  apply toRawBytes_inv in E1, E2.
  destruct E1 as [H1 ->], E2 as [H2 ->]. simpl rbind.
  destruct (255 <? len (utf8 u)) eqn:Eu.
  { intros H. inversion H. right. repeat split; try assumption.
    - left. unfold fits. apply Z.ltb_lt in Eu. lia.
    - eexists; reflexivity. }
  unfold len at 1 2. rewrite !toBytes_length by assumption.
  change (255 <? Z.of_nat 33) with false. cbv iota. simpl rbind.
  destruct (mapM encodeInfo (otherInfo_or_default oi)) eqn:Em; [discriminate|].
  simpl. intros H. inversion H. subst.
  apply mapM_encodeInfo_throws in Em. destruct Em as [Hn Hm].
  right. repeat split; try assumption. now right.
Qed.

Lemma generateSchnorrChallenge_returns (u : string) (gx gr : ProjectivePoint)
    (oi : option (list string)) :
  gx <> ZERO -> gr <> ZERO -> fits u -> Forall fits (otherInfo_or_default oi) ->
  exists c, generateSchnorrChallenge u gx gr oi = Ok c /\ 0 <= c < n.
Proof.
  intros Hgx Hgr Hu Hoi.
  destruct (generateSchnorrChallenge u gx gr oi) as [c|e] eqn:E.
  - exists c. split; [reflexivity|].
    now apply generateSchnorrChallenge_inv in E.
  - exfalso. apply generateSchnorrChallenge_throws in E.
    destruct E as [[[H|H] _]|(_ & _ & [H|H] & _)]; contradiction.
Qed.

End SchnorrFacts.

(** * Verification of a Schnorr proof, case by case *)

(** The parts of a 67-byte proof [[33][V][32][r]]. *)
Definition byteAt (proof : bytes) (i : nat) : option Z :=
  option_map byte_to_Z (nth_error proof i).
Definition proofV (proof : bytes) : bytes := slice 1 34 proof.
Definition proofR (proof : bytes) : Z := bytesToNumberBE (slice 35 67 proof).

Section VerifyFacts.

Context {noble : Noble}.

Local Open Scope string_scope.
Local Open Scope Z_scope.

Lemma index_is_byteAt (proof : bytes) (i : nat) (v : Z) :
  index_is proof (Some i) v = true <-> byteAt proof i = Some v.
Proof.
  unfold index_is, byteAt. destruct (nth_error proof i) as [b|]; simpl.
  - rewrite Z.eqb_eq. split; [now intros ->|now intros [= ->]].
  - split; discriminate.
Qed.

Lemma affine_test (a b : ProjectivePoint) :
  (fst (toAffine a) =? fst (toAffine b)) &&
  (snd (toAffine a) =? snd (toAffine b)) = true <-> a = b.
Proof.
  rewrite andb_true_iff, !Z.eqb_eq. split.
  - intros [H1 H2]. apply toAffine_inj.
    destruct (toAffine a), (toAffine b); simpl in *; congruence.
  - now intros ->.
Qed.

Lemma verifySchnorrProof_default (u : string) (gx : ProjectivePoint)
    (proof : bytes) (g : ProjectivePoint) (oi : option (list string)) :
  verifySchnorrProof u gx proof g (Some (otherInfo_or_default oi)) =
  verifySchnorrProof u gx proof g oi.
Proof. destruct oi; reflexivity. Qed.

Lemma verifySchnorrProof_length (u : string) (gx : ProjectivePoint)
    (proof : bytes) (g : ProjectivePoint) (oi : option (list string)) :
  List.length proof <> 67%nat ->
  verifySchnorrProof u gx proof g oi =
  Throw (VerificationError "Invalid proof, must be 33 + 32 + 2 bytes long").
Proof.
  intros H. unfold verifySchnorrProof.
  destruct (len proof =? 33 + 32 + 2) eqn:E; [|reflexivity].
  apply Z.eqb_eq in E. unfold len in E. lia.
Qed.

Lemma verifySchnorrProof_prefix (u : string) (gx : ProjectivePoint)
    (proof : bytes) (g : ProjectivePoint) (oi : option (list string)) :
  List.length proof = 67%nat ->
  byteAt proof 0 <> Some 33 \/ byteAt proof 34 <> Some 32 ->
  verifySchnorrProof u gx proof g oi =
  Throw (VerificationError
    "Invalid proof, V must be 33 bytes and r must be 32 bytes").
Proof.
  intros Hl H. unfold verifySchnorrProof.
  unfold len. rewrite Hl. change (Z.of_nat 67 =? 33 + 32 + 2) with true.
  cbv [negb]. cbv iota zeta.
  destruct (index_is proof (Some 0%nat) 33) eqn:E0; [|reflexivity].
  apply index_is_byteAt in E0.
  destruct H as [H|H]; [contradiction|].
  assert (option_map (fun v => (1 + Z.to_nat (byte_to_Z v))%nat)
            (nth_error proof 0) = Some 34%nat) as ->.
  { unfold byteAt in E0. destruct (nth_error proof 0) as [b|]; [|discriminate].
    simpl in *. injection E0 as ->. reflexivity. }
  destruct (index_is proof (Some 34%nat) 32) eqn:E1; [|reflexivity].
  apply index_is_byteAt in E1. contradiction.
Qed.

Lemma verifySchnorrProof_body (u : string) (gx : ProjectivePoint)
    (proof : bytes) (g : ProjectivePoint) (oi : option (list string)) :
  List.length proof = 67%nat ->
  byteAt proof 0 = Some 33 -> byteAt proof 34 = Some 32 ->
  verifySchnorrProof u gx proof g oi =
  match fromHex (proofV proof) with
  | None => Ok false
  | Some V =>
      (c <- generateSchnorrChallenge u gx V oi ;;
       gr <- multiply g (proofR proof) ;;
       gxc <- multiply gx c ;;
       Ok ((fst (toAffine V) =? fst (toAffine (add gr gxc))) &&
           (snd (toAffine V) =? snd (toAffine (add gr gxc)))))%result
  end.
Proof.
  intros Hl H0 H34. unfold verifySchnorrProof.
  unfold len. rewrite Hl. change (Z.of_nat 67 =? 33 + 32 + 2) with true.
  cbv [negb]. cbv iota zeta.
  assert (option_map (fun v => (1 + Z.to_nat (byte_to_Z v))%nat)
            (nth_error proof 0) = Some 34%nat) as ->.
  { unfold byteAt in H0. destruct (nth_error proof 0) as [b|]; [|discriminate].
    simpl in *. injection H0 as ->. reflexivity. }
  apply index_is_byteAt in H0, H34. rewrite H0, H34.
  reflexivity.
Qed.

End VerifyFacts.

(** * Generation of a Schnorr proof *)

(** The serialisation [[33][V][32][r]] built by [generateSchnorrProof]. *)
Definition serialize (Vbytes r : bytes) : bytes :=
  List.concat [[byte_of_Z (len Vbytes)]; Vbytes; [byte_of_Z (len r)]; r].

Section ProofFacts.

Context {noble : Noble}.

Local Open Scope string_scope.
Local Open Scope Z_scope.

Lemma serialize_parts (Vb rb : bytes) :
  List.length Vb = 33%nat -> List.length rb = 32%nat ->
  List.length (serialize Vb rb) = 67%nat /\
  byteAt (serialize Vb rb) 0 = Some 33 /\
  byteAt (serialize Vb rb) 34 = Some 32 /\
  proofV (serialize Vb rb) = Vb /\
  proofR (serialize Vb rb) = bytesToNumberBE rb.
Proof.
  intros HV Hr. unfold serialize, len. rewrite HV, Hr.
  cbn [List.concat]. rewrite app_nil_r.
  change ([byte_of_Z (Z.of_nat 33)] ++ Vb ++ [byte_of_Z (Z.of_nat 32)] ++ rb)%list
    with (byte_of_Z 33 :: (Vb ++ byte_of_Z 32 :: rb)%list).
  split; [|split; [|split; [|split]]].
  - cbn [List.length]. rewrite length_app. cbn [List.length]. lia.
  - reflexivity.
  - unfold byteAt.
    replace (nth_error (byte_of_Z 33 :: (Vb ++ byte_of_Z 32 :: rb)%list) 34)
      with (nth_error (Vb ++ byte_of_Z 32 :: rb)%list 33) by reflexivity.
    rewrite nth_error_app2 by lia. rewrite HV. reflexivity.
  - unfold proofV, slice. change (34 - 1)%nat with 33%nat.
    replace (skipn 1 (byte_of_Z 33 :: (Vb ++ byte_of_Z 32 :: rb)%list))
      with (Vb ++ byte_of_Z 32 :: rb)%list by reflexivity.
    rewrite firstn_app, HV, Nat.sub_diag, firstn_O, app_nil_r.
    apply firstn_all2. lia.
  - unfold proofR, slice. f_equal. change (67 - 35)%nat with 32%nat.
    replace (skipn 35 (byte_of_Z 33 :: (Vb ++ byte_of_Z 32 :: rb)%list))
      with (skipn 34 (Vb ++ byte_of_Z 32 :: rb)%list) by reflexivity.
    rewrite skipn_app, HV.
    rewrite skipn_all2 by lia. change (34 - 33)%nat with 1%nat.
    replace (skipn 1 (byte_of_Z 32 :: rb)) with rb by reflexivity.
    apply firstn_all2. lia.
Qed.

(** What [generateSchnorrProof] computes, step by step. *)
Lemma generateSchnorrProof_unfold (u : string) (x : bytes)
    (gx g : ProjectivePoint) (oi : option (list string)) (entropy : Z) :
  let v := bytesToNumberBE (randomPrivateKey entropy) in
  let V := pmul g v in
  generateSchnorrProof u x gx g oi entropy =
  (c <- generateSchnorrChallenge u gx V oi ;;
   let proof :=
     serialize (toBytes V)
       (numberToBytesBE (mod_ (v - bytesToNumberBE x * c) n) 32) in
   ok <- verifySchnorrProof u gx proof g oi ;;
   if negb ok then Throw (JPakeError "Generated Schnorr proof is invalid")
   else Ok proof)%result.
Proof.
  intros v V. unfold generateSchnorrProof. cbv zeta. fold v.
  rewrite multiply_ok
    by (pose proof (randomPrivateKey_range entropy); subst v; lia).
  fold V.
  cbn [rbind]. rewrite generateSchnorrChallenge_default.
  destruct (generateSchnorrChallenge u gx V oi) as [c|e] eqn:Ec; [|reflexivity].
  cbn [rbind]. apply generateSchnorrChallenge_inv in Ec.
  destruct Ec as (_ & HV & _).
  rewrite toRawBytes_ok by exact HV. cbn [rbind].
  unfold len at 1 2. rewrite toBytes_length by exact HV.
  rewrite numberToBytesBE_length.
  change (negb (Z.of_nat 33 =? 33) || negb (Z.of_nat 32 =? 32)) with false.
  cbv iota. rewrite verifySchnorrProof_default. reflexivity.
Qed.

Lemma generateSchnorrProof_inv (u : string) (x : bytes)
    (gx g : ProjectivePoint) (oi : option (list string)) (entropy : Z)
    (proof : bytes) :
  generateSchnorrProof u x gx g oi entropy = Ok proof ->
  verifySchnorrProof u gx proof g oi = Ok true /\ gx <> ZERO /\
  proof = serialize (toBytes (pmul g (bytesToNumberBE (randomPrivateKey entropy))))
            (numberToBytesBE (proofR proof) 32).
Proof.
  rewrite generateSchnorrProof_unfold. cbv zeta.
  destruct (generateSchnorrChallenge u gx _ oi) as [c|e] eqn:Ec; [|discriminate].
  cbn [rbind].
  match goal with |- context [verifySchnorrProof u gx ?p g oi] =>
    set (pf := p) end.
  destruct (verifySchnorrProof u gx pf g oi) as [[|]|e] eqn:Ev;
    cbn [rbind negb]; intros H; inversion H; subst proof.
  apply generateSchnorrChallenge_inv in Ec. destruct Ec as (Hgx & HV & Hc).
  split; [exact Ev|split; [exact Hgx|]].
  subst pf.
  destruct (serialize_parts
              (toBytes (pmul g (bytesToNumberBE (randomPrivateKey entropy))))
              (numberToBytesBE
                 (mod_ (bytesToNumberBE (randomPrivateKey entropy) -
                        bytesToNumberBE x * c) n) 32))
    as (_ & _ & _ & _ & HR).
  - now apply toBytes_length.
  - apply numberToBytesBE_length.
  - rewrite HR, scalar_bytes by apply mod_n_range. reflexivity.
Qed.

(** Errors of verification and of generation, by kind. *)
Definition library_or_argument (e : error) : Prop :=
  (exists msg, e = Error msg) \/ (exists msg, e = InvalidArgumentError msg).

Lemma generateSchnorrChallenge_error_kind (u : string)
    (gx gr : ProjectivePoint) (oi : option (list string)) (e : error) :
  generateSchnorrChallenge u gx gr oi = Throw e -> library_or_argument e.
Proof.
  intros H. apply generateSchnorrChallenge_throws in H.
  destruct H as [[_ ->]|(_ & _ & _ & Hm)]; [left; eexists; reflexivity|now right].
Qed.

Lemma verifySchnorrProof_error_kind (u : string) (gx : ProjectivePoint)
    (proof : bytes) (g : ProjectivePoint) (oi : option (list string))
    (e : error) :
  verifySchnorrProof u gx proof g oi = Throw e ->
  (List.length proof <> 67%nat /\
   e = VerificationError "Invalid proof, must be 33 + 32 + 2 bytes long") \/
  ((byteAt proof 0 <> Some 33 \/ byteAt proof 34 <> Some 32) /\
   e = VerificationError
         "Invalid proof, V must be 33 bytes and r must be 32 bytes") \/
  (List.length proof = 67%nat /\ byteAt proof 0 = Some 33 /\
   byteAt proof 34 = Some 32 /\ library_or_argument e).
Proof.
  intros H.
  destruct (Nat.eq_dec (List.length proof) 67) as [Hl|Hl].
  2:{ rewrite verifySchnorrProof_length in H by exact Hl. left.
      split; [exact Hl|congruence]. }
  destruct (byteAt proof 0) as [b0|] eqn:E0;
    [|right; left; split; [left; discriminate|];
      rewrite verifySchnorrProof_prefix in H;
      [congruence|exact Hl|left; congruence]].
  destruct (Z.eq_dec b0 33) as [->|Hb0];
    [|right; left; split; [left; congruence|];
      rewrite verifySchnorrProof_prefix in H;
      [congruence|exact Hl|left; congruence]].
  destruct (byteAt proof 34) as [b34|] eqn:E34;
    [|right; left; split; [right; discriminate|];
      rewrite verifySchnorrProof_prefix in H;
      [congruence|exact Hl|right; congruence]].
  destruct (Z.eq_dec b34 32) as [->|Hb34];
    [|right; left; split; [right; congruence|];
      rewrite verifySchnorrProof_prefix in H;
      [congruence|exact Hl|right; congruence]].
  right. right. split; [exact Hl|split; [reflexivity|split; [reflexivity|]]].
  rewrite verifySchnorrProof_body in H by assumption.
  destruct (fromHex (proofV proof)) as [V|]; [|discriminate].
  destruct (generateSchnorrChallenge u gx V oi) as [c|e'] eqn:Ec.
  2:{ cbn [rbind] in H. inversion H. subst.
      now apply generateSchnorrChallenge_error_kind in Ec. }
  cbn [rbind] in H.
  destruct (multiply g (proofR proof)) as [gr|e'] eqn:E1.
  2:{ cbn [rbind] in H. inversion H. subst.
      apply multiply_throws in E1. now left. }
  cbn [rbind] in H.
  destruct (multiply gx c) as [gxc|e'] eqn:E2; [discriminate|].
  cbn [rbind] in H. inversion H. subst.
  apply multiply_throws in E2. now left.
Qed.

Lemma generateSchnorrProof_error_kind (u : string) (x : bytes)
    (gx g : ProjectivePoint) (oi : option (list string)) (entropy : Z)
    (e : error) :
  generateSchnorrProof u x gx g oi entropy = Throw e ->
  library_or_argument e \/ e = JPakeError "Generated Schnorr proof is invalid".
Proof.
  rewrite generateSchnorrProof_unfold. cbv zeta.
  destruct (generateSchnorrChallenge u gx _ oi) as [c|e'] eqn:Ec.
  2:{ cbn [rbind]. intros H. inversion H. subst. left.
      now apply generateSchnorrChallenge_error_kind in Ec. }
  cbn [rbind].
  match goal with |- context [verifySchnorrProof u gx ?p g oi] =>
    set (pf := p) end.
  pose proof (generateSchnorrChallenge_inv _ _ _ _ _ Ec) as (_ & HV & _).
  destruct (serialize_parts
              (toBytes (pmul g (bytesToNumberBE (randomPrivateKey entropy))))
              (numberToBytesBE
                 (mod_ (bytesToNumberBE (randomPrivateKey entropy) -
                        bytesToNumberBE x * c) n) 32))
    as (Hl & H0 & H34 & _ & _);
    [now apply toBytes_length|apply numberToBytesBE_length|].
  fold pf in Hl, H0, H34.
  destruct (verifySchnorrProof u gx pf g oi) as [[|]|e'] eqn:Ev;
    cbn [rbind negb]; intros H; inversion H; subst.
  - now right.
  - left. apply verifySchnorrProof_error_kind in Ev.
    destruct Ev as [[Hn _]|[[[Hn|Hn] _]|(_ & _ & _ & Hk)]];
      [contradiction..|exact Hk].
Qed.

End ProofFacts.

(** * Claims about the Schnorr functions *)

Section SchnorrClaims.

Context {noble : Noble}.

Local Open Scope string_scope.
Local Open Scope Z_scope.

Lemma verifySchnorrProof_serialized (u : string) (gx V g : ProjectivePoint)
    (oi : option (list string)) (r : Z) :
  V <> ZERO -> 0 <= r < n ->
  verifySchnorrProof u gx (serialize (toBytes V) (numberToBytesBE r 32)) g oi =
  (c <- generateSchnorrChallenge u gx V oi ;;
   gr <- multiply g r ;;
   gxc <- multiply gx c ;;
   Ok ((fst (toAffine V) =? fst (toAffine (add gr gxc))) &&
       (snd (toAffine V) =? snd (toAffine (add gr gxc)))))%result.
Proof.
  intros HV Hr.
  destruct (serialize_parts (toBytes V) (numberToBytesBE r 32))
    as (Hl & H0 & H34 & HpV & HpR);
    [now apply toBytes_length|apply numberToBytesBE_length|].
  rewrite verifySchnorrProof_body by assumption.
  rewrite HpV, HpR, fromHex_toBytes by exact HV.
  now rewrite scalar_bytes by exact Hr.
Qed.

(** C6 (amended).  [verifySchnorrProof], case by case, for every input:
    a proof that is not 67 bytes long raises the length error; a proof whose
    byte 0 is not 33 or whose byte 34 is not 32 raises the format error; when
    bytes 1..33 do not decode as a point the result is [false]; otherwise the
    challenge is recomputed and its error, if any, is raised; otherwise, when
    [r] (bytes 35..66, big-endian) is outside [1, n) or the challenge [c] is
    0, scalar multiplication raises a library [Error]; in the remaining case
    the result is a boolean that is [true] exactly when [V] and
    [g*r + gx*c] have the same affine coordinates, that is, are equal. *)
Theorem verifySchnorrProof_cases (peerUserId : string) (gx : ProjectivePoint)
    (proof : bytes) (g : ProjectivePoint) (otherInfo : option (list string)) :
  let result := verifySchnorrProof peerUserId gx proof g otherInfo in
  let r := proofR proof in
  (List.length proof <> 67%nat ->
   result =
   Throw (VerificationError "Invalid proof, must be 33 + 32 + 2 bytes long")) /\
  (List.length proof = 67%nat ->
   byteAt proof 0 <> Some 33 \/ byteAt proof 34 <> Some 32 ->
   result =
   Throw (VerificationError
     "Invalid proof, V must be 33 bytes and r must be 32 bytes")) /\
  (List.length proof = 67%nat ->
   byteAt proof 0 = Some 33 -> byteAt proof 34 = Some 32 ->
   match fromHex (proofV proof) with
   | None => result = Ok false
   | Some V =>
       match generateSchnorrChallenge peerUserId gx V otherInfo with
       | Throw e => result = Throw e
       | Ok c =>
           if (0 <? r) && (r <? n) && (0 <? c) then
             exists b, result = Ok b /\
               (b = true <->
                toAffine V = toAffine (add (pmul g r) (pmul gx c))) /\
               (b = true <-> V = add (pmul g r) (pmul gx c))
           else exists msg, result = Throw (Error msg)
       end
   end).
Proof.
  cbv zeta. split; [|split].
  - apply verifySchnorrProof_length.
  - apply verifySchnorrProof_prefix.
  - intros Hl H0 H34. rewrite verifySchnorrProof_body by assumption.
    destruct (fromHex (proofV proof)) as [V|]; [|reflexivity].
    destruct (generateSchnorrChallenge peerUserId gx V otherInfo) as [c|e] eqn:Ec;
      [|reflexivity].
    cbn [rbind]. apply generateSchnorrChallenge_inv in Ec.
    destruct Ec as (_ & _ & Hc).
    destruct (0 <? proofR proof) eqn:E1; destruct (proofR proof <? n) eqn:E2;
      destruct (0 <? c) eqn:E3; cbn [andb];
      try apply Z.ltb_lt in E1; try apply Z.ltb_lt in E2;
      try apply Z.ltb_lt in E3; try apply Z.ltb_ge in E1;
      try apply Z.ltb_ge in E2; try apply Z.ltb_ge in E3.
    all: try (destruct (multiply g (proofR proof)) as [q|e] eqn:Em;
      [apply multiply_inv in Em; lia|];
      apply multiply_throws in Em; destruct Em as [_ [msg ->]];
      eexists; reflexivity).
    + rewrite !multiply_ok by lia. cbn [rbind]. eexists. split; [reflexivity|].
      rewrite affine_test. split; [|reflexivity].
      split; [now intros ->|apply toAffine_inj].
    + rewrite (multiply_ok g) by lia. cbn [rbind].
      destruct (multiply gx c) as [q|e] eqn:Em.
      * apply multiply_inv in Em. lia.
      * apply multiply_throws in Em. destruct Em as [_ [msg ->]].
        eexists. reflexivity.
Qed.

End SchnorrClaims.

Section Completeness.

Context {noble : Noble}.

Local Open Scope string_scope.
Local Open Scope Z_scope.

Lemma rbind_Ok {A B} (a : A) (k : A -> result B) : rbind (Ok a) k = k a.
Proof. reflexivity. Qed.

Lemma rbind_Throw {A B} (e : error) (k : A -> result B) :
  rbind (Throw e) k = Throw e.
Proof. reflexivity. Qed.

Lemma multiply_fails (p : ProjectivePoint) (k : Z) :
  ~ (0 < k < n) -> exists msg, multiply p k = Throw (Error msg).
Proof.
  intros Hk. destruct (multiply p k) as [q|e] eqn:Em.
  - apply multiply_inv in Em. tauto.
  - apply multiply_throws in Em. destruct Em as [_ [msg ->]]. now exists msg.
Qed.

(** The verification equation for an honestly computed response. *)
Lemma schnorr_equation (g : ProjectivePoint) (x v c : Z) :
  add (pmul g ((v - x * c) mod n)) (pmul (pmul g x) c) = pmul g v.
Proof.
  rewrite pmul_mod, pmul_mul, <- pmul_add. f_equal. lia.
Qed.

Lemma serialize_cons (Vb rb : bytes) :
  List.length Vb = 33%nat -> List.length rb = 32%nat ->
  serialize Vb rb = (byte_of_Z 33 :: Vb ++ byte_of_Z 32 :: rb)%list.
Proof.
  intros HV Hr. unfold serialize, len. rewrite HV, Hr.
  cbn [List.concat]. now rewrite app_nil_r.
Qed.

Lemma generateSchnorrProof_with_challenge (u : string) (x : bytes)
    (gx g : ProjectivePoint) (oi : option (list string)) (entropy c : Z) :
  generateSchnorrChallenge u gx
    (pmul g (bytesToNumberBE (randomPrivateKey entropy))) oi = Ok c ->
  generateSchnorrProof u x gx g oi entropy =
  (ok <- verifySchnorrProof u gx
           (serialize
              (toBytes (pmul g (bytesToNumberBE (randomPrivateKey entropy))))
              (numberToBytesBE
                 ((bytesToNumberBE (randomPrivateKey entropy) -
                   bytesToNumberBE x * c) mod n) 32)) g oi ;;
   if negb ok then Throw (JPakeError "Generated Schnorr proof is invalid")
   else Ok (serialize
              (toBytes (pmul g (bytesToNumberBE (randomPrivateKey entropy))))
              (numberToBytesBE
                 ((bytesToNumberBE (randomPrivateKey entropy) -
                   bytesToNumberBE x * c) mod n) 32)))%result.
Proof.
  intros Ec. pose proof n_gt_1 as Hn.
  rewrite generateSchnorrProof_unfold. cbv zeta. rewrite Ec. cbn [rbind].
  rewrite mod__spec by lia. reflexivity.
Qed.

(** Completeness of [generateSchnorrProof], as far as the contract of the
    library gives it.  Let [x] be in [1, n), [g] not the point at infinity,
    [gx = g*x], [userId] and every element of [otherInfo] at most 255 bytes.
    For every draw [v] of [randomPrivateKey] (they cover [1, n)) the challenge
    [c] of [V = g*v] is computed without error, and with
    [r = (v - x*c) mod n]:
    - the branch raising "Generated Schnorr proof is invalid" is never taken;
    - if [c <> 0] and [r <> 0], the call returns the 67 bytes
      [[33][V][32][r]] and verification of them returns [true];
    - if [c = 0] or [r = 0], scalar multiplication inside the self-check
      raises a library [Error], which the call propagates. *)
Theorem generateSchnorrProof_complete (userId : string) (x : bytes)
    (gx g : ProjectivePoint) (otherInfo : option (list string)) (entropy : Z) :
  1 <= bytesToNumberBE x < n -> g <> ZERO -> gx = pmul g (bytesToNumberBE x) ->
  fits userId -> Forall fits (otherInfo_or_default otherInfo) ->
  let v := bytesToNumberBE (randomPrivateKey entropy) in
  let V := pmul g v in
  let generated := generateSchnorrProof userId x gx g otherInfo entropy in
  exists c,
    generateSchnorrChallenge userId gx V otherInfo = Ok c /\
    let r := (v - bytesToNumberBE x * c) mod n in
    let proof := (byte_of_Z 33 :: toBytes V ++ byte_of_Z 32 :: numberToBytesBE r 32)%list in
    1 <= v < n /\
    List.length proof = 67%nat /\
    generated <> Throw (JPakeError "Generated Schnorr proof is invalid") /\
    (c <> 0 -> r <> 0 ->
     generated = Ok proof /\
     verifySchnorrProof userId gx proof g otherInfo = Ok true) /\
    (c = 0 \/ r = 0 -> exists msg, generated = Throw (Error msg)).
Proof.
  intros Hx Hg Hgx Hu Hoi. cbv zeta.
  pose proof n_gt_1 as Hn.
  pose proof (randomPrivateKey_range entropy) as Hv.
  remember (bytesToNumberBE (randomPrivateKey entropy)) as v eqn:Ev.
  remember (pmul g v) as V eqn:EV.
  assert (V <> ZERO) as HV.
  { subst V. apply pmul_not_ZERO; [exact Hg|]. rewrite Z.mod_small; lia. }
  assert (gx <> ZERO) as Hgx0.
  { rewrite Hgx. apply pmul_not_ZERO; [exact Hg|]. rewrite Z.mod_small; lia. }
  destruct (generateSchnorrChallenge_returns userId gx V otherInfo
              Hgx0 HV Hu Hoi) as (c & Ec & Hc).
  exists c. split; [exact Ec|].
  remember ((v - bytesToNumberBE x * c) mod n) as r eqn:Er.
  assert (0 <= r < n) as Hr by (subst r; apply Z.mod_pos_bound; lia).
  pose proof (toBytes_length V HV) as HlV.
  pose proof (numberToBytesBE_length r 32) as Hlr.
  rewrite <- (serialize_cons _ _ HlV Hlr).
  destruct (serialize_parts _ _ HlV Hlr) as (Hl & _).
  pose proof Ec as Hgen. rewrite EV, Ev in Hgen.
  apply (generateSchnorrProof_with_challenge userId x) in Hgen.
  rewrite <- Ev, <- EV, <- Er in Hgen.
  rewrite verifySchnorrProof_serialized in Hgen |- * by assumption.
  rewrite Ec in Hgen |- *. rewrite ?rbind_Ok in Hgen |- *.
  split; [lia|split; [exact Hl|]].
  destruct (Z.eq_dec r 0) as [Hr0|Hr0].
  { assert (exists msg, generateSchnorrProof userId x gx g otherInfo entropy
                        = Throw (Error msg)) as [msg Hm].
    { destruct (multiply_fails g r) as [msg Hm]; [lia|].
      exists msg. rewrite Hm, rbind_Throw in Hgen. exact Hgen. }
    split; [rewrite Hm; discriminate|].
    split; [intros _ H; contradiction|intros _; now exists msg]. }
  rewrite multiply_ok in Hgen |- * by lia. rewrite ?rbind_Ok in Hgen |- *.
  destruct (Z.eq_dec c 0) as [Hc0|Hc0].
  { assert (exists msg, generateSchnorrProof userId x gx g otherInfo entropy
                        = Throw (Error msg)) as [msg Hm].
    { destruct (multiply_fails gx c) as [msg Hm]; [lia|].
      exists msg. rewrite Hm, rbind_Throw in Hgen. exact Hgen. }
    split; [rewrite Hm; discriminate|].
    split; [intros H; contradiction|intros _; now exists msg]. }
  rewrite multiply_ok in Hgen |- * by lia. rewrite ?rbind_Ok in Hgen |- *.
  assert ((fst (toAffine V) =? fst (toAffine (add (pmul g r) (pmul gx c)))) &&
          (snd (toAffine V) =? snd (toAffine (add (pmul g r) (pmul gx c))))
          = true) as Ht.
  { apply affine_test. rewrite Er, EV, Hgx. symmetry.
    apply schnorr_equation. }
  rewrite Ht in Hgen |- *. change (negb true) with false in Hgen.
  split; [rewrite Hgen; discriminate|].
  split; [intros _ _; split; [exact Hgen|reflexivity]|].
  intros [H|H]; contradiction.
Qed.

End Completeness.

(** * The methods of [JPake], outcome by outcome *)

Ltac break_match :=
  match goal with
  | |- context [match ?x with _ => _ end] =>
      lazymatch x with
      | context [match _ with _ => _ end] => fail
      | _ => destruct x eqn:?
      end
  end.

Ltac unfold_method :=
  unfold verifyPeerProof, bind, this_, throw, lift, assign, ret.

(** Turn the equation of a failed library or Schnorr call into the kind of
    its error. *)
Ltac error_kinds :=
  repeat match goal with
  | H : multiply _ _ = Throw _ |- _ =>
      apply multiply_throws in H; destruct H as [_ [? ->]]
  | H : toRawBytes _ = Throw _ |- _ =>
      apply toRawBytes_throws in H; destruct H as [? ->]
  | H : generateSchnorrProof _ _ _ _ _ _ = Throw _ |- _ =>
      apply generateSchnorrProof_error_kind in H;
      destruct H as [[[? ->]|[? ->]]| ->]
  | H : verifySchnorrProof _ _ _ _ _ = Throw _ |- _ =>
      apply verifySchnorrProof_error_kind in H;
      destruct H as [[_ ->]|[[_ ->]|(_ & _ & _ & [[? ->]|[? ->]])]]
  end.

Section MethodFacts.

Context {noble : Noble}.

Local Open Scope string_scope.
Local Open Scope Z_scope.

Lemma state_eqb_eq (a b : JPakeState) : state_eqb a b = true <-> a = b.
Proof. destruct a, b; cbv; split; congruence. Qed.

Lemma state_eqb_neq (a b : JPakeState) : state_eqb a b = false <-> a <> b.
Proof. destruct a, b; cbv; split; congruence. Qed.

(** **** [round1] *)

Lemma round1_wrong_state (e1 e2 ev1 ev2 : Z) (this : JPake) :
  state this <> INITIAL ->
  round1 e1 e2 ev1 ev2 this =
  (Throw (InvalidStateError "Round 1 can only be executed in INITIAL state"),
   this).
Proof.
  intros H. apply state_eqb_neq in H.
  unfold round1. unfold_method. now rewrite H.
Qed.

Lemma round1_accepts (e1 e2 ev1 ev2 : Z) (this : JPake) (msg : string) :
  state this = INITIAL ->
  fst (round1 e1 e2 ev1 ev2 this) <> Throw (InvalidStateError msg).
Proof.
  intros H. apply state_eqb_eq in H.
  unfold round1. unfold_method. rewrite H. cbn [negb].
  repeat (break_match; cbn [fst]); error_kinds; discriminate.
Qed.

Lemma round1_state (e1 e2 ev1 ev2 : Z) (this : JPake) :
  state (snd (round1 e1 e2 ev1 ev2 this)) = state this \/
  (state this = INITIAL /\
   state (snd (round1 e1 e2 ev1 ev2 this)) = ROUND1FINISHED).
Proof.
  unfold round1. unfold_method.
  destruct (state_eqb (state this) INITIAL) eqn:E; cbn [negb];
    [apply state_eqb_eq in E|now left].
  repeat (break_match; cbn [fst snd state set_state set_x1 set_x2 set_G1 set_G2]);
    tauto.
Qed.

Lemma round1_ok (e1 e2 ev1 ev2 : Z) (this this' : JPake) (r : Round1Result.t) :
  round1 e1 e2 ev1 ev2 this = (Ok r, this') ->
  let x1 := randomPrivateKey e1 in
  let x2 := randomPrivateKey e2 in
  let P1 := pmul G (bytesToNumberBE x1) in
  let P2 := pmul G (bytesToNumberBE x2) in
  state this = INITIAL /\
  this' = set_state ROUND1FINISHED
            (set_G2 (Some P2) (set_G1 (Some P1)
               (set_x2 (Some x2) (set_x1 (Some x1) this)))) /\
  P1 <> ZERO /\ P2 <> ZERO /\
  exists z1 z2,
    generateSchnorrProof (userId this) x1 P1 G (otherInfo this) ev1 = Ok z1 /\
    generateSchnorrProof (userId this) x2 P2 G (otherInfo this) ev2 = Ok z2 /\
    r = Round1Result.mk (Some (toBytes P1)) (Some (toBytes P2)) (Some z1) (Some z2).
Proof.
  cbv zeta. unfold round1. unfold_method.
  destruct (state_eqb (state this) INITIAL) eqn:E; cbn [negb];
    [apply state_eqb_eq in E|discriminate].
  rewrite !multiply_ok
    by (split; [pose proof (randomPrivateKey_range e1)
               |pose proof (randomPrivateKey_range e1)]; lia
        || (pose proof (randomPrivateKey_range e2); lia)).
  destruct (generateSchnorrProof (userId this) (randomPrivateKey e1) _ G
              (otherInfo this) ev1) as [z1|] eqn:E1; [|discriminate].
  destruct (generateSchnorrProof (userId this) (randomPrivateKey e2) _ G
              (otherInfo this) ev2) as [z2|] eqn:E2; [|discriminate].
  pose proof (generateSchnorrProof_inv _ _ _ _ _ _ _ E1) as (_ & H1 & _).
  pose proof (generateSchnorrProof_inv _ _ _ _ _ _ _ E2) as (_ & H2 & _).
  rewrite !toRawBytes_ok by assumption.
  intros H. apply pair_equal_spec in H. destruct H as [Hr Ht].
  split; [exact E|split; [now symmetry|split; [exact H1|split; [exact H2|]]]].
  exists z1, z2. split; [reflexivity|split; [reflexivity|congruence]].
Qed.

(** An error of [round1] leaves [state] as it was: once [state] has been
    assigned, the two [toRawBytes] calls cannot throw, because each proof was
    generated for a point that is not [ZERO]. *)
Lemma round1_error_state (e1 e2 ev1 ev2 : Z) (this : JPake) (e : error) :
  fst (round1 e1 e2 ev1 ev2 this) = Throw e ->
  state (snd (round1 e1 e2 ev1 ev2 this)) = state this.
Proof.
  unfold round1. unfold_method.
  destruct (state_eqb (state this) INITIAL) eqn:E; cbn [negb];
    [|reflexivity].
  destruct (multiply G (bytesToNumberBE (randomPrivateKey e1))) as [P1|];
    [|reflexivity].
  destruct (multiply G (bytesToNumberBE (randomPrivateKey e2))) as [P2|];
    [|reflexivity].
  destruct (generateSchnorrProof (userId this) (randomPrivateKey e1) P1 G
              (otherInfo this) ev1) as [z1|] eqn:E1; [|reflexivity].
  destruct (generateSchnorrProof (userId this) (randomPrivateKey e2) P2 G
              (otherInfo this) ev2) as [z2|] eqn:E2; [|reflexivity].
  pose proof (generateSchnorrProof_inv _ _ _ _ _ _ _ E1) as (_ & H1 & _).
  pose proof (generateSchnorrProof_inv _ _ _ _ _ _ _ E2) as (_ & H2 & _).
  rewrite !toRawBytes_ok by assumption. discriminate.
Qed.

Lemma round1_frame_B (e1 e2 ev1 ev2 : Z) (this : JPake) :
  B (snd (round1 e1 e2 ev1 ev2 this)) = B this.
Proof.
  unfold round1. unfold_method.
  repeat (break_match; cbn [fst snd B set_state set_x1 set_x2 set_G1 set_G2]);
    reflexivity.
Qed.

(** **** [round2] *)

Lemma round2_wrong_state (r1 : Round1Result.t) (s : option bytes)
    (u : string) (entropy : Z) (this : JPake) :
  state this <> ROUND1FINISHED ->
  round2 r1 s u entropy this =
  (Throw (InvalidStateError "Round 2 can only be executed after Round 1"), this).
Proof.
  intros H. apply state_eqb_neq in H.
  unfold round2. unfold_method. now rewrite H.
Qed.

Lemma round2_accepts (r1 : Round1Result.t) (s : option bytes)
    (u : string) (entropy : Z) (this : JPake) (msg : string) :
  state this = ROUND1FINISHED ->
  fst (round2 r1 s u entropy this) <> Throw (InvalidStateError msg).
Proof.
  intros H. apply state_eqb_eq in H.
  unfold round2. unfold_method. rewrite H. cbn [negb].
  repeat (break_match; cbn [fst]); error_kinds; discriminate.
Qed.

Lemma round2_state (r1 : Round1Result.t) (s : option bytes)
    (u : string) (entropy : Z) (this : JPake) :
  state (snd (round2 r1 s u entropy this)) = state this \/
  (state this = ROUND1FINISHED /\
   state (snd (round2 r1 s u entropy this)) = ROUND2FINISHED).
Proof.
  unfold round2. unfold_method.
  destruct (state_eqb (state this) ROUND1FINISHED) eqn:E; cbn [negb];
    [apply state_eqb_eq in E|now left].
  repeat (break_match;
          cbn [fst snd state set_state set_bobUserId set_G3 set_G4 set_x2s]);
    tauto.
Qed.

Lemma round2_frame_B (r1 : Round1Result.t) (s : option bytes)
    (u : string) (entropy : Z) (this : JPake) :
  B (snd (round2 r1 s u entropy this)) = B this.
Proof.
  unfold round2. unfold_method.
  repeat (break_match;
          cbn [fst snd B set_state set_bobUserId set_G3 set_G4 set_x2s]);
    reflexivity.
Qed.

(** [round2] reads [round1ResultBob.ZKPx2] only to test that it is present. *)
Lemma round2_ZKPx2_unused (g1 g2 z1 : option bytes) (z2 z2' : bytes)
    (s : option bytes) (u : string) (entropy : Z) (this : JPake) :
  round2 (Round1Result.mk g1 g2 z1 (Some z2)) s u entropy this =
  round2 (Round1Result.mk g1 g2 z1 (Some z2')) s u entropy this.
Proof.
  unfold round2. unfold_method. cbn [Round1Result.G1 Round1Result.G2
    Round1Result.ZKPx1 Round1Result.ZKPx2].
  destruct (negb (state_eqb (state this) ROUND1FINISHED)); [reflexivity|].
  destruct g1, g2, z1, s, (negb (u =? ""))%string; reflexivity.
Qed.

(** An error of [round2] leaves [state] as it was. *)
Lemma round2_error_state (r1 : Round1Result.t) (s : option bytes)
    (u : string) (entropy : Z) (this : JPake) (e : error) :
  fst (round2 r1 s u entropy this) = Throw e ->
  state (snd (round2 r1 s u entropy this)) = state this.
Proof.
  unfold round2. unfold_method.
  repeat (break_match;
          cbn [fst snd state set_state set_bobUserId set_G3 set_G4 set_x2s]);
    try reflexivity; try discriminate.
  all: match goal with
       | H : generateSchnorrProof _ _ _ _ _ _ = Ok _ |- _ =>
           apply generateSchnorrProof_inv in H; destruct H as (_ & H & _)
       end.
  all: match goal with
       | H : toRawBytes _ = Throw _ |- _ =>
           apply toRawBytes_throws in H; destruct H as [H _]
       end.
  all: contradiction.
Qed.

(** What a [VerificationError] of [round2] leaves behind. *)
Lemma round2_verification_error (r1 : Round1Result.t) (s : option bytes)
    (u : string) (entropy : Z) (this : JPake) (msg : string) :
  fst (round2 r1 s u entropy this) = Throw (VerificationError msg) ->
  state (snd (round2 r1 s u entropy this)) = state this /\
  bobUserId (snd (round2 r1 s u entropy this)) = Some u.
Proof.
  unfold round2. unfold_method.
  repeat (break_match;
          cbn [fst snd state bobUserId set_state set_bobUserId set_G3 set_G4
               set_x2s]);
    try discriminate; error_kinds; try discriminate; intros _; now split.
Qed.

(** The check of the new generator comes after the proof for [x2*s] has been
    generated with that generator; when the generator is [ZERO], so is [A],
    and the challenge cannot serialise it. *)
Lemma round2_never_reports_infinity (r1 : Round1Result.t) (s : option bytes)
    (u : string) (entropy : Z) (this : JPake) :
  fst (round2 r1 s u entropy this) <>
  Throw (VerificationError
    "Invalid point: The new generator is the point at infinity").
Proof.
  unfold round2. unfold_method.
  repeat (break_match; cbn [fst]); try discriminate; error_kinds;
    try discriminate.
  match goal with
  | H : equals _ ZERO = true |- _ => apply equals_spec in H; rename H into Hz
  end.
  match goal with
  | H : multiply _ _ = Ok _ |- _ =>
      apply multiply_inv in H; destruct H as [_ HA]
  end.
  match goal with
  | H : generateSchnorrProof _ _ _ _ _ _ = Ok _ |- _ =>
      apply generateSchnorrProof_inv in H; destruct H as (_ & H & _)
  end.
  rewrite Hz, pmul_ZERO in HA. contradiction.
Qed.

Lemma round2_ok (r1 : Round1Result.t) (s : option bytes) (u : string)
    (entropy : Z) (this this' : JPake) (r : Round2Result.t) :
  round2 r1 s u entropy this = (Ok r, this') ->
  exists bG1 bG2 bz1 bz2 sb x2v G1v P3 P4,
    state this = ROUND1FINISHED /\
    r1 = Round1Result.mk (Some bG1) (Some bG2) (Some bz1) (Some bz2) /\
    s = Some sb /\ u <> "" /\
    x2 this = Some x2v /\ G1 this = Some G1v /\
    fromHex bG1 = Some P3 /\ fromHex bG2 = Some P4 /\
    bytesToNumberBE sb mod n <> 0 /\ userId this <> u /\
    verifySchnorrProof u P3 bz1 G (otherInfo this) = Ok true /\
    let x2s :=
      numberToBytesBE ((bytesToNumberBE x2v * bytesToNumberBE sb) mod n) 32 in
    let gen := add (add G1v P3) P4 in
    let A := pmul gen (bytesToNumberBE x2s) in
    gen <> ZERO /\ A <> ZERO /\ 0 < bytesToNumberBE x2s < n /\
    exists z,
      generateSchnorrProof (userId this) x2s A gen (otherInfo this) entropy
      = Ok z /\
      r = Round2Result.mk (Some (toBytes A)) (Some z) /\
      this' = set_state ROUND2FINISHED
                (set_x2s (Some x2s)
                   (set_G4 (Some P4)
                      (set_G3 (Some P3) (set_bobUserId (Some u) this)))).
Proof.
  pose proof n_gt_1 as Hn.
  unfold round2. unfold_method.
  destruct (state_eqb (state this) ROUND1FINISHED) eqn:E; cbn [negb];
    [apply state_eqb_eq in E|discriminate].
  destruct r1 as [[bG1|] [bG2|] [bz1|] [bz2|]];
    cbn [Round1Result.G1 Round1Result.G2 Round1Result.ZKPx1 Round1Result.ZKPx2];
    try discriminate.
  destruct s as [sb|]; [|discriminate].
  destruct (u =? "")%string eqn:Eu; cbn [negb]; [discriminate|].
  apply String.eqb_neq in Eu.
  destruct (x2 this) as [x2v|]; [|discriminate].
  destruct (G1 this) as [G1v|]; [|discriminate].
  destruct (fromHex bG1) as [P3|] eqn:Ef1; [|discriminate].
  destruct (fromHex bG2) as [P4|] eqn:Ef2; [|discriminate].
  rewrite !mod__spec by lia.
  destruct (bytesToNumberBE sb mod n =? 0) eqn:Es; [discriminate|].
  apply Z.eqb_neq in Es.
  cbn [userId otherInfo set_bobUserId].
  destruct (userId this =? u)%string eqn:Eid; [discriminate|].
  apply String.eqb_neq in Eid.
  destruct (verifySchnorrProof u P3 bz1 G (otherInfo this)) as [[|]|] eqn:Ev;
    cbn [negb]; try discriminate.
  destruct (multiply (add (add G1v P3) P4) _) as [A|] eqn:EA; [|discriminate].
  apply multiply_inv in EA. destruct EA as [Hk ->].
  destruct (generateSchnorrProof (userId this) _ _ _ (otherInfo this) entropy)
    as [z|] eqn:Ez; [|discriminate].
  destruct (equals (add (add G1v P3) P4) ZERO) eqn:Eg; [discriminate|].
  apply equals_false in Eg.
  pose proof (generateSchnorrProof_inv _ _ _ _ _ _ _ Ez) as (_ & HA & _).
  rewrite toRawBytes_ok by exact HA.
  intros H. apply pair_equal_spec in H. destruct H as [Hr Ht].
  exists bG1, bG2, bz1, bz2, sb, x2v, G1v, P3, P4.
  do 11 (split; [first [reflexivity|assumption]|]).
  cbv zeta. split; [exact Eg|split; [exact HA|split; [exact Hk|]]].
  exists z. split; [exact Ez|split; [congruence|now symmetry]].
Qed.

(** **** [setRound2ResultFromBob] *)

Lemma setRound2ResultFromBob_wrong_state (r2 : Round2Result.t) (this : JPake) :
  state this <> ROUND2FINISHED ->
  setRound2ResultFromBob r2 this =
  (Throw (InvalidStateError
     "Round 2 results can only be set after Round 2 is finished"), this).
Proof.
  intros H. apply state_eqb_neq in H.
  unfold setRound2ResultFromBob. unfold_method. now rewrite H.
Qed.

Lemma setRound2ResultFromBob_accepts (r2 : Round2Result.t) (this : JPake)
    (msg : string) :
  state this = ROUND2FINISHED ->
  fst (setRound2ResultFromBob r2 this) <> Throw (InvalidStateError msg).
Proof.
  intros H. apply state_eqb_eq in H.
  unfold setRound2ResultFromBob. unfold_method. rewrite H. cbn [negb].
  repeat (break_match; cbn [fst]); discriminate.
Qed.

Lemma setRound2ResultFromBob_state (r2 : Round2Result.t) (this : JPake) :
  state (snd (setRound2ResultFromBob r2 this)) = state this \/
  (state this = ROUND2FINISHED /\
   state (snd (setRound2ResultFromBob r2 this)) = ROUND2RESULTSRECEIVED).
Proof.
  unfold setRound2ResultFromBob. unfold_method.
  destruct (state_eqb (state this) ROUND2FINISHED) eqn:E; cbn [negb];
    [apply state_eqb_eq in E|now left].
  repeat (break_match; cbn [fst snd state set_state set_B set_ZKPx2sBob]);
    tauto.
Qed.

Lemma setRound2ResultFromBob_error_state (r2 : Round2Result.t) (this : JPake)
    (e : error) :
  fst (setRound2ResultFromBob r2 this) = Throw e ->
  state (snd (setRound2ResultFromBob r2 this)) = state this.
Proof.
  unfold setRound2ResultFromBob. unfold_method.
  repeat (break_match; cbn [fst snd state set_state set_B set_ZKPx2sBob]);
    try reflexivity; discriminate.
Qed.

(** The only assignment to [B] stores a point that [fromHex] returned. *)
Lemma setRound2ResultFromBob_B (r2 : Round2Result.t) (this : JPake) :
  B (snd (setRound2ResultFromBob r2 this)) = B this \/
  exists b p, fromHex b = Some p /\
              B (snd (setRound2ResultFromBob r2 this)) = Some p.
Proof.
  unfold setRound2ResultFromBob. unfold_method.
  repeat (break_match; cbn [fst snd B set_state set_B set_ZKPx2sBob]);
    try (now left).
  right. eexists _, _. split; [eassumption|reflexivity].
Qed.

Lemma setRound2ResultFromBob_ok (r2 : Round2Result.t) (this this' : JPake)
    (v : unit) :
  setRound2ResultFromBob r2 this = (Ok v, this') ->
  exists bA bz p,
    state this = ROUND2FINISHED /\
    r2 = Round2Result.mk (Some bA) (Some bz) /\ fromHex bA = Some p /\
    this' = set_state ROUND2RESULTSRECEIVED
              (set_ZKPx2sBob (Some bz) (set_B (Some p) this)).
Proof.
  unfold setRound2ResultFromBob. unfold_method.
  destruct (state_eqb (state this) ROUND2FINISHED) eqn:E; cbn [negb];
    [apply state_eqb_eq in E|discriminate].
  destruct r2 as [[bA|] [bz|]]; cbn [Round2Result.A Round2Result.ZKPx2s];
    try discriminate.
  destruct (fromHex bA) as [p|] eqn:Ef; [|discriminate].
  intros H. apply pair_equal_spec in H. destruct H as [_ Ht].
  exists bA, bz, p. now repeat split.
Qed.

(** **** [deriveSharedKey] *)

Lemma deriveSharedKey_wrong_state (this : JPake) :
  state this <> ROUND2RESULTSRECEIVED ->
  deriveSharedKey this =
  (Throw (InvalidStateError
     "Shared key can only be derived after receiving Round 2 results"), this).
Proof.
  intros H. apply state_eqb_neq in H.
  unfold deriveSharedKey. unfold_method. now rewrite H.
Qed.

Lemma deriveSharedKey_accepts (this : JPake) (msg : string) :
  state this = ROUND2RESULTSRECEIVED ->
  fst (deriveSharedKey this) <> Throw (InvalidStateError msg).
Proof.
  intros H. apply state_eqb_eq in H.
  unfold deriveSharedKey. unfold_method. rewrite H. cbn [negb].
  repeat (break_match; cbn [fst]); error_kinds; discriminate.
Qed.

Lemma deriveSharedKey_state (this : JPake) :
  state (snd (deriveSharedKey this)) = state this \/
  (state this = ROUND2RESULTSRECEIVED /\
   state (snd (deriveSharedKey this)) = KEYDERIVED).
Proof.
  unfold deriveSharedKey. unfold_method.
  destruct (state_eqb (state this) ROUND2RESULTSRECEIVED) eqn:E; cbn [negb];
    [apply state_eqb_eq in E|now left].
  repeat (break_match; cbn [fst snd state set_state]); tauto.
Qed.

Lemma deriveSharedKey_error_state (this : JPake) (e : error) :
  fst (deriveSharedKey this) = Throw e ->
  state (snd (deriveSharedKey this)) = state this.
Proof.
  unfold deriveSharedKey. unfold_method.
  repeat (break_match; cbn [fst snd state set_state]);
    try reflexivity; discriminate.
Qed.

Lemma deriveSharedKey_frame_B (this : JPake) :
  B (snd (deriveSharedKey this)) = B this.
Proof.
  unfold deriveSharedKey. unfold_method.
  repeat (break_match; cbn [fst snd B set_state]); congruence.
Qed.

(** The check of [B] fires only when the stored point is [ZERO]. *)
Lemma deriveSharedKey_reports_infinity (this : JPake) :
  fst (deriveSharedKey this) =
  Throw (VerificationError "Invalid point: B is the point at infinity") ->
  B this = Some ZERO.
Proof.
  unfold deriveSharedKey. unfold_method.
  repeat (break_match; cbn [fst]); try discriminate; error_kinds;
    try discriminate.
  intros _.
  match goal with
  | H : equals _ ZERO = true |- _ => apply equals_spec in H; now subst
  end.
Qed.

(** The successful path of [deriveSharedKey]. *)
Lemma deriveSharedKey_run (this : JPake) (Bp P1 P2 P3 P4 : ProjectivePoint)
    (x2v x2sv z : bytes) (u : string) :
  state this = ROUND2RESULTSRECEIVED ->
  B this = Some Bp -> G1 this = Some P1 -> G2 this = Some P2 ->
  G3 this = Some P3 -> G4 this = Some P4 ->
  x2 this = Some x2v -> x2s this = Some x2sv -> ZKPx2sBob this = Some z ->
  bobUserId this = Some u -> u <> "" -> userId this <> u -> Bp <> ZERO ->
  verifySchnorrProof u Bp z (add (add P1 P3) P2) (otherInfo this) = Ok true ->
  0 < bytesToNumberBE x2sv < n -> 0 < bytesToNumberBE x2v < n ->
  pmul (subtract Bp (pmul P4 (bytesToNumberBE x2sv))) (bytesToNumberBE x2v)
    <> ZERO ->
  deriveSharedKey this =
  (Ok (sha3_256
         (toBytes
            (pmul (subtract Bp (pmul P4 (bytesToNumberBE x2sv)))
               (bytesToNumberBE x2v)))),
   set_state KEYDERIVED this).
Proof.
  intros Hst HB H1 H2 H3 H4 Hx2 Hx2s Hz Hu Hu0 Hid HBp Hv Hk1 Hk2 HKa.
  apply state_eqb_eq in Hst. apply String.eqb_neq in Hu0, Hid.
  apply equals_false in HBp.
  unfold deriveSharedKey. unfold_method.
  rewrite Hst, HB, H1, H2, H3, H4, Hx2, Hx2s, Hz, Hu. cbn [negb truthy_string].
  rewrite Hu0, HBp. cbv beta. rewrite Hid, Hu0, Hv. cbn [negb].
  rewrite !multiply_ok by assumption.
  now rewrite toRawBytes_ok by assumption.
Qed.

End MethodFacts.

(** * Claims about the state machine *)

Section StateMachine.

Context {noble : Noble}.

Local Open Scope string_scope.
Local Open Scope Z_scope.

Lemma run_wrong_state (c : call) (this : JPake) :
  state this <> source_state c ->
  exists msg, run c this = (Throw (InvalidStateError msg), this).
Proof.
  intros H. destruct c as [e1 e2 ev1 ev2|r1 s u e|r2|];
    cbn [source_state] in H; cbn [run].
  - rewrite round1_wrong_state by exact H. eexists. reflexivity.
  - rewrite round2_wrong_state by exact H. eexists. reflexivity.
  - rewrite setRound2ResultFromBob_wrong_state by exact H. eexists. reflexivity.
  - rewrite deriveSharedKey_wrong_state by exact H. eexists. reflexivity.
Qed.

(** [run] pairs the outcome and the object of the method it calls. *)
Lemma fst_run (c : call) (this : JPake) :
  fst (run c this) =
  match c with
  | Round1 e1 e2 ev1 ev2 => map_result RetRound1 (fst (round1 e1 e2 ev1 ev2 this))
  | Round2 r1 s u e => map_result RetRound2 (fst (round2 r1 s u e this))
  | SetRound2ResultFromBob r2 =>
      map_result (fun _ => RetUnit) (fst (setRound2ResultFromBob r2 this))
  | DeriveSharedKey => map_result RetKey (fst (deriveSharedKey this))
  end.
Proof.
  destruct c as [e1 e2 ev1 ev2|r1 s u e|r2|]; cbn [run].
  - now destruct (round1 e1 e2 ev1 ev2 this).
  - now destruct (round2 r1 s u e this).
  - now destruct (setRound2ResultFromBob r2 this).
  - now destruct (deriveSharedKey this).
Qed.

Lemma snd_run (c : call) (this : JPake) :
  snd (run c this) =
  match c with
  | Round1 e1 e2 ev1 ev2 => snd (round1 e1 e2 ev1 ev2 this)
  | Round2 r1 s u e => snd (round2 r1 s u e this)
  | SetRound2ResultFromBob r2 => snd (setRound2ResultFromBob r2 this)
  | DeriveSharedKey => snd (deriveSharedKey this)
  end.
Proof.
  destruct c as [e1 e2 ev1 ev2|r1 s u e|r2|]; cbn [run].
  - now destruct (round1 e1 e2 ev1 ev2 this).
  - now destruct (round2 r1 s u e this).
  - now destruct (setRound2ResultFromBob r2 this).
  - now destruct (deriveSharedKey this).
Qed.

Lemma map_result_throws {T U} (f : T -> U) (r : result T) (e : error) :
  map_result f r = Throw e <-> r = Throw e.
Proof. destruct r; simpl; split; congruence. Qed.

Lemma run_accepts (c : call) (this : JPake) (msg : string) :
  state this = source_state c ->
  fst (run c this) <> Throw (InvalidStateError msg).
Proof.
  intros H. rewrite fst_run.
  destruct c as [e1 e2 ev1 ev2|r1 s u e|r2|]; cbn [source_state] in H;
    rewrite map_result_throws.
  - now apply round1_accepts.
  - now apply round2_accepts.
  - now apply setRound2ResultFromBob_accepts.
  - now apply deriveSharedKey_accepts.
Qed.

Lemma run_state (c : call) (this : JPake) :
  state (snd (run c this)) = state this \/
  (state this = source_state c /\
   state_value (state (snd (run c this))) = S (state_value (state this))).
Proof.
  rewrite snd_run.
  destruct c as [e1 e2 ev1 ev2|r1 s u e|r2|]; cbn [source_state].
  - destruct (round1_state e1 e2 ev1 ev2 this) as [H|[H1 H2]];
      [now left|right; now rewrite H1, H2].
  - destruct (round2_state r1 s u e this)
      as [H|[H1 H2]]; [now left|right; now rewrite H1, H2].
  - destruct (setRound2ResultFromBob_state r2 this)
      as [H|[H1 H2]]; [now left|right; now rewrite H1, H2].
  - destruct (deriveSharedKey_state this) as [H|[H1 H2]];
      [now left|right; now rewrite H1, H2].
Qed.

Lemma run_error_state (c : call) (this : JPake) (e : error) :
  fst (run c this) = Throw e -> state (snd (run c this)) = state this.
Proof.
  rewrite fst_run, snd_run.
  destruct c as [e1 e2 ev1 ev2|r1 s u e'|r2|]; rewrite map_result_throws.
  - apply round1_error_state.
  - apply round2_error_state.
  - apply setRound2ResultFromBob_error_state.
  - apply deriveSharedKey_error_state.
Qed.

(** C3.  Each public method has one source state ([round1]: INITIAL,
    [round2]: ROUND1FINISHED, [setRound2ResultFromBob]: ROUND2FINISHED,
    [deriveSharedKey]: ROUND2RESULTSRECEIVED).  Called in any other state it
    throws [InvalidStateError] and the object is unchanged, field for field;
    called in its source state it never throws [InvalidStateError]; and
    over any sequence of calls the [state] field never decreases. *)
Theorem state_machine :
  (forall (c : call) (this : JPake),
     state this <> source_state c ->
     exists msg, run c this = (Throw (InvalidStateError msg), this)) /\
  (forall (c : call) (this : JPake) (msg : string),
     state this = source_state c ->
     fst (run c this) <> Throw (InvalidStateError msg)) /\
  (forall (cs : list call) (this : JPake),
     (state_value (state this) <= state_value (state (run_all cs this)))%nat).
Proof.
  split; [exact run_wrong_state|split; [exact run_accepts|]].
  induction cs as [|c cs IH]; intros this; cbn [run_all]; [lia|].
  specialize (IH (snd (run c this))).
  destruct (run_state c this) as [H|[_ H]]; [rewrite H in IH; exact IH|lia].
Qed.

(** C4 (amended).  An error never advances the object and does not close
    it: when a public method throws, the [state] field is what it was before
    the call; afterwards every method whose source state is not that state
    throws [InvalidStateError] and changes nothing, and a method whose source
    state is that state does not throw [InvalidStateError]. *)
Theorem error_keeps_state (c : call) (this : JPake) (e : error) :
  fst (run c this) = Throw e ->
  state (snd (run c this)) = state this /\
  (forall c' : call,
     source_state c' <> state this ->
     exists msg,
       run c' (snd (run c this)) =
       (Throw (InvalidStateError msg), snd (run c this))) /\
  (forall (c' : call) (msg : string),
     source_state c' = state this ->
     fst (run c' (snd (run c this))) <> Throw (InvalidStateError msg)).
Proof.
  intros H. pose proof (run_error_state c this e H) as Hs.
  split; [exact Hs|split].
  - intros c' Hc'. apply run_wrong_state. congruence.
  - intros c' msg Hc'. apply run_accepts. congruence.
Qed.

(** C9.  When [round2], called in state ROUND1FINISHED, throws a
    [VerificationError] (the userIds are equal, or the proof does not
    verify), [state] is still ROUND1FINISHED, so that a further [round2] is
    not rejected for its state, and [bobUserId] already holds the peer
    identifier the caller passed. *)
Theorem round2_verification_failure (r1 : Round1Result.t) (s : option bytes)
    (peerUserId : string) (entropy : Z) (this : JPake) (msg : string) :
  state this = ROUND1FINISHED ->
  fst (round2 r1 s peerUserId entropy this) = Throw (VerificationError msg) ->
  state (snd (round2 r1 s peerUserId entropy this)) = ROUND1FINISHED /\
  bobUserId (snd (round2 r1 s peerUserId entropy this)) = Some peerUserId /\
  forall r1' s' u' entropy' msg',
    fst (round2 r1' s' u' entropy' (snd (round2 r1 s peerUserId entropy this)))
    <> Throw (InvalidStateError msg').
Proof.
  intros Hst H. apply round2_verification_error in H. destruct H as [H1 H2].
  rewrite Hst in H1.
  split; [exact H1|split; [exact H2|]].
  intros. now apply round2_accepts.
Qed.

(** C2 (what the code does).  [round2] only tests that
    [round1ResultBob.ZKPx2] is present: its outcome and the object it leaves
    are the same for any two values of that field, so the second proof is
    never verified. *)
Theorem round2_does_not_verify_ZKPx2 (G1bytes G2bytes ZKPx1bytes : option bytes)
    (ZKPx2bytes ZKPx2bytes' : bytes) (s : option bytes) (bobUserId : string)
    (entropy : Z) (this : JPake) :
  round2 (Round1Result.mk G1bytes G2bytes ZKPx1bytes (Some ZKPx2bytes))
    s bobUserId entropy this =
  round2 (Round1Result.mk G1bytes G2bytes ZKPx1bytes (Some ZKPx2bytes'))
    s bobUserId entropy this.
Proof. apply round2_ZKPx2_unused. Qed.

End StateMachine.

Section Infinity.

Context {noble : Noble}.

Local Open Scope string_scope.
Local Open Scope Z_scope.

(** What every reachable object satisfies: [B] is unset or was returned by
    [fromHex], and it is set once [state] has reached
    ROUND2RESULTSRECEIVED. *)
Definition B_decoded (this : JPake) : Prop :=
  (B this = None \/ exists b p, fromHex b = Some p /\ B this = Some p) /\
  ((3 <= state_value (state this))%nat -> B this <> None).

Lemma setRound2ResultFromBob_state_B (r2 : Round2Result.t) (this : JPake) :
  (state (snd (setRound2ResultFromBob r2 this)) = state this /\
   B (snd (setRound2ResultFromBob r2 this)) = B this) \/
  exists b p, fromHex b = Some p /\
              B (snd (setRound2ResultFromBob r2 this)) = Some p.
Proof.
  unfold setRound2ResultFromBob. unfold_method.
  repeat (break_match; cbn [fst snd B state set_state set_B set_ZKPx2sBob]);
    try (left; split; reflexivity).
  right. eexists _, _. split; [eassumption|reflexivity].
Qed.

Lemma B_decoded_new (u : string) (oi : option (list string)) (this : JPake) :
  newJPake u oi = Ok this -> B_decoded this.
Proof.
  unfold newJPake. destruct (u =? "")%string; [discriminate|].
  intros [= <-]. split; [now left|].
  cbn [state state_value]. lia.
Qed.

Lemma B_decoded_run (c : call) (this : JPake) :
  B_decoded this -> B_decoded (snd (run c this)).
Proof.
  intros [H1 H2]. unfold B_decoded. rewrite snd_run.
  destruct c as [e1 e2 ev1 ev2|r1 s u e|r2|].
  - rewrite round1_frame_B. split; [exact H1|].
    destruct (round1_state e1 e2 ev1 ev2 this) as [->|[_ ->]];
      [exact H2|cbn [state_value]; lia].
  - rewrite round2_frame_B. split; [exact H1|].
    destruct (round2_state r1 s u e this) as [->|[_ ->]];
      [exact H2|cbn [state_value]; lia].
  - destruct (setRound2ResultFromBob_state_B r2 this)
      as [[-> ->]|(b & p & Hf & ->)]; [now split|].
    split; [right; now exists b, p|discriminate].
  - rewrite deriveSharedKey_frame_B. split; [exact H1|].
    destruct (deriveSharedKey_state this) as [->|[Hs _]]; [exact H2|].
    intros _. apply H2. rewrite Hs. cbn [state_value]. lia.
Qed.

Lemma reachable_B_decoded (this : JPake) : reachable this -> B_decoded this.
Proof.
  induction 1 as [u oi this Hnew|c this _ IH].
  - exact (B_decoded_new u oi this Hnew).
  - now apply B_decoded_run.
Qed.

(** C10.  On every object built by the constructor and touched only through
    the four public methods: once [state] is ROUND2RESULTSRECEIVED, the
    stored [B] is a point that [fromHex] returned, hence not the point at
    infinity; and [deriveSharedKey] never throws
    "Invalid point: B is the point at infinity". *)
Theorem B_infinity_branch_unreachable (this : JPake) :
  reachable this ->
  (state this = ROUND2RESULTSRECEIVED ->
   exists b p, fromHex b = Some p /\ B this = Some p /\ p <> ZERO) /\
  fst (deriveSharedKey this) <>
  Throw (VerificationError "Invalid point: B is the point at infinity").
Proof.
  intros Hr. apply reachable_B_decoded in Hr. destruct Hr as [H1 H2].
  split.
  - intros Hs. rewrite Hs in H2. cbn [state_value] in H2.
    destruct H1 as [H1|(b & p & Hf & HB)]; [now elim H2; [lia|]|].
    exists b, p. split; [exact Hf|split; [exact HB|]].
    now apply fromHex_not_ZERO in Hf.
  - intros H. apply deriveSharedKey_reports_infinity in H.
    destruct H1 as [H1|(b & p & Hf & HB)]; [congruence|].
    apply fromHex_not_ZERO in Hf. congruence.
Qed.

(** C8 (what the code does).  [round2] never throws
    "Invalid point: The new generator is the point at infinity".  When the
    call gets as far as computing the new generator [G1 + G3 + G4] and that
    sum is the point at infinity, the proof for [x2*s] is generated first,
    with [A] the point at infinity too, and the call ends with the library's
    [Error] "bad point: ZERO"; [state] stays ROUND1FINISHED. *)
Theorem round2_generator_at_infinity (bobG1 bobG2 bobZKPx1 bobZKPx2 s : bytes)
    (bobUserId : string) (entropy : Z) (this : JPake)
    (x2v : bytes) (P1 P3 P4 : ProjectivePoint) :
  state this = ROUND1FINISHED ->
  x2 this = Some x2v -> 0 < bytesToNumberBE x2v < n -> G1 this = Some P1 ->
  bobUserId <> "" -> userId this <> bobUserId ->
  fromHex bobG1 = Some P3 -> fromHex bobG2 = Some P4 ->
  bytesToNumberBE s mod n <> 0 ->
  verifySchnorrProof bobUserId P3 bobZKPx1 G (otherInfo this) = Ok true ->
  add (add P1 P3) P4 = ZERO ->
  let outcome :=
    round2 (Round1Result.mk (Some bobG1) (Some bobG2) (Some bobZKPx1)
              (Some bobZKPx2)) (Some s) bobUserId entropy this in
  fst outcome = Throw (Error "bad point: ZERO") /\
  state (snd outcome) = ROUND1FINISHED /\
  forall r1 s' u' entropy' this',
    fst (round2 r1 s' u' entropy' this') <>
    Throw (VerificationError
      "Invalid point: The new generator is the point at infinity").
Proof.
  intros Hst Hx2 Hx2r HG1 Hu Hid Hf3 Hf4 Hs Hv Hgen. cbv zeta.
  pose proof n_gt_1 as Hn.
  assert (fst (round2 (Round1Result.mk (Some bobG1) (Some bobG2)
                        (Some bobZKPx1) (Some bobZKPx2)) (Some s) bobUserId
                 entropy this) = Throw (Error "bad point: ZERO")) as Hout.
  { apply state_eqb_eq in Hst. apply String.eqb_neq in Hu, Hid.
    apply (Z.eqb_neq _ 0) in Hs.
    unfold round2. unfold_method.
    cbn [Round1Result.G1 Round1Result.G2 Round1Result.ZKPx1 Round1Result.ZKPx2].
    rewrite Hst, Hu, Hx2, HG1, Hf3, Hf4. cbn [negb].
    rewrite !mod__spec by lia. rewrite Hs. cbv beta.
    cbn [userId otherInfo set_bobUserId]. rewrite Hid, ?Hu, Hv. cbn [negb].
    rewrite Hgen.
    assert ((bytesToNumberBE x2v * bytesToNumberBE s) mod n <> 0) as Hk.
    { apply mul_mod_nonzero; [rewrite Z.mod_small; lia|].
      now apply Z.eqb_neq in Hs. }
    pose proof (Z.mod_pos_bound (bytesToNumberBE x2v * bytesToNumberBE s) n)
      as Hb.
    rewrite scalar_bytes by lia.
    rewrite multiply_ok by lia. rewrite pmul_ZERO.
    rewrite generateSchnorrProof_unfold. cbv zeta. rewrite pmul_ZERO.
    unfold generateSchnorrChallenge. rewrite toRawBytes_ZERO. reflexivity. }
  split; [exact Hout|split; [|intros; apply round2_never_reports_infinity]].
  rewrite (round2_error_state _ _ _ _ _ _ Hout). exact Hst.
Qed.

End Infinity.

(** * Key agreement *)

Section KeyAgreement.

Context {noble : Noble}.

Local Open Scope string_scope.
Local Open Scope Z_scope.

Lemma pmul_G_add (a b : Z) : add (pmul G a) (pmul G b) = pmul G (a + b).
Proof. symmetry. apply pmul_add. Qed.

Lemma pmul_G_negate (a : Z) : negate (pmul G a) = pmul G (- a).
Proof. symmetry. apply pmul_opp. Qed.

(** The point both parties hash: [(x1 + x3) * x2 * x4 * s] times [G], where
    [x1, x2] are the scalars of one party and [x3, x4] those of the other. *)
Lemma shared_point (x1 x2 x3 x4 s : Z) :
  pmul
    (subtract
       (pmul (add (add (pmul G x3) (pmul G x1)) (pmul G x2)) ((x4 * s) mod n))
       (pmul (pmul G x4) ((x2 * s) mod n)))
    x2
  = pmul G ((x1 + x3) * x2 * x4 * s).
Proof.
  unfold subtract. rewrite !pmul_mod, !pmul_G_add, !pmul_mul, pmul_G_negate.
  rewrite pmul_G_add, pmul_mul. f_equal. ring.
Qed.

Lemma newJPake_ok (u : string) (oi : option (list string)) (this : JPake) :
  newJPake u oi = Ok this ->
  u <> "" /\
  this = mkJPake u oi INITIAL None None None None None None None None None None.
Proof.
  unfold newJPake. destruct (u =? "")%string eqn:E; [discriminate|].
  apply String.eqb_neq in E. intros [= <-]. now split.
Qed.

(** One party's view of a completed exchange: after its own [round1], a
    [round2] on the peer's round-1 message and [setRound2ResultFromBob] on the
    peer's round-2 message, [deriveSharedKey] returns the hash of
    [(x1 + x3) * x2 * x4 * s] times [G]. *)
Lemma party_key (uA uB : string) (oi : option (list string)) (s : bytes)
    (a1 a2 av1 av2 av3 b1 b2 bv3 : Z)
    (alice0 alice1 alice2 alice3 : JPake)
    (aliceRound1 : Round1Result.t) (aliceRound2 : Round2Result.t)
    (zb1 zb2 zB : bytes) :
  let k1 := bytesToNumberBE (randomPrivateKey a1) in
  let k2 := bytesToNumberBE (randomPrivateKey a2) in
  let k3 := bytesToNumberBE (randomPrivateKey b1) in
  let k4 := bytesToNumberBE (randomPrivateKey b2) in
  let sv := bytesToNumberBE s in
  let k4s := numberToBytesBE ((k4 * sv) mod n) 32 in
  let genB := add (add (pmul G k3) (pmul G k1)) (pmul G k2) in
  let AB := pmul genB (bytesToNumberBE k4s) in
  newJPake uA oi = Ok alice0 ->
  round1 a1 a2 av1 av2 alice0 = (Ok aliceRound1, alice1) ->
  round2 (Round1Result.mk (Some (toBytes (pmul G k3)))
            (Some (toBytes (pmul G k4))) (Some zb1) (Some zb2))
    (Some s) uB av3 alice1 = (Ok aliceRound2, alice2) ->
  setRound2ResultFromBob (Round2Result.mk (Some (toBytes AB)) (Some zB)) alice2
    = (Ok tt, alice3) ->
  generateSchnorrProof uB k4s AB genB oi bv3 = Ok zB ->
  (k1 + k3) mod n <> 0 ->
  fst (deriveSharedKey alice3) =
  Ok (sha3_256 (toBytes (pmul G ((k1 + k3) * k2 * k4 * sv)))).
Proof.
  cbv zeta.
  pose proof n_gt_1 as Hn.
  pose proof (randomPrivateKey_range a1) as Hx1.
  pose proof (randomPrivateKey_range a2) as Hx2.
  pose proof (randomPrivateKey_range b1) as Hx3.
  pose proof (randomPrivateKey_range b2) as Hx4.
  remember (bytesToNumberBE (randomPrivateKey a1)) as k1 eqn:Ek1.
  remember (bytesToNumberBE (randomPrivateKey a2)) as k2 eqn:Ek2.
  remember (bytesToNumberBE (randomPrivateKey b1)) as k3 eqn:Ek3.
  remember (bytesToNumberBE (randomPrivateKey b2)) as k4 eqn:Ek4.
  remember (bytesToNumberBE s) as sv eqn:Esv.
  remember (numberToBytesBE ((k4 * sv) mod n) 32) as k4s eqn:Ek4s.
  remember (add (add (pmul G k3) (pmul G k1)) (pmul G k2)) as genB eqn:EgenB.
  remember (pmul genB (bytesToNumberBE k4s)) as AB eqn:EAB.
  intros Hnew Hr1 Hr2 Hset HzB H13.
  apply newJPake_ok in Hnew. destruct Hnew as [HuA ->].
  apply round1_ok in Hr1. cbv zeta in Hr1. rewrite <- Ek1, <- Ek2 in Hr1.
  destruct Hr1 as (_ & -> & HP1 & HP2 & _).
  apply round2_ok in Hr2.
  destruct Hr2 as (bG1 & bG2 & bz1 & bz2 & sb & x2v & G1v & P3 & P4 & _ & Hmk
                   & Hsb & HuB & Hx2v & HG1v & Hf3 & Hf4 & Hs & Hid & _ & Hrest).
  cbv zeta in Hrest.
  cbn [x2 G1 userId otherInfo set_state set_G2 set_G1 set_x2 set_x1]
    in Hx2v, HG1v, Hid, Hrest.
  injection Hmk as <- <- <- <-. injection Hsb as <-.
  injection Hx2v as <-. injection HG1v as <-.
  rewrite fromHex_toBytes in Hf3, Hf4
    by (apply pmul_not_ZERO; [apply BASE_not_ZERO|rewrite Z.mod_small; lia]).
  injection Hf3 as <-. injection Hf4 as <-.
  rewrite <- Ek2, <- Esv in Hrest.
  destruct Hrest as (Hgen & HA & Hk & z & Hz & -> & ->).
  apply setRound2ResultFromBob_ok in Hset.
  destruct Hset as (bA & bz & p & _ & Hmk & Hf & ->).
  injection Hmk as <- <-.
  pose proof (generateSchnorrProof_inv _ _ _ _ _ _ _ HzB) as (HvB & HAB & _).
  rewrite fromHex_toBytes in Hf by exact HAB. injection Hf as <-.
  rewrite <- Esv in Hs.
  assert ((k2 * sv) mod n <> 0) as Hx2s.
  { apply mul_mod_nonzero; [rewrite Z.mod_small; lia|exact Hs]. }
  assert ((k4 * sv) mod n <> 0) as Hx4s.
  { apply mul_mod_nonzero; [rewrite Z.mod_small; lia|exact Hs]. }
  pose proof (Z.mod_pos_bound (k2 * sv) n) as Hb2.
  pose proof (Z.mod_pos_bound (k4 * sv) n) as Hb4.
  assert (pmul (subtract AB (pmul (pmul G k4) ((k2 * sv) mod n))) k2
          = pmul G ((k1 + k3) * k2 * k4 * sv)) as HKa.
  { rewrite EAB, EgenB, Ek4s. rewrite scalar_bytes by lia. apply shared_point. }
  erewrite deriveSharedKey_run with (Bp := AB) (P1 := pmul G k1)
    (P2 := pmul G k2) (P3 := pmul G k3) (P4 := pmul G k4)
    (x2v := randomPrivateKey a2)
    (x2sv := numberToBytesBE ((k2 * sv) mod n) 32) (z := zB) (u := uB);
    try reflexivity; try assumption.
  - cbn [fst]. rewrite <- Ek2. rewrite scalar_bytes by lia. now rewrite HKa.
  - cbn [otherInfo set_state set_ZKPx2sBob set_B set_x2s set_G4 set_G3
         set_bobUserId set_G2 set_G1 set_x2 set_x1].
    rewrite <- HvB. f_equal. rewrite EgenB.
    now rewrite (add_comm (pmul G k1)).
  - rewrite <- Ek2. lia.
  - rewrite <- Ek2. rewrite scalar_bytes by lia. rewrite HKa.
    apply pmul_not_ZERO; [apply BASE_not_ZERO|].
    repeat apply mul_mod_nonzero; try assumption; rewrite Z.mod_small; lia.
Qed.

(** The round-2 message of a party that ran [round1] and then [round2] on
    the peer's round-1 message. *)
Lemma round2_message (uA uB : string) (oi : option (list string)) (s : bytes)
    (a1 a2 av1 av2 av3 b1 b2 : Z) (alice0 alice1 alice2 : JPake)
    (aliceRound1 : Round1Result.t) (aliceRound2 : Round2Result.t)
    (zb1 zb2 : bytes) :
  let k1 := bytesToNumberBE (randomPrivateKey a1) in
  let k2 := bytesToNumberBE (randomPrivateKey a2) in
  let k3 := bytesToNumberBE (randomPrivateKey b1) in
  let k4 := bytesToNumberBE (randomPrivateKey b2) in
  let k2s := numberToBytesBE ((k2 * bytesToNumberBE s) mod n) 32 in
  let genA := add (add (pmul G k1) (pmul G k3)) (pmul G k4) in
  let AA := pmul genA (bytesToNumberBE k2s) in
  newJPake uA oi = Ok alice0 ->
  round1 a1 a2 av1 av2 alice0 = (Ok aliceRound1, alice1) ->
  round2 (Round1Result.mk (Some (toBytes (pmul G k3)))
            (Some (toBytes (pmul G k4))) (Some zb1) (Some zb2))
    (Some s) uB av3 alice1 = (Ok aliceRound2, alice2) ->
  exists z1 z2 zA,
    aliceRound1 = Round1Result.mk (Some (toBytes (pmul G k1)))
                    (Some (toBytes (pmul G k2))) (Some z1) (Some z2) /\
    aliceRound2 = Round2Result.mk (Some (toBytes AA)) (Some zA) /\
    generateSchnorrProof uA k2s AA genA oi av3 = Ok zA.
Proof.
  cbv zeta.
  pose proof n_gt_1 as Hn.
  pose proof (randomPrivateKey_range b1) as Hx3.
  pose proof (randomPrivateKey_range b2) as Hx4.
  remember (bytesToNumberBE (randomPrivateKey a1)) as k1 eqn:Ek1.
  remember (bytesToNumberBE (randomPrivateKey a2)) as k2 eqn:Ek2.
  remember (bytesToNumberBE (randomPrivateKey b1)) as k3 eqn:Ek3.
  remember (bytesToNumberBE (randomPrivateKey b2)) as k4 eqn:Ek4.
  remember (bytesToNumberBE s) as sv eqn:Esv.
  intros Hnew Hr1 Hr2.
  apply newJPake_ok in Hnew. destruct Hnew as [HuA ->].
  apply round1_ok in Hr1. cbv zeta in Hr1. rewrite <- Ek1, <- Ek2 in Hr1.
  destruct Hr1 as (_ & -> & _ & _ & z1 & z2 & _ & _ & ->).
  apply round2_ok in Hr2.
  destruct Hr2 as (bG1 & bG2 & bz1 & bz2 & sb & x2v & G1v & P3 & P4 & _ & Hmk
                   & Hsb & _ & Hx2v & HG1v & Hf3 & Hf4 & _ & _ & _ & Hrest).
  cbv zeta in Hrest.
  cbn [x2 G1 userId otherInfo set_state set_G2 set_G1 set_x2 set_x1]
    in Hx2v, HG1v, Hrest.
  injection Hmk as <- <- <- <-. injection Hsb as <-.
  injection Hx2v as <-. injection HG1v as <-.
  rewrite fromHex_toBytes in Hf3, Hf4
    by (apply pmul_not_ZERO; [apply BASE_not_ZERO|rewrite Z.mod_small; lia]).
  injection Hf3 as <-. injection Hf4 as <-.
  rewrite <- Ek2, <- Esv in Hrest.
  destruct Hrest as (_ & _ & _ & zA & Hz & -> & _).
  exists z1, z2, zA. split; [reflexivity|split; [reflexivity|exact Hz]].
Qed.

(** C1 (amended).  Two objects are built with userIds [userIdA], [userIdB]
    and the same [otherInfo]; each runs [round1]; each runs [round2] with
    the same [s] on the other's round-1 message; each passes the other's
    round-2 message to [setRound2ResultFromBob].  If all six calls return
    (which requires distinct nonempty userIds and [s mod n <> 0]) and the sum
    [x1 + x3] of the two first ephemeral scalars is not 0 modulo [n], then
    both [deriveSharedKey] calls return, and return the same 32 bytes. *)
Theorem key_agreement (userIdA userIdB : string)
    (otherInfo : option (list string)) (s : bytes)
    (a1 a2 av1 av2 av3 b1 b2 bv1 bv2 bv3 : Z)
    (alice0 alice1 alice2 alice3 bob0 bob1 bob2 bob3 : JPake)
    (aliceRound1 bobRound1 : Round1Result.t)
    (aliceRound2 bobRound2 : Round2Result.t) :
  newJPake userIdA otherInfo = Ok alice0 ->
  newJPake userIdB otherInfo = Ok bob0 ->
  round1 a1 a2 av1 av2 alice0 = (Ok aliceRound1, alice1) ->
  round1 b1 b2 bv1 bv2 bob0 = (Ok bobRound1, bob1) ->
  round2 bobRound1 (Some s) userIdB av3 alice1 = (Ok aliceRound2, alice2) ->
  round2 aliceRound1 (Some s) userIdA bv3 bob1 = (Ok bobRound2, bob2) ->
  setRound2ResultFromBob bobRound2 alice2 = (Ok tt, alice3) ->
  setRound2ResultFromBob aliceRound2 bob2 = (Ok tt, bob3) ->
  (bytesToNumberBE (randomPrivateKey a1) +
   bytesToNumberBE (randomPrivateKey b1)) mod n <> 0 ->
  exists key,
    fst (deriveSharedKey alice3) = Ok key /\
    fst (deriveSharedKey bob3) = Ok key /\
    List.length key = 32%nat.
Proof.
  intros HnA HnB H1A H1B H2A H2B HsA HsB H13.
  assert (exists z1 z2, bobRound1 =
            Round1Result.mk
              (Some (toBytes (pmul G (bytesToNumberBE (randomPrivateKey b1)))))
              (Some (toBytes (pmul G (bytesToNumberBE (randomPrivateKey b2)))))
              (Some z1) (Some z2)) as (zb1 & zb2 & EB1).
  { pose proof H1B as H. apply round1_ok in H. cbv zeta in H.
    destruct H as (_ & _ & _ & _ & z1 & z2 & _ & _ & ->). now exists z1, z2. }
  subst bobRound1.
  destruct (round2_message _ _ _ _ _ _ _ _ _ _ _ _ _ _ _ _ _ _ HnA H1A H2A)
    as (za1 & za2 & zA & EA1 & EA2 & HzA).
  subst aliceRound1.
  destruct (round2_message _ _ _ _ _ _ _ _ _ _ _ _ _ _ _ _ _ _ HnB H1B H2B)
    as (_ & _ & zB & _ & EB2 & HzB).
  subst aliceRound2 bobRound2.
  pose proof (party_key _ _ _ _ _ _ _ _ _ _ _ _ _ _ _ _ _ _ _ _ _
                HnA H1A H2A HsA HzB H13) as HkA.
  rewrite Z.add_comm in H13.
  pose proof (party_key _ _ _ _ _ _ _ _ _ _ _ _ _ _ _ _ _ _ _ _ _
                HnB H1B H2B HsB HzA H13) as HkB.
  eexists. split; [exact HkA|split; [|apply sha3_256_length]].
  rewrite HkB. do 4 f_equal.
  generalize (bytesToNumberBE (randomPrivateKey a1))
    (bytesToNumberBE (randomPrivateKey a2))
    (bytesToNumberBE (randomPrivateKey b1))
    (bytesToNumberBE (randomPrivateKey b2)) (bytesToNumberBE s).
  intros k1 k2 k3 k4 sv. ring.
Qed.

End KeyAgreement.

(** * Password to scalar *)

Section PasswordScalar.

Context {noble : Noble}.

Local Open Scope string_scope.
Local Open Scope Z_scope.

Lemma retryLoop_nonzero (fuel : nat) (password : string) (s : Z) :
  s <> 0 -> retryLoop fuel password s = Some s.
Proof.
  intros H. apply Z.eqb_neq in H. destruct fuel; cbn [retryLoop]; now rewrite H.
Qed.

(** When the hash of [password + 'retried'] is 0 modulo [n] the loop hashes
    the same string again at every iteration and is never left. *)
Lemma retryLoop_stuck (fuel : nat) (password : string) :
  hashToScalar (password ++ "retried") = 0 ->
  retryLoop fuel password 0 = None.
Proof.
  intros H. induction fuel as [|fuel IH]; cbn [retryLoop Z.eqb]; [reflexivity|].
  now rewrite H.
Qed.

Lemma hashToScalar_range (text : string) : 0 <= hashToScalar text < n.
Proof. apply mod_n_range. Qed.

(** [deriveSFromPassword] when the loop is left.  The empty password throws
    "Missing password".  For a
    nonempty password whose hash, or whose hash after appending 'retried',
    is not 0 modulo [n], the call returns, the value returned does not depend
    on anything but the password (one iteration of the loop is enough), it
    is 32 bytes long and encodes an integer of [1, n). *)
Theorem deriveSFromPassword_scalar (password : string) :
  (forall fuel,
     deriveSFromPassword fuel "" =
     Some (Throw (InvalidArgumentError "Missing password"))) /\
  (password <> "" ->
   hashToScalar password <> 0 \/ hashToScalar (password ++ "retried") <> 0 ->
   exists s,
     (forall fuel, (1 <= fuel)%nat ->
        deriveSFromPassword fuel password = Some (Ok s)) /\
     List.length s = 32%nat /\
     1 <= bytesToNumberBE s < n).
Proof.
  split; [reflexivity|].
  intros Hp Hh. apply String.eqb_neq in Hp.
  unfold deriveSFromPassword. rewrite Hp.
  destruct (Z.eq_dec (hashToScalar password) 0) as [H0|H0].
  - destruct Hh as [Hh|Hh]; [contradiction|].
    exists (numberToBytesBE (hashToScalar (password ++ "retried")) 32).
    pose proof (hashToScalar_range (password ++ "retried")) as Hr.
    split; [|split; [apply numberToBytesBE_length|]].
    + intros [|fuel] Hf; [lia|]. rewrite H0. cbn [retryLoop Z.eqb].
      now rewrite retryLoop_nonzero.
    + rewrite scalar_bytes by exact Hr. lia.
  - exists (numberToBytesBE (hashToScalar password) 32).
    pose proof (hashToScalar_range password) as Hr.
    split; [|split; [apply numberToBytesBE_length|]].
    + intros fuel _. now rewrite retryLoop_nonzero.
    + rewrite scalar_bytes by exact Hr. lia.
Qed.

End PasswordScalar.

(** * Concrete runs on the small instance *)

Module Demo.

#[local] Existing Instance Tiny.tiny.

Local Open Scope string_scope.
Local Open Scope Z_scope.

Definition fresh (userId : string) : @JPake Tiny.tiny :=
  mkJPake userId None INITIAL None None None None None None None None None None.

Definition message1 (r : result Round1Result.t) : Round1Result.t :=
  match r with
  | Ok m => m
  | Throw _ => Round1Result.mk None None None None
  end.

Definition message2 (r : result Round2Result.t) : Round2Result.t :=
  match r with
  | Ok m => m
  | Throw _ => Round2Result.mk None None
  end.

(** The scalar of the password used by the tests. *)
Definition s : bytes :=
  match deriveSFromPassword (noble := Tiny.tiny) 1 "secretPassword123" with
  | Some (Ok b) => b
  | _ => []
  end.

(** An exchange between "Alice" and a peer: the random draws of each side,
    in the order [x1, x2], the two round-1 proofs, the round-2 proof. *)
Record exchange : Type := mkExchange {
  alice1 : @JPake Tiny.tiny;
  bob1 : @JPake Tiny.tiny;
  aliceRound1 : Round1Result.t;
  bobRound1 : Round1Result.t;
  alice2 : @JPake Tiny.tiny;
  bob2 : @JPake Tiny.tiny;
  aliceRound2 : Round2Result.t;
  bobRound2 : Round2Result.t;
  alice3 : @JPake Tiny.tiny;
  bob3 : @JPake Tiny.tiny
}.

Definition play (a1 a2 av1 av2 av3 b1 b2 bv1 bv2 bv3 : Z) : exchange :=
  let ra1 := round1 a1 a2 av1 av2 (fresh "Alice") in
  let rb1 := round1 b1 b2 bv1 bv2 (fresh "Bob") in
  let ra2 := round2 (message1 (fst rb1)) (Some s) "Bob" av3 (snd ra1) in
  let rb2 := round2 (message1 (fst ra1)) (Some s) "Alice" bv3 (snd rb1) in
  let ra3 := setRound2ResultFromBob (message2 (fst rb2)) (snd ra2) in
  let rb3 := setRound2ResultFromBob (message2 (fst ra2)) (snd rb2) in
  mkExchange (snd ra1) (snd rb1) (message1 (fst ra1)) (message1 (fst rb1))
    (snd ra2) (snd rb2) (message2 (fst ra2)) (message2 (fst rb2))
    (snd ra3) (snd rb3).

(** [x1 = 1, x2 = 2] for Alice and [x3 = 3, x4 = 4] for Bob. *)
Definition honest : exchange := Eval vm_compute in play 0 1 1 2 0 2 3 2 2 1.

(** [x1 = 1] for Alice and [x3 = 6] for Bob, so that [x1 + x3 = n]. *)
Definition cancelling : exchange := Eval vm_compute in play 0 1 1 2 0 5 1 0 0 2.

(** [x1 = 1] for Alice, [x3 = 4] and [x4 = 2] for Bob: [x1 + x3 + x4 = n]. *)
Definition bobRound1_summing_to_n : Round1Result.t :=
  Eval vm_compute in message1 (fst (round1 3 1 2 0 (fresh "Bob"))).

Definition long_userId : string :=
  string_of_list_ascii (repeat "a"%char 256).

(** Decide a closed goal by evaluation. *)
Ltac vm_refl :=
  match goal with |- _ = ?b => vm_cast_no_check (@eq_refl _ b) end.
Ltac run_it :=
  first [vm_refl | vm_compute; first [discriminate | lia | reflexivity]].

(** The honest exchange: all six calls return and both keys are equal. *)
Lemma key_agreement_witness :
  exists key,
    fst (deriveSharedKey (alice3 honest)) = Ok key /\
    fst (deriveSharedKey (bob3 honest)) = Ok key /\
    List.length key = 32%nat.
Proof.
  apply (key_agreement (noble := Tiny.tiny) "Alice" "Bob" None s
           0 1 1 2 0 2 3 2 2 1
           (fresh "Alice") (alice1 honest) (alice2 honest) (alice3 honest)
           (fresh "Bob") (bob1 honest) (bob2 honest) (bob3 honest)
           (aliceRound1 honest) (bobRound1 honest)
           (aliceRound2 honest) (bobRound2 honest)); run_it.
Defined.

(** C1, as stated, fails: with [x1 = 1] and [x3 = 6 = n - 1] (and [x2 = 2],
    [x4 = 2], distinct userIds, [s mod n <> 0]) the rounds and the exchange
    succeed on both sides, and [deriveSharedKey] throws on both sides,
    because the shared point is the point at infinity. *)
Lemma key_agreement_counterexample :
  bytesToNumberBE s mod n <> 0 /\
  round1 0 1 1 2 (fresh "Alice")
    = (Ok (aliceRound1 cancelling), alice1 cancelling) /\
  round1 5 1 0 0 (fresh "Bob")
    = (Ok (bobRound1 cancelling), bob1 cancelling) /\
  round2 (bobRound1 cancelling) (Some s) "Bob" 0 (alice1 cancelling)
    = (Ok (aliceRound2 cancelling), alice2 cancelling) /\
  round2 (aliceRound1 cancelling) (Some s) "Alice" 2 (bob1 cancelling)
    = (Ok (bobRound2 cancelling), bob2 cancelling) /\
  setRound2ResultFromBob (bobRound2 cancelling) (alice2 cancelling)
    = (Ok tt, alice3 cancelling) /\
  setRound2ResultFromBob (aliceRound2 cancelling) (bob2 cancelling)
    = (Ok tt, bob3 cancelling) /\
  fst (deriveSharedKey (alice3 cancelling)) = Throw (Error "bad point: ZERO") /\
  fst (deriveSharedKey (bob3 cancelling)) = Throw (Error "bad point: ZERO").
Proof. repeat apply conj; run_it. Qed.

Definition field (o : option bytes) : bytes :=
  match o with
  | Some b => b
  | None => []
  end.

(** The first round-1 proof of Alice in the honest exchange. *)
Definition alice_ZKPx1 : bytes :=
  Eval vm_compute in field (Round1Result.ZKPx1 (aliceRound1 honest)).

Lemma fits_Alice : fits "Alice".
Proof. unfold fits. run_it. Qed.

(** A draw for which generation succeeds: [x = 1], [v = 2], [c = 1]. *)
Lemma generateSchnorrProof_witness :
  exists proof,
    generateSchnorrProof "Alice" (randomPrivateKey 0)
      (pmul G (bytesToNumberBE (randomPrivateKey 0))) G None 1 = Ok proof /\
    verifySchnorrProof "Alice" (pmul G (bytesToNumberBE (randomPrivateKey 0)))
      proof G None = Ok true.
Proof.
  destruct (generateSchnorrProof_complete "Alice" (randomPrivateKey 0)
              (pmul G (bytesToNumberBE (randomPrivateKey 0))) G None 1)
    as (c & Hc & _ & _ & _ & Hok & _).
  - apply randomPrivateKey_range.
  - discriminate.
  - reflexivity.
  - exact fits_Alice.
  - constructor.
  - assert (generateSchnorrChallenge "Alice"
              (pmul G (bytesToNumberBE (randomPrivateKey 0)))
              (pmul G (bytesToNumberBE (randomPrivateKey 1))) None = Ok 1)
      as E by vm_refl.
    rewrite E in Hc. injection Hc as <-.
    eexists. apply Hok; run_it.
Defined.

(** The last case on this instance, whose stand-in hash gives the challenge
    0 here: [x = 1], [g = G], [gx = g*x], "Alice" is short and [otherInfo] is
    empty; for the draw [v = 1] the call throws the library's [Error].  No
    such input is known for SHA3-256 on secp256k1. *)
Example generateSchnorrProof_zero_challenge :
  1 <= bytesToNumberBE (randomPrivateKey 0) < n /\
  G <> ZERO /\
  fits "Alice" /\
  generateSchnorrChallenge "Alice"
    (pmul G (bytesToNumberBE (randomPrivateKey 0)))
    (pmul G (bytesToNumberBE (randomPrivateKey 0))) None = Ok 0 /\
  generateSchnorrProof "Alice" (randomPrivateKey 0)
    (pmul G (bytesToNumberBE (randomPrivateKey 0))) G None 0 =
  Throw (Error "invalid scalar: expected 0 < scalar < curve.n").
Proof.
  repeat apply conj; try exact fits_Alice; try run_it; discriminate.
Qed.

(** C6, as stated, fails: this proof is 67 bytes long, has the prefixes 33
    and 32 and its [V] decodes, yet for a [peerUserId] of 256 bytes the call
    throws an [InvalidArgumentError] instead of returning a boolean. *)
Lemma verifySchnorrProof_counterexample :
  List.length alice_ZKPx1 = 67%nat /\
  byteAt alice_ZKPx1 0 = Some 33 /\
  byteAt alice_ZKPx1 34 = Some 32 /\
  fromHex (proofV alice_ZKPx1) = Some Tiny.P2 /\
  verifySchnorrProof long_userId (pmul G 1) alice_ZKPx1 G None =
  Throw (InvalidArgumentError
    "userId is too long. It must be 255 bytes or less when UTF-8 encoded.").
Proof. repeat apply conj; run_it. Qed.

(** The branches of [verifySchnorrProof] on concrete proofs. *)
Example verifySchnorrProof_examples :
  verifySchnorrProof "Alice" (pmul G 1) alice_ZKPx1 G None = Ok true /\
  verifySchnorrProof "Bob" (pmul G 1) alice_ZKPx1 G None = Ok false /\
  verifySchnorrProof "Alice" (pmul G 1) (removelast alice_ZKPx1) G None =
  Throw (VerificationError "Invalid proof, must be 33 + 32 + 2 bytes long") /\
  verifySchnorrProof "Alice" (pmul G 1) (x20 :: tl alice_ZKPx1) G None =
  Throw (VerificationError
    "Invalid proof, V must be 33 bytes and r must be 32 bytes") /\
  verifySchnorrProof "Alice" (pmul G 1)
    (firstn 12 alice_ZKPx1 ++ x01 :: skipn 13 alice_ZKPx1)%list G None
  = Ok false.
Proof. repeat apply conj; run_it. Qed.

(** A password for which the call returns. *)
Lemma deriveSFromPassword_witness :
  exists s,
    (forall fuel, (1 <= fuel)%nat ->
       deriveSFromPassword fuel "secretPassword123" = Some (Ok s)) /\
    List.length s = 32%nat /\ 1 <= bytesToNumberBE s < n.
Proof.
  apply (proj2 (deriveSFromPassword_scalar "secretPassword123")).
  - discriminate.
  - left. run_it.
Defined.

(** The other case on this instance, whose stand-in hash sends both "a" and
    "aretried" to 0 modulo [n]: every iteration hashes the same string, and
    no number of iterations lets the call return.  No such password is known
    for SHA3-256 and the order of secp256k1. *)
Example deriveSFromPassword_loop_on_instance :
  "a" <> "" /\
  ~ (exists fuel outcome, deriveSFromPassword fuel "a" = Some outcome).
Proof.
  split; [discriminate|]. intros (fuel & outcome & H).
  unfold deriveSFromPassword in H. cbn [String.eqb Ascii.eqb] in H.
  assert (hashToScalar "a" = 0) as E0 by run_it.
  assert (hashToScalar ("a" ++ "retried") = 0) as E1 by run_it.
  rewrite E0, (retryLoop_stuck fuel "a" E1) in H. discriminate H.
Qed.

End Demo.

Module DemoSessions.

Import Demo.

#[local] Existing Instance Tiny.tiny.

Local Open Scope string_scope.
Local Open Scope Z_scope.

Definition nothing : Round1Result.t := Round1Result.mk None None None None.

(** C4, as stated, fails.  On a new object [round2] throws (wrong state) and
    the next call, [round1], returns.  Likewise, after [round1], a [round2]
    with missing arguments throws an [InvalidArgumentError] and the next
    [round2], with the peer's message, returns. *)
Lemma errors_are_not_fatal :
  round2 nothing None "" 0 (fresh "Alice") =
  (Throw (InvalidStateError "Round 2 can only be executed after Round 1"),
   fresh "Alice") /\
  round1 0 1 1 2 (fresh "Alice") = (Ok (aliceRound1 honest), alice1 honest) /\
  round2 nothing None "" 0 (alice1 honest) =
  (Throw (InvalidArgumentError "Missing required arguments for round 2"),
   alice1 honest) /\
  round2 (bobRound1 honest) (Some s) "Bob" 0 (alice1 honest) =
  (Ok (aliceRound2 honest), alice2 honest).
Proof. repeat apply conj; run_it. Qed.

Lemma error_keeps_state_witness :
  state (snd (run (Round2 nothing None "" 0) (alice1 honest))) =
  state (alice1 honest) /\
  (forall c' : call,
     source_state c' <> state (alice1 honest) ->
     exists msg,
       run c' (snd (run (Round2 nothing None "" 0) (alice1 honest))) =
       (Throw (InvalidStateError msg),
        snd (run (Round2 nothing None "" 0) (alice1 honest)))) /\
  (forall (c' : call) (msg : string),
     source_state c' = state (alice1 honest) ->
     fst (run c' (snd (run (Round2 nothing None "" 0) (alice1 honest)))) <>
     Throw (InvalidStateError msg)).
Proof.
  apply (error_keeps_state (Round2 nothing None "" 0) (alice1 honest)
           (InvalidArgumentError "Missing required arguments for round 2")).
  run_it.
Defined.

(** Alice receives her own round-1 message under her own userId. *)
Lemma round2_verification_failure_witness :
  state (snd (round2 (aliceRound1 honest) (Some s) "Alice" 0 (alice1 honest)))
  = ROUND1FINISHED /\
  bobUserId (snd (round2 (aliceRound1 honest) (Some s) "Alice" 0
                    (alice1 honest))) = Some "Alice" /\
  forall r1' s' u' entropy' msg',
    fst (round2 r1' s' u' entropy'
           (snd (round2 (aliceRound1 honest) (Some s) "Alice" 0
                   (alice1 honest))))
    <> Throw (InvalidStateError msg').
Proof.
  apply (round2_verification_failure (aliceRound1 honest) (Some s) "Alice" 0
           (alice1 honest) "Proof verification failed, userIds are equal.");
    run_it.
Defined.

(** A proof made by "Eve" does not verify under the userId "Bob"; after the
    failure the same object completes [round2] with Bob's message. *)
Example round2_after_failed_verification :
  fst (round2 (message1 (fst (round1 0 1 1 2 (fresh "Eve")))) (Some s) "Bob" 0
         (alice1 honest)) =
  Throw (VerificationError "ZKP verification failed") /\
  fst (round2 (bobRound1 honest) (Some s) "Bob" 0
         (snd (round2 (message1 (fst (round1 0 1 1 2 (fresh "Eve")))) (Some s)
                 "Bob" 0 (alice1 honest)))) =
  Ok (aliceRound2 honest).
Proof. repeat apply conj; run_it. Qed.

(** The fields of a round-1 message whose points sum, with Alice's [G1], to
    the point at infinity. *)
Definition sumG1 : bytes :=
  Eval vm_compute in field (Round1Result.G1 bobRound1_summing_to_n).
Definition sumG2 : bytes :=
  Eval vm_compute in field (Round1Result.G2 bobRound1_summing_to_n).
Definition sumZKPx1 : bytes :=
  Eval vm_compute in field (Round1Result.ZKPx1 bobRound1_summing_to_n).
Definition sumZKPx2 : bytes :=
  Eval vm_compute in field (Round1Result.ZKPx2 bobRound1_summing_to_n).

Lemma round2_summing_premises :
  state (alice1 honest) = ROUND1FINISHED /\
  x2 (alice1 honest) = Some (randomPrivateKey 1) /\
  0 < bytesToNumberBE (randomPrivateKey 1) < n /\
  G1 (alice1 honest) = Some Tiny.P1 /\
  "Bob" <> "" /\ userId (alice1 honest) <> "Bob" /\
  fromHex sumG1 = Some Tiny.P4 /\ fromHex sumG2 = Some Tiny.P2 /\
  bytesToNumberBE s mod n <> 0 /\
  verifySchnorrProof "Bob" Tiny.P4 sumZKPx1 G (otherInfo (alice1 honest)) =
  Ok true /\
  add (add Tiny.P1 Tiny.P4) Tiny.P2 = ZERO.
Proof.
  repeat apply conj; run_it.
Qed.

Lemma round2_generator_at_infinity_witness :
  fst (round2 (Round1Result.mk (Some sumG1) (Some sumG2) (Some sumZKPx1)
                 (Some sumZKPx2)) (Some s) "Bob" 0 (alice1 honest)) =
  Throw (Error "bad point: ZERO") /\
  state (snd (round2 (Round1Result.mk (Some sumG1) (Some sumG2)
                        (Some sumZKPx1) (Some sumZKPx2)) (Some s) "Bob" 0
                (alice1 honest))) = ROUND1FINISHED.
Proof.
  destruct round2_summing_premises
    as (p1 & p2 & p3 & p4 & p5 & p6 & p7 & p8 & p9 & p10 & p11).
  pose proof (round2_generator_at_infinity sumG1 sumG2 sumZKPx1 sumZKPx2 s
                "Bob" 0 (alice1 honest) (randomPrivateKey 1) Tiny.P1 Tiny.P4
                Tiny.P2 p1 p2 p3 p4 p5 p6 p7 p8 p9 p10 p11) as H.
  split; [exact (proj1 H)|exact (proj1 (proj2 H))].
Defined.

(** The same happens when the second point is chosen to cancel the sum and
    comes with no proof at all: the missing verification of [ZKPx2] lets the
    message through. *)
Example round2_cancelling_G2_without_proof :
  fromHex (toBytes Tiny.P2) = Some Tiny.P2 /\
  add (add Tiny.P1 Tiny.P4) Tiny.P2 = ZERO /\
  fst (round2 (Round1Result.mk (Some sumG1) (Some (toBytes Tiny.P2))
                 (Some sumZKPx1) (Some [])) (Some s) "Bob" 0 (alice1 honest)) =
  Throw (Error "bad point: ZERO").
Proof. repeat apply conj; run_it. Qed.

(** C2 on a concrete message: Bob's honest round-1 message with [ZKPx2]
    replaced by an empty array, which [verifySchnorrProof] rejects, is
    accepted by [round2]. *)
Example round2_accepts_invalid_ZKPx2 :
  verifySchnorrProof "Bob" (pmul G 4) [] G None =
  Throw (VerificationError "Invalid proof, must be 33 + 32 + 2 bytes long") /\
  round2 (Round1Result.mk (Round1Result.G1 (bobRound1 honest))
            (Round1Result.G2 (bobRound1 honest))
            (Round1Result.ZKPx1 (bobRound1 honest)) (Some []))
    (Some s) "Bob" 0 (alice1 honest) =
  (Ok (aliceRound2 honest), alice2 honest).
Proof. repeat apply conj; run_it. Qed.

Lemma reachable_run_all (cs : list call) (this : JPake) :
  reachable this -> reachable (run_all cs this).
Proof.
  revert this. induction cs as [|c cs IH]; intros this H; [exact H|].
  cbn [run_all]. apply IH. now apply reach_run.
Qed.

Definition alice_calls : list call :=
  [Round1 0 1 1 2; Round2 (bobRound1 honest) (Some s) "Bob" 0;
   SetRound2ResultFromBob (bobRound2 honest)].

Lemma alice3_reachable : reachable (alice3 honest).
Proof.
  assert (alice3 honest = run_all alice_calls (fresh "Alice")) as -> by run_it.
  apply reachable_run_all. now apply (reach_new "Alice" None).
Qed.

Lemma B_infinity_branch_unreachable_witness :
  (state (alice3 honest) = ROUND2RESULTSRECEIVED ->
   exists b p, fromHex b = Some p /\ B (alice3 honest) = Some p /\ p <> ZERO) /\
  fst (deriveSharedKey (alice3 honest)) <>
  Throw (VerificationError "Invalid point: B is the point at infinity").
Proof.
  exact (B_infinity_branch_unreachable (alice3 honest) alice3_reachable).
Defined.

End DemoSessions.

(** * Further properties of the sources *)

(** ** [src/schnorr.mts] *)

Section SchnorrOutcomes.

Context {noble : Noble}.

Local Open Scope string_scope.
Local Open Scope Z_scope.

Lemma mapM_encodeInfo_cases (l : list string) :
  match mapM encodeInfo l with
  | Ok _ => Forall fits l
  | Throw e =>
      ~ Forall fits l /\
      e = InvalidArgumentError
            "Each otherInfo string must be 255 bytes or less when UTF-8 encoded."
  end.
Proof.
  induction l as [|info l IH]; [constructor|].
  cbn [mapM]. unfold encodeInfo at 1. cbv zeta.
  destruct (255 <? len (utf8 info)) eqn:E.
  - rewrite rbind_Throw. split; [|reflexivity].
    intros HF. inversion HF as [|? ? Hfit _]. unfold fits in Hfit.
    apply Z.ltb_lt in E. lia.
  - rewrite rbind_Ok. apply Z.ltb_ge in E.
    destruct (mapM encodeInfo l) as [bs|e].
    + rewrite rbind_Ok. constructor; [exact E|exact IH].
    + rewrite rbind_Throw. destruct IH as [Hn ->]. split; [|reflexivity].
      intros HF. inversion HF. contradiction.
Qed.

Lemma generateSchnorrChallenge_cases (userId : string)
    (gx gr : ProjectivePoint) (otherInfo : option (list string)) :
  match generateSchnorrChallenge userId gx gr otherInfo with
  | Ok c =>
      0 <= c < n /\ gx <> ZERO /\ gr <> ZERO /\ fits userId /\
      Forall fits (otherInfo_or_default otherInfo)
  | Throw e =>
      ((gx = ZERO \/ gr = ZERO) /\ e = Error "bad point: ZERO") \/
      (gx <> ZERO /\ gr <> ZERO /\ ~ fits userId /\
       e = InvalidArgumentError
             "userId is too long. It must be 255 bytes or less when UTF-8 encoded.") \/
      (gx <> ZERO /\ gr <> ZERO /\ fits userId /\
       ~ Forall fits (otherInfo_or_default otherInfo) /\
       e = InvalidArgumentError
             "Each otherInfo string must be 255 bytes or less when UTF-8 encoded.")
  end.
Proof.
  unfold generateSchnorrChallenge. cbv zeta.
  destruct (toRawBytes gx) as [gxb|e1] eqn:E1.
  2:{ rewrite rbind_Throw. apply toRawBytes_throws in E1.
      destruct E1 as [-> ->]. left. split; [now left|reflexivity]. }
  rewrite rbind_Ok.
  destruct (toRawBytes gr) as [grb|e2] eqn:E2.
  2:{ rewrite rbind_Throw. apply toRawBytes_throws in E2.
      destruct E2 as [-> ->]. left. split; [now right|reflexivity]. }
  rewrite rbind_Ok.
  apply toRawBytes_inv in E1, E2. destruct E1 as [H1 ->], E2 as [H2 ->].
  destruct (255 <? len (utf8 userId)) eqn:Eu.
  { apply Z.ltb_lt in Eu. right. left. repeat apply conj; try assumption;
      [unfold fits; lia|reflexivity]. }
  apply Z.ltb_ge in Eu.
  unfold len at 1 2. rewrite !toBytes_length by assumption.
  change (255 <? Z.of_nat 33) with false. cbv iota.
  rewrite !rbind_Ok.
  pose proof (mapM_encodeInfo_cases (otherInfo_or_default otherInfo)) as Hm.
  destruct (mapM encodeInfo (otherInfo_or_default otherInfo)) as [infos|e].
  - rewrite rbind_Ok. repeat apply conj; try assumption; apply mod_n_range.
  - rewrite rbind_Throw. destruct Hm as [Hn ->]. right. right.
    repeat apply conj; try assumption; reflexivity.
Qed.

(** Every outcome of [generateSchnorrChallenge].  The two points are
    serialised before anything is tested, so a point at infinity gives the
    library's error whatever the strings are; then comes the length of
    [userId], then that of each [otherInfo] string.  The tests on the lengths
    of the serialised points never fire.  A returned challenge lies in
    [0, n). *)
Theorem generateSchnorrChallenge_outcome (userId : string)
    (gx gr : ProjectivePoint) (otherInfo : option (list string)) :
  match generateSchnorrChallenge userId gx gr otherInfo with
  | Ok c =>
      0 <= c < n /\ gx <> ZERO /\ gr <> ZERO /\ fits userId /\
      Forall fits (otherInfo_or_default otherInfo)
  | Throw e =>
      ((gx = ZERO \/ gr = ZERO) /\ e = Error "bad point: ZERO") \/
      (gx <> ZERO /\ gr <> ZERO /\ ~ fits userId /\
       e = InvalidArgumentError
             "userId is too long. It must be 255 bytes or less when UTF-8 encoded.") \/
      (gx <> ZERO /\ gr <> ZERO /\ fits userId /\
       ~ Forall fits (otherInfo_or_default otherInfo) /\
       e = InvalidArgumentError
             "Each otherInfo string must be 255 bytes or less when UTF-8 encoded.")
  end.
Proof. apply generateSchnorrChallenge_cases. Qed.

Lemma pmul_negate_point (p : ProjectivePoint) (k : Z) :
  pmul (negate p) k = negate (pmul p k).
Proof.
  apply negate_unique. rewrite <- pmul_add_points, add_negate. apply pmul_ZERO.
Qed.

(** The algebra behind the self-check: the verification equation, for the
    response [(v - x*c) mod n] and a challenge that is not a multiple of [n],
    holds for one public key only. *)
Lemma schnorr_equation_key (g gx : ProjectivePoint) (x v c : Z) :
  0 < c < n ->
  pmul g v = add (pmul g ((v - x * c) mod n)) (pmul gx c) ->
  gx = pmul g x.
Proof.
  intros Hc H.
  rewrite pmul_mod in H.
  replace (v - x * c) with (v + - (x * c)) in H by lia.
  rewrite pmul_add, pmul_opp in H.
  rewrite <- add_assoc in H.
  rewrite <- (add_ZERO (pmul g v)) in H at 1.
  apply add_cancel_l in H.
  assert (pmul (add gx (negate (pmul g x))) c = ZERO) as HD.
  { rewrite pmul_add_points, pmul_negate_point, pmul_mul.
    rewrite (add_comm (pmul gx c)). now rewrite <- H. }
  destruct (equals (add gx (negate (pmul g x))) ZERO) eqn:E.
  - apply equals_spec in E. apply negate_unique in E.
    rewrite <- (negate_negate gx), <- E. now rewrite negate_negate.
  - apply equals_false in E. apply (pmul_eq_ZERO _ _ E) in HD.
    apply Z.divide_pos_le in HD; lia.
Qed.

Lemma generateSchnorrProof_returned (u : string) (x : bytes)
    (gx g : ProjectivePoint) (oi : option (list string)) (entropy : Z)
    (proof : bytes) :
  generateSchnorrProof u x gx g oi entropy = Ok proof ->
  exists c,
    generateSchnorrChallenge u gx
      (pmul g (bytesToNumberBE (randomPrivateKey entropy))) oi = Ok c /\
    0 < c < n /\
    0 < (bytesToNumberBE (randomPrivateKey entropy) - bytesToNumberBE x * c)
        mod n < n /\
    proof =
    serialize (toBytes (pmul g (bytesToNumberBE (randomPrivateKey entropy))))
      (numberToBytesBE
         ((bytesToNumberBE (randomPrivateKey entropy) - bytesToNumberBE x * c)
          mod n) 32) /\
    pmul g (bytesToNumberBE (randomPrivateKey entropy)) =
    add (pmul g ((bytesToNumberBE (randomPrivateKey entropy) -
                  bytesToNumberBE x * c) mod n)) (pmul gx c) /\
    verifySchnorrProof u gx proof g oi = Ok true.
Proof.
  pose proof n_gt_1 as Hn.
  remember (bytesToNumberBE (randomPrivateKey entropy)) as v eqn:Ev.
  remember (bytesToNumberBE x) as xv eqn:Exv.
  destruct (generateSchnorrChallenge u gx (pmul g v) oi) as [c|e] eqn:Ec.
  2:{ rewrite generateSchnorrProof_unfold. cbv zeta. rewrite <- Ev, Ec.
      rewrite rbind_Throw. discriminate. }
  rewrite (generateSchnorrProof_with_challenge u x gx g oi entropy c)
    by (rewrite <- Ev; exact Ec).
  rewrite <- Ev, <- Exv.
  pose proof (generateSchnorrChallenge_inv _ _ _ _ _ Ec) as (Hgx & HV & Hc).
  assert (0 < n) as Hn0 by lia.
  pose proof (Z.mod_pos_bound (v - xv * c) n Hn0) as Hr.
  remember ((v - xv * c) mod n) as r eqn:Er.
  remember (serialize (toBytes (pmul g v)) (numberToBytesBE r 32)) as pf eqn:Epf.
  destruct (verifySchnorrProof u gx pf g oi) as [[|]|e] eqn:Everify.
  - rewrite rbind_Ok. cbn [negb]. intros H. injection H as <-.
    pose proof Everify as Hverified.
    rewrite Epf in Everify.
    rewrite verifySchnorrProof_serialized in Everify by assumption.
    rewrite Ec, rbind_Ok in Everify.
    destruct (multiply g r) as [gr|e] eqn:Egr;
      [|rewrite rbind_Throw in Everify; discriminate].
    rewrite rbind_Ok in Everify.
    destruct (multiply gx c) as [gxc|e] eqn:Egxc;
      [|rewrite rbind_Throw in Everify; discriminate].
    rewrite rbind_Ok in Everify.
    apply multiply_inv in Egr, Egxc.
    destruct Egr as [Hr' ->], Egxc as [Hc' ->].
    injection Everify as Haff. apply affine_test in Haff.
    exists c. rewrite <- Er.
    repeat apply conj; try assumption; try reflexivity; lia.
  - rewrite rbind_Ok. cbn [negb]. discriminate.
  - rewrite rbind_Throw. discriminate.
Qed.

(** Whatever [generateSchnorrProof] returns has passed its own check: the
    proof is 67 bytes long, carries [V = g*v] for the drawn [v] and a
    response in (0, n), and [verifySchnorrProof] returns [true] on it for
    the same arguments. *)
Theorem generateSchnorrProof_returns_verified (userId : string) (x : bytes)
    (gx g : ProjectivePoint) (otherInfo : option (list string)) (entropy : Z)
    (proof : bytes) :
  generateSchnorrProof userId x gx g otherInfo entropy = Ok proof ->
  List.length proof = 67%nat /\
  proofV proof = toBytes (pmul g (bytesToNumberBE (randomPrivateKey entropy))) /\
  0 < proofR proof < n /\
  verifySchnorrProof userId gx proof g otherInfo = Ok true.
Proof.
  intros H. apply generateSchnorrProof_returned in H.
  destruct H as (c & Ec & Hc & Hr & -> & Heq & Hv).
  apply generateSchnorrChallenge_inv in Ec. destruct Ec as (_ & HV & _).
  destruct (serialize_parts
              (toBytes (pmul g (bytesToNumberBE (randomPrivateKey entropy))))
              (numberToBytesBE
                 ((bytesToNumberBE (randomPrivateKey entropy) -
                   bytesToNumberBE x * c) mod n) 32))
    as (Hl & _ & _ & HpV & HpR);
    [now apply toBytes_length|apply numberToBytesBE_length|].
  repeat apply conj; try assumption.
  - rewrite HpR, scalar_bytes by lia. lia.
  - rewrite HpR, scalar_bytes by lia. lia.
Qed.

(** [generateSchnorrProof] returns a proof only for the public key that
    belongs to the private key: when [gx] is not [g*x] the call throws,
    whatever the draw. *)
Theorem generateSchnorrProof_only_for_own_key (userId : string) (x : bytes)
    (gx g : ProjectivePoint) (otherInfo : option (list string)) (entropy : Z)
    (proof : bytes) :
  generateSchnorrProof userId x gx g otherInfo entropy = Ok proof ->
  gx = pmul g (bytesToNumberBE x).
Proof.
  intros H. apply generateSchnorrProof_returned in H.
  destruct H as (c & _ & Hc & _ & _ & Heq & _).
  exact (schnorr_equation_key _ _ _ _ _ Hc Heq).
Qed.

End SchnorrOutcomes.

(** ** [src/JPake.mts] *)

Section SessionOutcomes.

Context {noble : Noble}.

Local Open Scope string_scope.
Local Open Scope Z_scope.

(** The constructor rejects the empty [userId] and nothing else; the object
    it returns is in state INITIAL, holds the two arguments, and accepts no
    method but [round1]. *)
Theorem newJPake_outcome (u : string) (oi : option (list string)) :
  match newJPake u oi with
  | Throw e => u = "" /\ e = InvalidArgumentError "UserId cannot be empty"
  | Ok this =>
      u <> "" /\ userId this = u /\ otherInfo this = oi /\
      getState this = INITIAL /\
      forall c : call,
        source_state c <> INITIAL ->
        exists msg, run c this = (Throw (InvalidStateError msg), this)
  end.
Proof.
  unfold newJPake. destruct (u =? "")%string eqn:E.
  - apply String.eqb_eq in E. now split.
  - apply String.eqb_neq in E.
    repeat apply conj; try reflexivity; [exact E|].
    intros c Hc. apply run_wrong_state. cbn [state]. congruence.
Qed.

Lemma generateSchnorrProof_userId_too_long (u : string) (x : bytes)
    (gx g : ProjectivePoint) (oi : option (list string)) (entropy : Z) :
  gx <> ZERO -> g <> ZERO -> ~ fits u ->
  generateSchnorrProof u x gx g oi entropy =
  Throw (InvalidArgumentError
    "userId is too long. It must be 255 bytes or less when UTF-8 encoded.").
Proof.
  intros Hgx Hg Hu. rewrite generateSchnorrProof_unfold. cbv zeta.
  pose proof (generateSchnorrChallenge_cases u gx
                (pmul g (bytesToNumberBE (randomPrivateKey entropy))) oi) as H.
  destruct (generateSchnorrChallenge u gx _ oi) as [c|e].
  - destruct H as (_ & _ & _ & Hfit & _). contradiction.
  - rewrite rbind_Throw. f_equal.
    destruct H as [[[H|H] _]|[(_ & _ & _ & ->)|(_ & _ & Hfit & _)]];
      [contradiction| |reflexivity|contradiction].
    exfalso. revert H. apply pmul_not_ZERO; [exact Hg|].
    pose proof (randomPrivateKey_range entropy).
    rewrite Z.mod_small; lia.
Qed.

(** The constructor accepts a [userId] of more than 255 UTF-8 bytes, but no
    [round1] succeeds on such an object: the first proof fails on the length
    of [userId].  The failed call leaves the state INITIAL, yet [x1], [x2],
    [G1] and [G2] have been assigned. *)
Theorem round1_userId_too_long (e1 e2 ev1 ev2 : Z) (this : JPake) :
  state this = INITIAL -> ~ fits (userId this) ->
  round1 e1 e2 ev1 ev2 this =
  (Throw (InvalidArgumentError
     "userId is too long. It must be 255 bytes or less when UTF-8 encoded."),
   set_G2 (Some (pmul G (bytesToNumberBE (randomPrivateKey e2))))
     (set_G1 (Some (pmul G (bytesToNumberBE (randomPrivateKey e1))))
        (set_x2 (Some (randomPrivateKey e2))
           (set_x1 (Some (randomPrivateKey e1)) this)))).
Proof.
  intros Hst Hu. pose proof n_gt_1 as Hn.
  pose proof (randomPrivateKey_range e1) as H1.
  pose proof (randomPrivateKey_range e2) as H2.
  unfold round1. unfold_method.
  apply state_eqb_eq in Hst. rewrite Hst. cbn [negb].
  rewrite !multiply_ok by lia.
  rewrite generateSchnorrProof_userId_too_long; [reflexivity| | |exact Hu].
  - apply pmul_not_ZERO; [apply BASE_not_ZERO|rewrite Z.mod_small; lia].
  - apply BASE_not_ZERO.
Qed.

(** What [round1] returns is what a peer accepts: both points are 33-byte
    encodings that decode to the stored [G1] and [G2], neither the point at
    infinity, and each proof verifies for its point under the sender's
    [userId] and [otherInfo] with base [G]. *)
Theorem round1_message_verifies (e1 e2 ev1 ev2 : Z) (this this' : JPake)
    (r : Round1Result.t) :
  round1 e1 e2 ev1 ev2 this = (Ok r, this') ->
  exists (P1 P2 : ProjectivePoint) (g1 g2 z1 z2 : bytes),
    r = Round1Result.mk (Some g1) (Some g2) (Some z1) (Some z2) /\
    state this' = ROUND1FINISHED /\
    G1 this' = Some P1 /\ G2 this' = Some P2 /\
    fromHex g1 = Some P1 /\ fromHex g2 = Some P2 /\
    List.length g1 = 33%nat /\ List.length g2 = 33%nat /\
    List.length z1 = 67%nat /\ List.length z2 = 67%nat /\
    verifySchnorrProof (userId this) P1 z1 G (otherInfo this) = Ok true /\
    verifySchnorrProof (userId this) P2 z2 G (otherInfo this) = Ok true.
Proof.
  intros H. apply round1_ok in H. cbv zeta in H.
  destruct H as (_ & -> & HP1 & HP2 & z1 & z2 & Hz1 & Hz2 & ->).
  apply generateSchnorrProof_returned in Hz1, Hz2.
  destruct Hz1 as (c1 & Ec1 & _ & _ & Hp1 & _ & Hv1).
  destruct Hz2 as (c2 & Ec2 & _ & _ & Hp2 & _ & Hv2).
  apply generateSchnorrChallenge_inv in Ec1, Ec2.
  destruct Ec1 as (_ & HV1 & _), Ec2 as (_ & HV2 & _).
  eexists _, _, _, _, z1, z2.
  split; [reflexivity|].
  split; [reflexivity|].
  split; [reflexivity|].
  split; [reflexivity|].
  split; [now apply fromHex_toBytes|].
  split; [now apply fromHex_toBytes|].
  split; [now apply toBytes_length|].
  split; [now apply toBytes_length|].
  split.
  { rewrite Hp1. apply serialize_parts;
      [now apply toBytes_length|apply numberToBytesBE_length]. }
  split.
  { rewrite Hp2. apply serialize_parts;
      [now apply toBytes_length|apply numberToBytesBE_length]. }
  split; assumption.
Qed.

End SessionOutcomes.

Section RoundTwoOutcomes.

Context {noble : Noble}.

Local Open Scope string_scope.
Local Open Scope Z_scope.

(** The argument checks of [round2], in the order the method makes them.
    After [round1]: a missing field, a missing [s] or an empty [bobUserId]
    gives "Missing required arguments for round 2"; then bytes that do not
    decode to a point give "Invalid points received ..."; then an [s] that is
    a multiple of [n] (the empty array and all-zero arrays included) gives
    "Invalid s ...".  In each case the object is left exactly as it was. *)
Theorem round2_argument_errors (r1 : Round1Result.t) (s : option bytes)
    (u : string) (entropy : Z) (this : JPake) (x2v : bytes)
    (P1 : ProjectivePoint) :
  state this = ROUND1FINISHED -> x2 this = Some x2v -> G1 this = Some P1 ->
  let outcome := round2 r1 s u entropy this in
  (Round1Result.G1 r1 = None \/ Round1Result.G2 r1 = None \/
   Round1Result.ZKPx1 r1 = None \/ Round1Result.ZKPx2 r1 = None \/
   s = None \/ u = "" ->
   outcome =
   (Throw (InvalidArgumentError "Missing required arguments for round 2"),
    this)) /\
  (forall g1 g2 z1 z2 sb : bytes,
     r1 = Round1Result.mk (Some g1) (Some g2) (Some z1) (Some z2) ->
     s = Some sb -> u <> "" ->
     (fromHex g1 = None \/ fromHex g2 = None ->
      outcome =
      (Throw (InvalidArgumentError
         "Invalid points received: G1 or G2 is not a valid ProjectivePoint"),
       this)) /\
     (fromHex g1 <> None -> fromHex g2 <> None ->
      bytesToNumberBE sb mod n = 0 ->
      outcome =
      (Throw (InvalidArgumentError "Invalid s: s MUST not be equal to 0 mod n"),
       this))).
Proof.
  intros Hst Hx2 HG1. cbv zeta. pose proof n_gt_1 as Hn.
  apply state_eqb_eq in Hst.
  unfold round2. unfold_method. rewrite Hst, Hx2, HG1. cbn [negb].
  split.
  - intros H.
    destruct r1 as [[g1|] [g2|] [z1|] [z2|]];
      cbn [Round1Result.G1 Round1Result.G2 Round1Result.ZKPx1
           Round1Result.ZKPx2] in *;
      try reflexivity.
    destruct s as [sb|]; [|reflexivity].
    destruct H as [H|[H|[H|[H|[H|H]]]]]; try discriminate H.
    subst u. reflexivity.
  - intros g1 g2 z1 z2 sb -> -> Hu.
    cbn [Round1Result.G1 Round1Result.G2 Round1Result.ZKPx1 Round1Result.ZKPx2].
    apply String.eqb_neq in Hu. rewrite Hu. cbn [negb].
    split.
    + intros [H|H].
      * rewrite H. reflexivity.
      * rewrite H. destruct (fromHex g1); reflexivity.
    + intros H1 H2 Hs.
      destruct (fromHex g1) as [P3|]; [|contradiction].
      destruct (fromHex g2) as [P4|]; [|contradiction].
      rewrite mod__spec by lia. rewrite Hs. reflexivity.
Qed.

(** [round2] reads [s] modulo [n] only: two byte strings with the same value
    modulo [n], of whatever lengths, give the same outcome and leave the same
    object. *)
Theorem round2_s_modulo_n (r1 : Round1Result.t) (s s' : bytes) (u : string)
    (entropy : Z) (this : JPake) :
  bytesToNumberBE s mod n = bytesToNumberBE s' mod n ->
  round2 r1 (Some s) u entropy this = round2 r1 (Some s') u entropy this.
Proof.
  intros Hs. pose proof n_gt_1 as Hn.
  unfold round2. unfold_method.
  destruct (negb (state_eqb (state this) ROUND1FINISHED)); [reflexivity|].
  destruct (Round1Result.G1 r1) as [g1|]; [|reflexivity].
  destruct (Round1Result.G2 r1) as [g2|]; [|reflexivity].
  destruct (Round1Result.ZKPx1 r1) as [z1|]; [|reflexivity].
  destruct (Round1Result.ZKPx2 r1) as [z2|]; [|reflexivity].
  destruct (negb (u =? "")%string); [|reflexivity].
  destruct (x2 this) as [x2v|]; [|reflexivity].
  destruct (G1 this) as [P1|]; [|reflexivity].
  destruct (fromHex g1) as [P3|]; [|reflexivity].
  destruct (fromHex g2) as [P4|]; [|reflexivity].
  rewrite !mod__spec by lia.
  rewrite <- (Z.mul_mod_idemp_r (bytesToNumberBE x2v) (bytesToNumberBE s))
    by lia.
  rewrite <- (Z.mul_mod_idemp_r (bytesToNumberBE x2v) (bytesToNumberBE s'))
    by lia.
  rewrite Hs. reflexivity.
Qed.

(** What [round2] returns is what the peer's [deriveSharedKey] checks: [A]
    decodes to [(G1 + G3 + G4) * x2s], where [x2s] is the scalar the call
    has stored, the generator [G1 + G3 + G4] is not the point at
    infinity, and the proof verifies for [A] with that generator under the
    sender's [userId]. *)
Theorem round2_message_verifies (r1 : Round1Result.t) (s : option bytes)
    (u : string) (entropy : Z) (this this' : JPake) (r : Round2Result.t) :
  round2 r1 s u entropy this = (Ok r, this') ->
  exists (P1 P3 P4 : ProjectivePoint) (a z x2sv : bytes),
    r = Round2Result.mk (Some a) (Some z) /\
    state this' = ROUND2FINISHED /\ bobUserId this' = Some u /\
    G1 this = Some P1 /\ G3 this' = Some P3 /\ G4 this' = Some P4 /\
    x2s this' = Some x2sv /\ 0 < bytesToNumberBE x2sv < n /\
    add (add P1 P3) P4 <> ZERO /\
    fromHex a = Some (pmul (add (add P1 P3) P4) (bytesToNumberBE x2sv)) /\
    verifySchnorrProof (userId this)
      (pmul (add (add P1 P3) P4) (bytesToNumberBE x2sv)) z
      (add (add P1 P3) P4) (otherInfo this) = Ok true.
Proof.
  intros H. apply round2_ok in H.
  destruct H as (bG1 & bG2 & bz1 & bz2 & sb & x2v & G1v & P3 & P4 & _ & _ & _
                 & _ & _ & HG1 & _ & _ & _ & _ & _ & H).
  cbv zeta in H. destruct H as (Hgen & HA & Hk & z & Hz & -> & ->).
  apply generateSchnorrProof_inv in Hz. destruct Hz as (Hv & _ & _).
  eexists G1v, P3, P4, _, z, _.
  split; [reflexivity|].
  split; [reflexivity|].
  split; [reflexivity|].
  split; [exact HG1|].
  split; [reflexivity|].
  split; [reflexivity|].
  split; [reflexivity|].
  split; [exact Hk|].
  split; [exact Hgen|].
  split; [now apply fromHex_toBytes|exact Hv].
Qed.

End RoundTwoOutcomes.

(** The case of [deriveSharedKey] in which a needed field is unset. *)
Ltac missing_field Est :=
  cbn [fst snd];
  let H := fresh "H" in
  intros H; injection H as <-;
  split; [reflexivity|];
  right; left; split; [exact Est|split; [|reflexivity]];
  repeat first [reflexivity | left; reflexivity | right].

Section LastSteps.

Context {noble : Noble}.

Local Open Scope string_scope.
Local Open Scope Z_scope.

Lemma truthy_string_Some (o : option string) (u : string) :
  truthy_string o = Some u <-> o = Some u /\ u <> "".
Proof.
  unfold truthy_string. destruct o as [w|]; [|split; [discriminate|now intros [? _]]].
  destruct (w =? "")%string eqn:E.
  - apply String.eqb_eq in E. subst w.
    split; [discriminate|]. intros [H Hu]. congruence.
  - apply String.eqb_neq in E. split.
    + intros H. injection H as ->. now split.
    + intros [H _]. exact H.
Qed.

Lemma deriveSharedKey_ok (this this' : JPake) (key : bytes) :
  deriveSharedKey this = (Ok key, this') ->
  exists (Bp P1 P2 P3 P4 : ProjectivePoint) (x2v x2sv z : bytes) (u : string),
    state this = ROUND2RESULTSRECEIVED /\
    B this = Some Bp /\ G1 this = Some P1 /\ G2 this = Some P2 /\
    G3 this = Some P3 /\ G4 this = Some P4 /\
    x2 this = Some x2v /\ x2s this = Some x2sv /\ ZKPx2sBob this = Some z /\
    bobUserId this = Some u /\ u <> "" /\ userId this <> u /\ Bp <> ZERO /\
    verifySchnorrProof u Bp z (add (add P1 P3) P2) (otherInfo this) = Ok true /\
    pmul (subtract Bp (pmul P4 (bytesToNumberBE x2sv))) (bytesToNumberBE x2v)
      <> ZERO /\
    key = sha3_256
            (toBytes
               (pmul (subtract Bp (pmul P4 (bytesToNumberBE x2sv)))
                  (bytesToNumberBE x2v))) /\
    this' = set_state KEYDERIVED this.
Proof.
  unfold deriveSharedKey. unfold_method.
  destruct (state_eqb (state this) ROUND2RESULTSRECEIVED) eqn:E; cbn [negb];
    [apply state_eqb_eq in E|discriminate].
  destruct (B this) as [Bp|]; [|discriminate].
  destruct (G1 this) as [P1|]; [|discriminate].
  destruct (G2 this) as [P2|]; [|discriminate].
  destruct (G3 this) as [P3|]; [|discriminate].
  destruct (G4 this) as [P4|]; [|discriminate].
  destruct (x2 this) as [x2v|]; [|discriminate].
  destruct (x2s this) as [x2sv|]; [|discriminate].
  destruct (ZKPx2sBob this) as [z|]; [|discriminate].
  destruct (truthy_string (bobUserId this)) as [u|] eqn:Eu; [|discriminate].
  apply truthy_string_Some in Eu. destruct Eu as [Eu Hu].
  destruct (equals Bp ZERO) eqn:EB; [discriminate|].
  apply equals_false in EB.
  destruct (userId this =? u)%string eqn:Eid; [discriminate|].
  apply String.eqb_neq in Eid.
  destruct (u =? "")%string eqn:Eu0; [discriminate|].
  destruct (verifySchnorrProof u Bp z (add (add P1 P3) P2) (otherInfo this))
    as [[|]|] eqn:Ev; cbn [negb]; try discriminate.
  destruct (multiply P4 (bytesToNumberBE x2sv)) as [Q|] eqn:EQ; [|discriminate].
  apply multiply_inv in EQ. destruct EQ as [_ ->].
  destruct (multiply _ (bytesToNumberBE x2v)) as [Ka|] eqn:EKa; [|discriminate].
  apply multiply_inv in EKa. destruct EKa as [_ ->].
  destruct (toRawBytes _) as [raw|] eqn:Eraw; [|discriminate].
  apply toRawBytes_inv in Eraw. destruct Eraw as [HKa ->].
  intros H. apply pair_equal_spec in H. destruct H as [Hk Ht].
  exists Bp, P1, P2, P3, P4, x2v, x2sv, z, u.
  repeat apply conj; try reflexivity; try assumption; congruence.
Qed.

(** A key is returned only after the peer's round-2 proof has been checked:
    when [deriveSharedKey] returns, the stored proof verifies for the stored
    [B] with generator [G1 + G3 + G2] under the peer's userId, which is not
    empty and differs from the own one; the key is the 32-byte hash of the
    encoding of [(B - G4 * x2s) * x2], and only [state] changes. *)
Theorem deriveSharedKey_returns_verified (this this' : JPake) (key : bytes) :
  deriveSharedKey this = (Ok key, this') ->
  exists (Bp P1 P2 P3 P4 : ProjectivePoint) (x2v x2sv z : bytes) (u : string),
    B this = Some Bp /\ G1 this = Some P1 /\ G2 this = Some P2 /\
    G3 this = Some P3 /\ G4 this = Some P4 /\
    x2 this = Some x2v /\ x2s this = Some x2sv /\ ZKPx2sBob this = Some z /\
    bobUserId this = Some u /\ u <> "" /\ userId this <> u /\
    verifySchnorrProof u Bp z (add (add P1 P3) P2) (otherInfo this) = Ok true /\
    key = sha3_256
            (toBytes
               (pmul (subtract Bp (pmul P4 (bytesToNumberBE x2sv)))
                  (bytesToNumberBE x2v))) /\
    List.length key = 32%nat /\
    this' = set_state KEYDERIVED this.
Proof.
  intros H. apply deriveSharedKey_ok in H.
  destruct H as (Bp & P1 & P2 & P3 & P4 & x2v & x2sv & z & u & _ & HB & H1 & H2
                 & H3 & H4 & Hx2 & Hx2s & Hz & Hu & Hu0 & Hid & _ & Hv & _
                 & -> & ->).
  exists Bp, P1, P2, P3, P4, x2v, x2sv, z, u.
  repeat apply conj; try assumption; try reflexivity.
  apply sha3_256_length.
Qed.

Lemma run_all_fixed (this : JPake) :
  (forall c, snd (run c this) = this) ->
  forall cs, run_all cs this = this.
Proof.
  intros H cs. induction cs as [|c cs IH]; [reflexivity|].
  cbn [run_all]. now rewrite H.
Qed.

(** KEYDERIVED is final: once [deriveSharedKey] has returned, every call of
    every method throws [InvalidStateError], and no sequence of calls changes
    the object; in particular the key cannot be derived a second time. *)
Theorem key_derived_is_final (this this' : JPake) (key : bytes) :
  deriveSharedKey this = (Ok key, this') ->
  (forall c : call,
     exists msg, run c this' = (Throw (InvalidStateError msg), this')) /\
  (forall cs : list call, run_all cs this' = this').
Proof.
  intros H. apply deriveSharedKey_ok in H.
  destruct H as (Bp & P1 & P2 & P3 & P4 & x2v & x2sv & z & u & _ & _ & _ & _
                 & _ & _ & _ & _ & _ & _ & _ & _ & _ & _ & _ & _ & ->).
  assert (forall c : call,
            exists msg,
              run c (set_state KEYDERIVED this) =
              (Throw (InvalidStateError msg), set_state KEYDERIVED this))
    as Hall.
  { intros c. apply run_wrong_state. cbn [state set_state].
    destruct c; discriminate. }
  split; [exact Hall|].
  apply run_all_fixed. intros c. destruct (Hall c) as [msg ->]. reflexivity.
Qed.

Lemma setRound2ResultFromBob_throws (r2 : Round2Result.t) (this : JPake)
    (e : error) :
  fst (setRound2ResultFromBob r2 this) = Throw e ->
  snd (setRound2ResultFromBob r2 this) = this /\
  ((state this <> ROUND2FINISHED /\
    e = InvalidStateError
          "Round 2 results can only be set after Round 2 is finished") \/
   (state this = ROUND2FINISHED /\
    (Round2Result.A r2 = None \/ Round2Result.ZKPx2s r2 = None) /\
    e = InvalidArgumentError
          "Missing required arguments for setRound2ResultFromBob") \/
   (state this = ROUND2FINISHED /\
    (exists a, Round2Result.A r2 = Some a /\ fromHex a = None) /\
    exists msg, e = Error msg)).
Proof.
  unfold setRound2ResultFromBob. unfold_method.
  destruct (state_eqb (state this) ROUND2FINISHED) eqn:E; cbn [negb fst snd].
  2:{ apply state_eqb_neq in E. intros H. injection H as <-.
      split; [reflexivity|]. left. now split. }
  apply state_eqb_eq in E.
  destruct (Round2Result.A r2) as [a|].
  2:{ cbn [fst snd]. intros H. injection H as <-. split; [reflexivity|].
      right. left. repeat split; [exact E|now left]. }
  destruct (Round2Result.ZKPx2s r2) as [z|].
  2:{ cbn [fst snd]. intros H. injection H as <-. split; [reflexivity|].
      right. left. repeat split; [exact E|now right]. }
  destruct (fromHex a) as [p|] eqn:Ef; cbn [fst snd]; [discriminate|].
  intros H. injection H as <-. split; [reflexivity|].
  right. right. repeat split; [exact E|now exists a|eexists; reflexivity].
Qed.

(** [setRound2ResultFromBob] is all or nothing.  When it throws, no field
    has changed, and the error is one of three: the state error, the
    missing-argument error, or, for an [A] that does not decode to a point,
    the library's own [Error], which the method does not catch (unlike
    [round2], which reports undecodable points as [InvalidArgumentError]). *)
Theorem setRound2ResultFromBob_all_or_nothing (r2 : Round2Result.t)
    (this : JPake) (e : error) :
  fst (setRound2ResultFromBob r2 this) = Throw e ->
  snd (setRound2ResultFromBob r2 this) = this /\
  ((state this <> ROUND2FINISHED /\
    e = InvalidStateError
          "Round 2 results can only be set after Round 2 is finished") \/
   (state this = ROUND2FINISHED /\
    (Round2Result.A r2 = None \/ Round2Result.ZKPx2s r2 = None) /\
    e = InvalidArgumentError
          "Missing required arguments for setRound2ResultFromBob") \/
   (state this = ROUND2FINISHED /\
    (exists a, Round2Result.A r2 = Some a /\ fromHex a = None) /\
    exists msg, e = Error msg)).
Proof. apply setRound2ResultFromBob_throws. Qed.

Lemma deriveSharedKey_throws (this : JPake) (e : error) :
  fst (deriveSharedKey this) = Throw e -> snd (deriveSharedKey this) = this.
Proof.
  unfold deriveSharedKey. unfold_method.
  repeat (break_match; cbn [fst snd]); try reflexivity; discriminate.
Qed.

(** [deriveSharedKey] is all or nothing.  When it throws, no field has
    changed, and the error is one of these, in the order of the tests: the
    state error; "Missing required data for key derivation" when a field is
    unset or the stored [bobUserId] is empty; "Invalid point: B is the point
    at infinity"; "Proof verification failed, userIds are equal."; whatever
    [verifySchnorrProof] throws on the stored proof; "ZKP verification
    failed" when it returns [false]; or, after the proof has verified, the
    library's [Error] from a scalar multiplication or from the serialisation
    of [Ka]. *)
Theorem deriveSharedKey_all_or_nothing (this : JPake) (e : error) :
  fst (deriveSharedKey this) = Throw e ->
  snd (deriveSharedKey this) = this /\
  ((state this <> ROUND2RESULTSRECEIVED /\
    e = InvalidStateError
          "Shared key can only be derived after receiving Round 2 results") \/
   (state this = ROUND2RESULTSRECEIVED /\
    (B this = None \/ G1 this = None \/ G2 this = None \/ G3 this = None \/
     G4 this = None \/ x2 this = None \/ x2s this = None \/
     ZKPx2sBob this = None \/ truthy_string (bobUserId this) = None) /\
    e = JPakeError "Missing required data for key derivation") \/
   (state this = ROUND2RESULTSRECEIVED /\
    exists (Bp P1 P2 P3 P4 : ProjectivePoint) (x2v x2sv z : bytes)
           (u : string),
      B this = Some Bp /\ G1 this = Some P1 /\ G2 this = Some P2 /\
      G3 this = Some P3 /\ G4 this = Some P4 /\ x2 this = Some x2v /\
      x2s this = Some x2sv /\ ZKPx2sBob this = Some z /\
      truthy_string (bobUserId this) = Some u /\
      ((Bp = ZERO /\
        e = VerificationError "Invalid point: B is the point at infinity") \/
       (Bp <> ZERO /\ userId this = u /\
        e = VerificationError "Proof verification failed, userIds are equal.") \/
       (Bp <> ZERO /\ userId this <> u /\
        verifySchnorrProof u Bp z (add (add P1 P3) P2) (otherInfo this) =
        Throw e) \/
       (Bp <> ZERO /\ userId this <> u /\
        verifySchnorrProof u Bp z (add (add P1 P3) P2) (otherInfo this) =
        Ok false /\
        e = VerificationError "ZKP verification failed") \/
       (Bp <> ZERO /\ userId this <> u /\
        verifySchnorrProof u Bp z (add (add P1 P3) P2) (otherInfo this) =
        Ok true /\
        exists msg, e = Error msg)))).
Proof.
  unfold deriveSharedKey. unfold_method.
  destruct (state_eqb (state this) ROUND2RESULTSRECEIVED) eqn:Est;
    cbn [negb fst snd].
  2:{ apply state_eqb_neq in Est. intros H. injection H as <-.
      split; [reflexivity|]. left. now split. }
  apply state_eqb_eq in Est.
  destruct (B this) as [Bp|]; [|missing_field Est].
  destruct (G1 this) as [P1|]; [|missing_field Est].
  destruct (G2 this) as [P2|]; [|missing_field Est].
  destruct (G3 this) as [P3|]; [|missing_field Est].
  destruct (G4 this) as [P4|]; [|missing_field Est].
  destruct (x2 this) as [x2v|]; [|missing_field Est].
  destruct (x2s this) as [x2sv|]; [|missing_field Est].
  destruct (ZKPx2sBob this) as [z|]; [|missing_field Est].
  destruct (truthy_string (bobUserId this)) as [u|] eqn:Eu;
    [|missing_field Est].
  assert (u <> "") as Hu by (apply truthy_string_Some in Eu; tauto).
  apply String.eqb_neq in Hu.
  destruct (equals Bp ZERO) eqn:EZ.
  { apply equals_spec in EZ. cbn [fst snd]. intros H. injection H as <-.
    split; [reflexivity|]. right. right. split; [exact Est|].
    exists Bp, P1, P2, P3, P4, x2v, x2sv, z, u.
    repeat (split; [reflexivity|]). left. now split. }
  apply equals_false in EZ.
  destruct (userId this =? u)%string eqn:Eid.
  { apply String.eqb_eq in Eid. cbn [fst snd]. intros H. injection H as <-.
    split; [reflexivity|]. right. right. split; [exact Est|].
    exists Bp, P1, P2, P3, P4, x2v, x2sv, z, u.
    repeat (split; [reflexivity|]). right. left. now repeat split. }
  apply String.eqb_neq in Eid. rewrite Hu.
  destruct (verifySchnorrProof u Bp z (add (add P1 P3) P2) (otherInfo this))
    as [[|]|err] eqn:Ev; cbn [negb fst snd].
  - destruct (multiply P4 (bytesToNumberBE x2sv)) as [Q|err] eqn:EQ.
    + destruct (multiply (subtract Bp Q) (bytesToNumberBE x2v)) as [Ka|err]
        eqn:EKa.
      * destruct (toRawBytes Ka) as [raw|err] eqn:Eraw; cbn [fst snd];
          [discriminate|].
        intros H. injection H as <-. apply toRawBytes_throws in Eraw.
        destruct Eraw as [_ ->].
        split; [reflexivity|]. right. right. split; [exact Est|].
        exists Bp, P1, P2, P3, P4, x2v, x2sv, z, u.
        repeat (split; [reflexivity|]). do 4 right.
        repeat split; try assumption. eexists; reflexivity.
      * cbn [fst snd]. intros H. injection H as <-.
        apply multiply_throws in EKa. destruct EKa as [_ [msg ->]].
        split; [reflexivity|]. right. right. split; [exact Est|].
        exists Bp, P1, P2, P3, P4, x2v, x2sv, z, u.
        repeat (split; [reflexivity|]). do 4 right.
        repeat split; try assumption. now exists msg.
    + cbn [fst snd]. intros H. injection H as <-.
      apply multiply_throws in EQ. destruct EQ as [_ [msg ->]].
      split; [reflexivity|]. right. right. split; [exact Est|].
      exists Bp, P1, P2, P3, P4, x2v, x2sv, z, u.
      repeat (split; [reflexivity|]). do 4 right.
      repeat split; try assumption. now exists msg.
  - intros H. injection H as <-.
    split; [reflexivity|]. right. right. split; [exact Est|].
    exists Bp, P1, P2, P3, P4, x2v, x2sv, z, u.
    repeat (split; [reflexivity|]). do 3 right. left. now repeat split.
  - intros H. injection H as <-.
    split; [reflexivity|]. right. right. split; [exact Est|].
    exists Bp, P1, P2, P3, P4, x2v, x2sv, z, u.
    repeat (split; [reflexivity|]). do 2 right. left. now repeat split.
Qed.

End LastSteps.

Section DeadBranches.

Context {noble : Noble}.

Local Open Scope string_scope.
Local Open Scope Z_scope.

Definition userId_message : string :=
  "userId is too long. It must be 255 bytes or less when UTF-8 encoded.".
Definition otherInfo_message : string :=
  "Each otherInfo string must be 255 bytes or less when UTF-8 encoded.".

Lemma generateSchnorrChallenge_argument_message (u : string)
    (gx gr : ProjectivePoint) (oi : option (list string)) (msg : string) :
  generateSchnorrChallenge u gx gr oi = Throw (InvalidArgumentError msg) ->
  msg = userId_message \/ msg = otherInfo_message.
Proof.
  intros H. pose proof (generateSchnorrChallenge_cases u gx gr oi) as Hc.
  rewrite H in Hc.
  destruct Hc as [[_ Hc]|[(_ & _ & _ & Hc)|(_ & _ & _ & _ & Hc)]].
  - discriminate Hc.
  - injection Hc as ->. now left.
  - injection Hc as ->. now right.
Qed.

Lemma verifySchnorrProof_argument_message (u : string) (gx : ProjectivePoint)
    (proof : bytes) (g : ProjectivePoint) (oi : option (list string))
    (msg : string) :
  verifySchnorrProof u gx proof g oi = Throw (InvalidArgumentError msg) ->
  msg = userId_message \/ msg = otherInfo_message.
Proof.
  unfold verifySchnorrProof.
  destruct (negb (len proof =? 33 + 32 + 2)); [discriminate|]. cbv zeta.
  destruct (negb (index_is proof (Some 0%nat) 33) || _); [discriminate|].
  destruct (fromHex _) as [V|]; [|discriminate].
  destruct (generateSchnorrChallenge u gx V oi) as [c|e] eqn:Ec.
  - rewrite rbind_Ok.
    destruct (multiply g _) as [gr|e] eqn:E1.
    + rewrite rbind_Ok. destruct (multiply gx c) as [gxc|e] eqn:E2.
      * rewrite rbind_Ok. discriminate.
      * rewrite rbind_Throw. error_kinds. discriminate.
    + rewrite rbind_Throw. error_kinds. discriminate.
  - rewrite rbind_Throw. intros H. injection H as ->.
    now apply generateSchnorrChallenge_argument_message in Ec.
Qed.

Lemma generateSchnorrProof_argument_message (u : string) (x : bytes)
    (gx g : ProjectivePoint) (oi : option (list string)) (entropy : Z)
    (msg : string) :
  generateSchnorrProof u x gx g oi entropy = Throw (InvalidArgumentError msg) ->
  msg = userId_message \/ msg = otherInfo_message.
Proof.
  rewrite generateSchnorrProof_unfold. cbv zeta.
  destruct (generateSchnorrChallenge u gx _ oi) as [c|e] eqn:Ec.
  - rewrite rbind_Ok.
    destruct (verifySchnorrProof u gx _ g oi) as [[|]|e] eqn:Ev.
    + rewrite rbind_Ok. discriminate.
    + rewrite rbind_Ok. discriminate.
    + rewrite rbind_Throw. intros H. injection H as ->.
      now apply verifySchnorrProof_argument_message in Ev.
  - rewrite rbind_Throw. intros H. injection H as ->.
    now apply generateSchnorrChallenge_argument_message in Ec.
Qed.

(** For the public key that belongs to the private key, the self-check of
    [generateSchnorrProof] cannot answer [false]. *)
Lemma generateSchnorrProof_own_key_JPakeError (u : string) (x : bytes)
    (g : ProjectivePoint) (oi : option (list string)) (entropy : Z)
    (msg : string) :
  generateSchnorrProof u x (pmul g (bytesToNumberBE x)) g oi entropy <>
  Throw (JPakeError msg).
Proof.
  pose proof n_gt_1 as Hn. assert (0 < n) as Hn0 by lia.
  remember (bytesToNumberBE (randomPrivateKey entropy)) as v eqn:Ev.
  remember (bytesToNumberBE x) as xv eqn:Exv.
  destruct (generateSchnorrChallenge u (pmul g xv) (pmul g v) oi) as [c|e]
    eqn:Ec.
  2:{ rewrite generateSchnorrProof_unfold. cbv zeta. rewrite <- Ev, <- Exv, Ec.
      rewrite rbind_Throw. intros H. injection H as ->.
      apply generateSchnorrChallenge_error_kind in Ec.
      destruct Ec as [[m Hm]|[m Hm]]; discriminate Hm. }
  rewrite (generateSchnorrProof_with_challenge u x (pmul g xv) g oi entropy c)
    by (rewrite <- Ev; exact Ec).
  rewrite <- Ev, <- Exv.
  pose proof (generateSchnorrChallenge_inv _ _ _ _ _ Ec) as (Hgx & HV & Hc).
  pose proof (Z.mod_pos_bound (v - xv * c) n Hn0) as Hr.
  rewrite verifySchnorrProof_serialized by assumption.
  rewrite Ec, rbind_Ok.
  destruct (multiply g ((v - xv * c) mod n)) as [gr|e] eqn:E1.
  2:{ rewrite !rbind_Throw. error_kinds. discriminate. }
  rewrite rbind_Ok.
  destruct (multiply (pmul g xv) c) as [gxc|e] eqn:E2.
  2:{ rewrite !rbind_Throw. error_kinds. discriminate. }
  rewrite !rbind_Ok.
  apply multiply_inv in E1, E2. destruct E1 as [_ ->], E2 as [_ ->].
  rewrite schnorr_equation.
  assert ((fst (toAffine (pmul g v)) =? fst (toAffine (pmul g v))) &&
          (snd (toAffine (pmul g v)) =? snd (toAffine (pmul g v))) = true)
    as -> by now apply affine_test.
  cbn [negb]. discriminate.
Qed.

Ltac argument_messages :=
  try (let Habs := fresh "Habs" in
       intros Habs; injection Habs as Habs; subst;
       match goal with
       | H : generateSchnorrProof _ _ _ _ _ _ = Throw (InvalidArgumentError _)
         |- _ =>
           apply generateSchnorrProof_argument_message in H;
           unfold userId_message, otherInfo_message in H;
           destruct H as [H|H]; discriminate H
       | H : verifySchnorrProof _ _ _ _ _ = Throw (InvalidArgumentError _)
         |- _ =>
           apply verifySchnorrProof_argument_message in H;
           unfold userId_message, otherInfo_message in H;
           destruct H as [H|H]; discriminate H
       end).

(** The [Invalid argument: PeerUserId is empty.] branch of [verifyPeerProof]
    cannot be reached through a public method: [round2] has rejected an empty
    [bobUserId] before it calls [verifyPeerProof], and [deriveSharedKey]
    treats an empty stored userId as missing data.  This holds for every
    object, however it was built. *)
Theorem peerUserId_empty_unreachable (c : call) (this : JPake) :
  fst (run c this) <> Throw (InvalidArgumentError "PeerUserId is empty.").
Proof.
  rewrite fst_run.
  destruct c as [e1 e2 ev1 ev2|r1 s u e|r2|]; rewrite map_result_throws.
  - unfold round1. unfold_method.
    repeat (break_match; cbn [fst]); try discriminate; argument_messages;
      error_kinds; discriminate.
  - unfold round2. unfold_method.
    destruct (negb (state_eqb (state this) ROUND1FINISHED)); [discriminate|].
    destruct (Round1Result.G1 r1) as [g1|]; [|discriminate].
    destruct (Round1Result.G2 r1) as [g2|]; [|discriminate].
    destruct (Round1Result.ZKPx1 r1) as [z1|]; [|discriminate].
    destruct (Round1Result.ZKPx2 r1) as [z2|]; [|discriminate].
    destruct s as [sb|]; [|discriminate].
    destruct (u =? "")%string eqn:Eu; cbn [negb]; [discriminate|].
    destruct (x2 this) as [x2v|]; [|discriminate].
    destruct (G1 this) as [P1|]; [|discriminate].
    destruct (fromHex g1) as [P3|]; [|discriminate].
    destruct (fromHex g2) as [P4|]; [|discriminate].
    destruct (mod_ (bytesToNumberBE sb) n =? 0); [discriminate|].
    cbn [userId otherInfo set_bobUserId].
    destruct (userId this =? u)%string; [discriminate|].
    repeat (break_match; cbn [fst]); try discriminate; argument_messages;
      error_kinds; discriminate.
  - intros H. apply setRound2ResultFromBob_throws in H.
    destruct H as [_ [[_ H]|[(_ & _ & H)|(_ & _ & m & H)]]]; discriminate H.
  - unfold deriveSharedKey. unfold_method.
    destruct (negb (state_eqb (state this) ROUND2RESULTSRECEIVED));
      [discriminate|].
    destruct (B this) as [Bp|]; [|discriminate].
    destruct (G1 this) as [P1|]; [|discriminate].
    destruct (G2 this) as [P2|]; [|discriminate].
    destruct (G3 this) as [P3|]; [|discriminate].
    destruct (G4 this) as [P4|]; [|discriminate].
    destruct (x2 this) as [x2v|]; [|discriminate].
    destruct (x2s this) as [x2sv|]; [|discriminate].
    destruct (ZKPx2sBob this) as [z|]; [|discriminate].
    destruct (truthy_string (bobUserId this)) as [u|] eqn:Eu; [|discriminate].
    apply truthy_string_Some in Eu. destruct Eu as [_ Hu].
    apply String.eqb_neq in Hu.
    destruct (equals Bp ZERO); [discriminate|].
    destruct (userId this =? u)%string; [discriminate|].
    rewrite Hu.
    repeat (break_match; cbn [fst]); try discriminate; argument_messages;
      error_kinds; discriminate.
Qed.

(** What the states promise about the optional fields. *)
Definition assigned (this : JPake) : Prop :=
  (state this <> INITIAL ->
   is_some (x2 this) = true /\ is_some (G1 this) = true /\
   is_some (G2 this) = true) /\
  ((2 <= state_value (state this))%nat ->
   is_some (G3 this) = true /\ is_some (G4 this) = true /\
   is_some (x2s this) = true /\
   is_some (truthy_string (bobUserId this)) = true) /\
  ((3 <= state_value (state this))%nat ->
   is_some (B this) = true /\ is_some (ZKPx2sBob this) = true).

Lemma round2_frame_round1_fields (r1 : Round1Result.t) (s : option bytes)
    (u : string) (entropy : Z) (this : JPake) :
  x2 (snd (round2 r1 s u entropy this)) = x2 this /\
  G1 (snd (round2 r1 s u entropy this)) = G1 this /\
  G2 (snd (round2 r1 s u entropy this)) = G2 this.
Proof.
  unfold round2. unfold_method.
  repeat (break_match;
          cbn [snd x2 G1 G2 set_state set_bobUserId set_G3 set_G4 set_x2s]);
    repeat split; first [reflexivity|assumption].
Qed.

Lemma assigned_new (u : string) (oi : option (list string)) (this : JPake) :
  newJPake u oi = Ok this -> assigned this.
Proof.
  intros H. apply newJPake_ok in H. destruct H as [_ ->].
  unfold assigned. cbn [state state_value].
  repeat split; first [congruence|lia].
Qed.

Lemma assigned_run (c : call) (this : JPake) :
  assigned this -> assigned (snd (run c this)).
Proof.
  intros (Ha & Hb & Hc). rewrite snd_run.
  destruct c as [e1 e2 ev1 ev2|r1 s u e|r2|].
  - destruct (round1 e1 e2 ev1 ev2 this) as [[r|err] t] eqn:E.
    + apply round1_ok in E. cbv zeta in E. destruct E as (_ & -> & _).
      unfold assigned.
      cbn [snd state state_value x2 G1 G2 set_state set_G2 set_G1 set_x2
           set_x1 is_some].
      repeat split; lia.
    + destruct (state_eqb (state this) INITIAL) eqn:Est.
      * apply state_eqb_eq in Est.
        pose proof (round1_error_state e1 e2 ev1 ev2 this err) as Hs.
        rewrite E in Hs. cbn [fst snd] in Hs. specialize (Hs eq_refl).
        unfold assigned. cbn [snd]. rewrite Hs, Est. cbn [state_value].
        repeat split; first [congruence|lia].
      * apply state_eqb_neq in Est.
        rewrite round1_wrong_state in E by exact Est.
        apply pair_equal_spec in E. destruct E as [_ <-]. cbn [snd].
        now split.
  - destruct (round2 r1 s u e this) as [[r|err] t] eqn:E.
    + apply round2_ok in E.
      destruct E as (bG1 & bG2 & bz1 & bz2 & sb & x2v & G1v & P3 & P4 & Hst & _
                     & _ & Hu & _ & _ & _ & _ & _ & _ & _ & E).
      cbv zeta in E. destruct E as (_ & _ & _ & z & _ & _ & ->).
      assert (state this <> INITIAL) as Hne by congruence.
      destruct (Ha Hne) as (A1 & A2 & A3).
      unfold assigned.
      cbn [snd state state_value x2 G1 G2 G3 G4 x2s B ZKPx2sBob bobUserId
           set_state set_x2s set_G4 set_G3 set_bobUserId is_some
           truthy_string].
      apply String.eqb_neq in Hu. rewrite Hu. cbn [is_some].
      repeat split; first [assumption|lia].
    + destruct (state_eqb (state this) ROUND1FINISHED) eqn:Est.
      * apply state_eqb_eq in Est.
        pose proof (round2_error_state r1 s u e this err) as Hs.
        pose proof (round2_frame_round1_fields r1 s u e this) as (F1 & F2 & F3).
        rewrite E in Hs, F1, F2, F3. cbn [fst snd] in Hs, F1, F2, F3.
        specialize (Hs eq_refl).
        assert (state this <> INITIAL) as Hne by congruence.
        unfold assigned. cbn [snd]. rewrite Hs, F1, F2, F3, Est.
        cbn [state_value].
        repeat split; first [apply (Ha Hne)|lia].
      * apply state_eqb_neq in Est.
        rewrite round2_wrong_state in E by exact Est.
        apply pair_equal_spec in E. destruct E as [_ <-]. cbn [snd].
        now split.
  - destruct (setRound2ResultFromBob r2 this) as [[r|err] t] eqn:E.
    + destruct r. apply setRound2ResultFromBob_ok in E.
      destruct E as (bA & bz & p & Hst & _ & _ & ->).
      assert (state this <> INITIAL) as Hne by congruence.
      assert (2 <= state_value (state this))%nat as H2
        by (rewrite Hst; cbn [state_value]; lia).
      unfold assigned.
      cbn [snd state state_value x2 G1 G2 G3 G4 x2s B ZKPx2sBob bobUserId
           set_state set_ZKPx2sBob set_B is_some].
      repeat split; first [apply (Ha Hne)|apply (Hb H2)|congruence].
    + pose proof (setRound2ResultFromBob_throws r2 this err) as Hs.
      rewrite E in Hs. cbn [fst snd] in Hs. destruct (Hs eq_refl) as [-> _].
      cbn [snd]. now split.
  - destruct (deriveSharedKey this) as [[r|err] t] eqn:E.
    + apply deriveSharedKey_ok in E.
      destruct E as (Bp & P1 & P2 & P3 & P4 & x2v & x2sv & z & u & Hst & _ & _
                     & _ & _ & _ & _ & _ & _ & _ & _ & _ & _ & _ & _ & _ & ->).
      assert (state this <> INITIAL) as Hne by congruence.
      assert (2 <= state_value (state this))%nat as H2
        by (rewrite Hst; cbn [state_value]; lia).
      assert (3 <= state_value (state this))%nat as H3
        by (rewrite Hst; cbn [state_value]; lia).
      unfold assigned.
      cbn [snd state state_value x2 G1 G2 G3 G4 x2s B ZKPx2sBob bobUserId
           set_state].
      repeat split; first [apply (Ha Hne)|apply (Hb H2)|apply (Hc H3)].
    + pose proof (deriveSharedKey_throws this err) as Hs.
      rewrite E in Hs. cbn [fst snd] in Hs. rewrite (Hs eq_refl).
      cbn [snd]. now split.
Qed.

Lemma reachable_assigned (this : JPake) : reachable this -> assigned this.
Proof.
  induction 1 as [u oi this H|c this _ IH];
    [now apply assigned_new in H|now apply assigned_run].
Qed.

Lemma is_some_true {T} (o : option T) :
  is_some o = true -> exists v, o = Some v.
Proof. destruct o as [v|]; [now exists v|discriminate]. Qed.

Lemma round1_JPakeError (e1 e2 ev1 ev2 : Z) (this : JPake) (msg : string) :
  fst (round1 e1 e2 ev1 ev2 this) <> Throw (JPakeError msg).
Proof.
  unfold round1. unfold_method.
  destruct (negb (state_eqb (state this) INITIAL)); [discriminate|].
  destruct (multiply G (bytesToNumberBE (randomPrivateKey e1))) as [P1|] eqn:E1;
    [|cbn [fst]; error_kinds; discriminate].
  destruct (multiply G (bytesToNumberBE (randomPrivateKey e2))) as [P2|] eqn:E2;
    [|cbn [fst]; error_kinds; discriminate].
  apply multiply_inv in E1, E2. destruct E1 as [_ ->], E2 as [_ ->].
  destruct (generateSchnorrProof (userId this) (randomPrivateKey e1) _ G
              (otherInfo this) ev1) as [z1|err] eqn:Ez1.
  2:{ cbn [fst]. intros H. injection H as ->.
      now apply generateSchnorrProof_own_key_JPakeError in Ez1. }
  destruct (generateSchnorrProof (userId this) (randomPrivateKey e2) _ G
              (otherInfo this) ev2) as [z2|err] eqn:Ez2.
  2:{ cbn [fst]. intros H. injection H as ->.
      now apply generateSchnorrProof_own_key_JPakeError in Ez2. }
  repeat (break_match; cbn [fst]); try discriminate; error_kinds; discriminate.
Qed.

Lemma round2_JPakeError (r1 : Round1Result.t) (s : option bytes) (u : string)
    (entropy : Z) (this : JPake) (msg : string) :
  assigned this -> fst (round2 r1 s u entropy this) <> Throw (JPakeError msg).
Proof.
  intros (Ha & _ & _).
  unfold round2. unfold_method.
  destruct (state_eqb (state this) ROUND1FINISHED) eqn:Est; cbn [negb];
    [apply state_eqb_eq in Est|discriminate].
  assert (state this <> INITIAL) as Hne by congruence.
  destruct (Ha Hne) as (A1 & A2 & _).
  apply is_some_true in A1, A2. destruct A1 as [x2v ->], A2 as [P1 ->].
  destruct (Round1Result.G1 r1) as [g1|]; [|discriminate].
  destruct (Round1Result.G2 r1) as [g2|]; [|discriminate].
  destruct (Round1Result.ZKPx1 r1) as [z1|]; [|discriminate].
  destruct (Round1Result.ZKPx2 r1) as [z2|]; [|discriminate].
  destruct s as [sb|]; [|discriminate].
  destruct (u =? "")%string; cbn [negb]; [discriminate|].
  destruct (fromHex g1) as [P3|]; [|discriminate].
  destruct (fromHex g2) as [P4|]; [|discriminate].
  destruct (mod_ (bytesToNumberBE sb) n =? 0); [discriminate|].
  cbn [userId otherInfo set_bobUserId].
  destruct (userId this =? u)%string; [discriminate|].
  destruct (verifySchnorrProof u P3 z1 G (otherInfo this)) as [[|]|err] eqn:Ev;
    cbn [negb fst]; [|discriminate|error_kinds; discriminate].
  destruct (multiply (add (add P1 P3) P4) _) as [A|err] eqn:EA;
    [|cbn [fst]; error_kinds; discriminate].
  apply multiply_inv in EA. destruct EA as [_ ->].
  destruct (generateSchnorrProof (userId this) _ _ _ (otherInfo this) entropy)
    as [z|err] eqn:Ez.
  2:{ cbn [fst]. intros H. injection H as ->.
      now apply generateSchnorrProof_own_key_JPakeError in Ez. }
  repeat (break_match; cbn [fst]); try discriminate; error_kinds; discriminate.
Qed.

Lemma deriveSharedKey_JPakeError (this : JPake) (msg : string) :
  assigned this -> fst (deriveSharedKey this) <> Throw (JPakeError msg).
Proof.
  intros (Ha & Hb & Hc).
  unfold deriveSharedKey. unfold_method.
  destruct (state_eqb (state this) ROUND2RESULTSRECEIVED) eqn:Est; cbn [negb];
    [apply state_eqb_eq in Est|discriminate].
  assert (state this <> INITIAL) as Hne by congruence.
  assert (2 <= state_value (state this))%nat as H2
    by (rewrite Est; cbn [state_value]; lia).
  assert (3 <= state_value (state this))%nat as H3
    by (rewrite Est; cbn [state_value]; lia).
  destruct (Ha Hne) as (A1 & A2 & A3).
  destruct (Hb H2) as (B1 & B2 & B3 & B4).
  destruct (Hc H3) as (C1 & C2).
  apply is_some_true in A1, A2, A3, B1, B2, B3, B4, C1, C2.
  destruct A1 as [x2v ->], A2 as [P1 ->], A3 as [P2 ->], B1 as [P3 ->],
    B2 as [P4 ->], B3 as [x2sv ->], B4 as [u ->], C1 as [Bp ->], C2 as [z ->].
  repeat (break_match; cbn [fst]); try discriminate; error_kinds; discriminate.
Qed.

(** No public method of an object built by the constructor and used through
    the public methods ever throws a bare [JPakeError]: the fields each
    method needs have been assigned by the time its state is reached, every
    proof is generated for the public key of its own private key, so that
    the self-check cannot answer [false], and the remaining tests are on
    objects.  The errors a caller can see are [InvalidStateError],
    [InvalidArgumentError], [VerificationError] and the library's [Error]. *)
Theorem JPakeError_unreachable (this : JPake) (c : call) (msg : string) :
  reachable this -> fst (run c this) <> Throw (JPakeError msg).
Proof.
  intros H. apply reachable_assigned in H. rewrite fst_run.
  destruct c as [e1 e2 ev1 ev2|r1 s u e|r2|]; rewrite map_result_throws.
  - apply round1_JPakeError.
  - now apply round2_JPakeError.
  - intros E. apply setRound2ResultFromBob_throws in E.
    destruct E as [_ [[_ E]|[(_ & _ & E)|(_ & _ & m & E)]]]; discriminate E.
  - now apply deriveSharedKey_JPakeError.
Qed.

End DeadBranches.

(** ** [src/JPakeThreePass.mts] *)

Section ThreePassFacts.

Context {noble : Noble}.

Local Open Scope string_scope.
Local Open Scope Z_scope.

Lemma bind_Ok {T U} (m : method T) (k : T -> method U) (this this' : JPake)
    (b : U) :
  bind m k this = (Ok b, this') ->
  exists a t, m this = (Ok a, t) /\ k a t = (Ok b, this').
Proof.
  unfold bind. destruct (m this) as [[a|e] t]; [|discriminate].
  intros H. now exists a, t.
Qed.

Lemma bind_Throw {T U} (m : method T) (k : T -> method U) (this this' : JPake)
    (e : error) :
  bind m k this = (Throw e, this') ->
  m this = (Throw e, this') \/
  exists a t, m this = (Ok a, t) /\ k a t = (Throw e, this').
Proof.
  unfold bind. destruct (m this) as [[a|e'] t].
  - intros H. right. now exists a, t.
  - intros H. left. apply pair_equal_spec in H. destruct H as [H ->].
    injection H as ->. reflexivity.
Qed.

Lemma on_jpake_inv {T} (m : method T) (this this' : JPakeThreePass.t)
    (r : result T) :
  JPakeThreePass.on_jpake m this = (r, this') ->
  m (JPakeThreePass.jpake this) = (r, JPakeThreePass.jpake this') /\
  JPakeThreePass.userId this' = JPakeThreePass.userId this.
Proof.
  unfold JPakeThreePass.on_jpake.
  destruct (m (JPakeThreePass.jpake this)) as [r' j].
  intros H. apply pair_equal_spec in H. destruct H as [-> <-]. now split.
Qed.

(** The two-round exchange between two [JPake] objects. *)
Lemma two_round_agreement (userIdA userIdB : string)
    (otherInfo : option (list string)) (s : bytes)
    (a1 a2 av1 av2 av3 b1 b2 bv1 bv2 bv3 : Z)
    (alice0 alice1 alice2 alice3 bob0 bob1 bob2 bob3 : JPake)
    (aliceRound1 bobRound1 : Round1Result.t)
    (aliceRound2 bobRound2 : Round2Result.t) :
  newJPake userIdA otherInfo = Ok alice0 ->
  newJPake userIdB otherInfo = Ok bob0 ->
  round1 a1 a2 av1 av2 alice0 = (Ok aliceRound1, alice1) ->
  round1 b1 b2 bv1 bv2 bob0 = (Ok bobRound1, bob1) ->
  round2 bobRound1 (Some s) userIdB av3 alice1 = (Ok aliceRound2, alice2) ->
  round2 aliceRound1 (Some s) userIdA bv3 bob1 = (Ok bobRound2, bob2) ->
  setRound2ResultFromBob bobRound2 alice2 = (Ok tt, alice3) ->
  setRound2ResultFromBob aliceRound2 bob2 = (Ok tt, bob3) ->
  (bytesToNumberBE (randomPrivateKey a1) +
   bytesToNumberBE (randomPrivateKey b1)) mod n <> 0 ->
  exists key,
    fst (deriveSharedKey alice3) = Ok key /\
    fst (deriveSharedKey bob3) = Ok key /\
    List.length key = 32%nat.
Proof.
  intros HnA HnB H1A H1B H2A H2B HsA HsB H13.
  assert (exists z1 z2, bobRound1 =
            Round1Result.mk
              (Some (toBytes (pmul G (bytesToNumberBE (randomPrivateKey b1)))))
              (Some (toBytes (pmul G (bytesToNumberBE (randomPrivateKey b2)))))
              (Some z1) (Some z2)) as (zb1 & zb2 & EB1).
  { pose proof H1B as H. apply round1_ok in H. cbv zeta in H.
    destruct H as (_ & _ & _ & _ & z1 & z2 & _ & _ & ->). now exists z1, z2. }
  subst bobRound1.
  destruct (round2_message _ _ _ _ _ _ _ _ _ _ _ _ _ _ _ _ _ _ HnA H1A H2A)
    as (za1 & za2 & zA & EA1 & EA2 & HzA).
  subst aliceRound1.
  destruct (round2_message _ _ _ _ _ _ _ _ _ _ _ _ _ _ _ _ _ _ HnB H1B H2B)
    as (_ & _ & zB & _ & EB2 & HzB).
  subst aliceRound2 bobRound2.
  pose proof (party_key _ _ _ _ _ _ _ _ _ _ _ _ _ _ _ _ _ _ _ _ _
                HnA H1A H2A HsA HzB H13) as HkA.
  rewrite Z.add_comm in H13.
  pose proof (party_key _ _ _ _ _ _ _ _ _ _ _ _ _ _ _ _ _ _ _ _ _
                HnB H1B H2B HsB HzA H13) as HkB.
  eexists. split; [exact HkA|split; [|apply sha3_256_length]].
  rewrite HkB. do 4 f_equal.
  generalize (bytesToNumberBE (randomPrivateKey a1))
    (bytesToNumberBE (randomPrivateKey a2))
    (bytesToNumberBE (randomPrivateKey b1))
    (bytesToNumberBE (randomPrivateKey b2)) (bytesToNumberBE s).
  intros k1 k2 k3 k4 sv. ring.
Qed.

(** The three-pass exchange agrees on the key.  The initiator runs [pass1],
    the responder [pass2] on its result, the initiator [pass3] on that, the
    responder [receivePass3Results]; when these four calls return and the
    first scalars of the two sides do not cancel modulo [n], both
    [deriveSharedKey] calls return the same 32-byte key. *)
Theorem three_pass_key_agreement (userIdA userIdB : string) (s : bytes)
    (a1 a2 av1 av2 av3 b1 b2 bv1 bv2 bv3 : Z)
    (alice0 alice1 alice3 bob0 bob2 bob3 : JPakeThreePass.t)
    (pass1Result : Round1Result.t) (pass2Result : Pass2Result.t)
    (pass3Result : Round2Result.t) :
  JPakeThreePass.new userIdA = Ok alice0 ->
  JPakeThreePass.new userIdB = Ok bob0 ->
  JPakeThreePass.pass1 a1 a2 av1 av2 alice0 = (Ok pass1Result, alice1) ->
  JPakeThreePass.pass2 pass1Result (Some s) userIdA b1 b2 bv1 bv2 bv3 bob0 =
  (Ok pass2Result, bob2) ->
  JPakeThreePass.pass3 pass2Result (Some s) userIdB av3 alice1 =
  (Ok pass3Result, alice3) ->
  JPakeThreePass.receivePass3Results pass3Result bob2 = (Ok tt, bob3) ->
  (bytesToNumberBE (randomPrivateKey a1) +
   bytesToNumberBE (randomPrivateKey b1)) mod n <> 0 ->
  exists key,
    fst (JPakeThreePass.deriveSharedKey alice3) = Ok key /\
    fst (JPakeThreePass.deriveSharedKey bob3) = Ok key /\
    List.length key = 32%nat.
Proof.
  intros HnA HnB Hp1 Hp2 Hp3 Hrec H13.
  unfold JPakeThreePass.new in HnA, HnB.
  destruct (newJPake userIdA None) as [ja0|] eqn:EA; [|discriminate].
  destruct (newJPake userIdB None) as [jb0|] eqn:EB; [|discriminate].
  injection HnA as <-. injection HnB as <-.
  apply on_jpake_inv in Hp1, Hp2, Hp3, Hrec.
  destruct Hp1 as [Hp1 _], Hp2 as [Hp2 _], Hp3 as [Hp3 _], Hrec as [Hrec _].
  cbn [JPakeThreePass.jpake] in Hp1, Hp2.
  apply bind_Ok in Hp2. destruct Hp2 as (bobRound1 & jb1 & H1B & Hp2).
  apply bind_Ok in Hp2. destruct Hp2 as (bobRound2 & jb2 & H2B & Hp2).
  unfold ret in Hp2. apply pair_equal_spec in Hp2. destruct Hp2 as [Hr Hj].
  injection Hr as <-. 
  apply bind_Ok in Hp3. destruct Hp3 as (aliceRound2 & ja2 & H2A & Hp3).
  apply bind_Ok in Hp3. destruct Hp3 as ([] & ja3 & HsA & Hp3).
  unfold ret in Hp3. apply pair_equal_spec in Hp3. destruct Hp3 as [Hr Hj3].
  injection Hr as <-.
  cbn [Pass2Result.round1Result Pass2Result.round2Result] in H2A, HsA.
  rewrite <- Hj in Hrec. rewrite Hj3 in HsA.
  destruct (two_round_agreement userIdA userIdB None s a1 a2 av1 av2 av3 b1 b2
              bv1 bv2 bv3 ja0 (JPakeThreePass.jpake alice1) ja2
              (JPakeThreePass.jpake alice3) jb0 jb1 jb2
              (JPakeThreePass.jpake bob3) pass1Result bobRound1 aliceRound2
              bobRound2 EA EB Hp1 H1B H2A H2B HsA Hrec H13)
    as (key & HkA & HkB & Hlen).
  exists key. unfold JPakeThreePass.deriveSharedKey, JPakeThreePass.on_jpake.
  destruct (deriveSharedKey (JPakeThreePass.jpake alice3)) as [ra ta].
  destruct (deriveSharedKey (JPakeThreePass.jpake bob3)) as [rb tb].
  cbn [fst] in *. now repeat split.
Qed.

(** [pass2] runs [round1] and then [round2] on the inner object.  When it
    throws from a new object, either [round1] threw and the inner state is
    still INITIAL, or [round1] had returned and [round2] threw: then the
    inner state is ROUND1FINISHED, the round-1 message is lost with the
    exception, and every further [pass1] or [pass2] on the object throws
    "Round 1 can only be executed in INITIAL state" and changes nothing. *)
Theorem pass2_failure_blocks_retry (r1 : Round1Result.t) (s : option bytes)
    (u : string) (e1 e2 ev1 ev2 entropy : Z) (this : JPakeThreePass.t)
    (err : error) :
  state (JPakeThreePass.jpake this) = INITIAL ->
  fst (JPakeThreePass.pass2 r1 s u e1 e2 ev1 ev2 entropy this) = Throw err ->
  let this' := snd (JPakeThreePass.pass2 r1 s u e1 e2 ev1 ev2 entropy this) in
  (fst (round1 e1 e2 ev1 ev2 (JPakeThreePass.jpake this)) = Throw err /\
   state (JPakeThreePass.jpake this') = INITIAL) \/
  ((exists r, fst (round1 e1 e2 ev1 ev2 (JPakeThreePass.jpake this)) = Ok r) /\
   state (JPakeThreePass.jpake this') = ROUND1FINISHED /\
   (forall r1' s' u' e1' e2' ev1' ev2' entropy',
      JPakeThreePass.pass2 r1' s' u' e1' e2' ev1' ev2' entropy' this' =
      (Throw (InvalidStateError "Round 1 can only be executed in INITIAL state"),
       this')) /\
   (forall e1' e2' ev1' ev2',
      JPakeThreePass.pass1 e1' e2' ev1' ev2' this' =
      (Throw (InvalidStateError "Round 1 can only be executed in INITIAL state"),
       this'))).
Proof.
  intros Hst H. cbv zeta.
  destruct (JPakeThreePass.pass2 r1 s u e1 e2 ev1 ev2 entropy this)
    as [res this'] eqn:Eout.
  cbn [fst snd] in *. subst res.
  apply on_jpake_inv in Eout. destruct Eout as [Eb _].
  apply bind_Throw in Eb. destruct Eb as [E1|(r & j1 & E1 & Eb)].
  - left. rewrite E1. split; [reflexivity|].
    pose proof (round1_error_state e1 e2 ev1 ev2 (JPakeThreePass.jpake this)
                  err) as Hs.
    rewrite E1 in Hs. cbn [fst snd] in Hs. rewrite Hs by reflexivity.
    exact Hst.
  - apply bind_Throw in Eb. destruct Eb as [E2|(r2 & j2 & _ & Eret)];
      [|discriminate Eret].
    right.
    pose proof (round2_error_state r1 s u entropy j1 err) as Hs.
    rewrite E2 in Hs. cbn [fst snd] in Hs. specialize (Hs eq_refl).
    rewrite E1. apply round1_ok in E1. cbv zeta in E1.
    destruct E1 as (_ & -> & _). cbn [state set_state] in Hs.
    assert (state (JPakeThreePass.jpake this') <> INITIAL) as Hne
      by congruence.
    split; [now exists r|split; [exact Hs|split]].
    + intros r1' s' u' e1' e2' ev1' ev2' entropy'.
      unfold JPakeThreePass.pass2, JPakeThreePass.on_jpake, bind.
      rewrite round1_wrong_state by exact Hne. now destruct this'.
    + intros e1' e2' ev1' ev2'.
      unfold JPakeThreePass.pass1, JPakeThreePass.on_jpake.
      rewrite round1_wrong_state by exact Hne. now destruct this'.
Qed.

(** [pass3] runs [round2] and then [setRound2ResultFromBob].  When the first
    returns and the second throws (the responder's round-2 message is
    incomplete or its [A] is not a point), the own round-2 message is lost
    with the exception, the inner state is ROUND2FINISHED, and every further
    [pass3] throws "Round 2 can only be executed after Round 1" and changes
    nothing. *)
Theorem pass3_failure_blocks_retry (pass2Result : Pass2Result.t)
    (s : option bytes) (u : string) (entropy : Z) (this : JPakeThreePass.t)
    (err : error) (r : Round2Result.t) :
  fst (round2 (Pass2Result.round1Result pass2Result) s u entropy
         (JPakeThreePass.jpake this)) = Ok r ->
  fst (JPakeThreePass.pass3 pass2Result s u entropy this) = Throw err ->
  let this' := snd (JPakeThreePass.pass3 pass2Result s u entropy this) in
  state (JPakeThreePass.jpake this') = ROUND2FINISHED /\
  (err = InvalidArgumentError
           "Missing required arguments for setRound2ResultFromBob" \/
   exists msg, err = Error msg) /\
  forall pass2Result' s' u' entropy',
    JPakeThreePass.pass3 pass2Result' s' u' entropy' this' =
    (Throw (InvalidStateError "Round 2 can only be executed after Round 1"),
     this').
Proof.
  intros Hr2 H. cbv zeta.
  destruct (JPakeThreePass.pass3 pass2Result s u entropy this)
    as [res this'] eqn:Eout.
  cbn [fst snd] in *. subst res.
  apply on_jpake_inv in Eout. destruct Eout as [Eb _].
  apply bind_Throw in Eb. destruct Eb as [E2|(r2 & j2 & E2 & Eb)];
    [rewrite E2 in Hr2; discriminate Hr2|].
  apply bind_Throw in Eb. destruct Eb as [E3|(v & j3 & _ & Eret)];
    [|discriminate Eret].
  pose proof (setRound2ResultFromBob_throws
                (Pass2Result.round2Result pass2Result) j2 err) as Hs.
  rewrite E3 in Hs. cbn [fst snd] in Hs. destruct (Hs eq_refl) as [Hj Hk].
  apply round2_ok in E2.
  destruct E2 as (bG1 & bG2 & bz1 & bz2 & sb & x2v & G1v & P3 & P4 & _ & _
                  & _ & _ & _ & _ & _ & _ & _ & _ & _ & E2).
  cbv zeta in E2. destruct E2 as (_ & _ & _ & z & _ & _ & Hj2).
  assert (state (JPakeThreePass.jpake this') = ROUND2FINISHED) as Hst
    by (rewrite Hj, Hj2; reflexivity).
  split; [exact Hst|split].
  - destruct Hk as [[Hk _]|[(_ & _ & ->)|(_ & _ & Hk)]];
      [|now left|now right].
    exfalso. apply Hk. rewrite Hj2. reflexivity.
  - intros p2' s' u' entropy'.
    unfold JPakeThreePass.pass3, JPakeThreePass.on_jpake, bind.
    rewrite round2_wrong_state by congruence. now destruct this'.
Qed.

End ThreePassFacts.

(** ** The password scalar: [src/deriveSFromPassword.mts] with [src/JPake.mts] *)

Ltac invalid_argument_messages :=
  try (let Habs := fresh "Habs" in
       intros Habs; injection Habs as Habs; subst;
       match goal with
       | H : generateSchnorrProof _ _ _ _ _ _ = Throw (InvalidArgumentError _)
         |- _ =>
           apply generateSchnorrProof_argument_message in H;
           unfold userId_message, otherInfo_message in H;
           destruct H as [H|H]; discriminate H
       | H : verifySchnorrProof _ _ _ _ _ = Throw (InvalidArgumentError _)
         |- _ =>
           apply verifySchnorrProof_argument_message in H;
           unfold userId_message, otherInfo_message in H;
           destruct H as [H|H]; discriminate H
       end).

Section PasswordFacts.

Context {noble : Noble}.

Local Open Scope string_scope.
Local Open Scope Z_scope.

Lemma retryLoop_inv (fuel : nat) (password : string) (s0 v : Z) :
  retryLoop fuel password s0 = Some v ->
  v <> 0 /\ (v = s0 \/ v = hashToScalar (password ++ "retried")).
Proof.
  revert s0. induction fuel as [|fuel IH]; intros s0; cbn [retryLoop];
    destruct (s0 =? 0) eqn:E.
  - discriminate.
  - intros H. injection H as <-. apply Z.eqb_neq in E. now split; [|left].
  - intros H. apply IH in H. destruct H as [Hv [->| ->]]; split; auto.
  - intros H. injection H as <-. apply Z.eqb_neq in E. now split; [|left].
Qed.

Lemma deriveSFromPassword_inv (fuel : nat) (password : string) (s : bytes) :
  deriveSFromPassword fuel password = Some (Ok s) ->
  password <> "" /\
  exists v, 0 < v < n /\ s = numberToBytesBE v 32 /\
            (v = hashToScalar password \/
             v = hashToScalar (password ++ "retried")).
Proof.
  unfold deriveSFromPassword.
  destruct (password =? "")%string eqn:Ep; [discriminate|].
  apply String.eqb_neq in Ep.
  destruct (retryLoop fuel password (hashToScalar password)) as [v|] eqn:El;
    [|discriminate].
  intros H. injection H as <-. split; [exact Ep|].
  apply retryLoop_inv in El. destruct El as [Hv Hor].
  exists v. split; [|split; [reflexivity|exact Hor]].
  pose proof (hashToScalar_range password).
  pose proof (hashToScalar_range (password ++ "retried")).
  destruct Hor as [->| ->]; lia.
Qed.

Lemma round2_invalid_s (r1 : Round1Result.t) (s : bytes) (u : string)
    (entropy : Z) (this : JPake) :
  fst (round2 r1 (Some s) u entropy this) =
  Throw (InvalidArgumentError "Invalid s: s MUST not be equal to 0 mod n") ->
  bytesToNumberBE s mod n = 0.
Proof.
  pose proof n_gt_1 as Hn.
  unfold round2. unfold_method.
  destruct (negb (state_eqb (state this) ROUND1FINISHED)); [discriminate|].
  destruct (Round1Result.G1 r1) as [g1|]; [|discriminate].
  destruct (Round1Result.G2 r1) as [g2|]; [|discriminate].
  destruct (Round1Result.ZKPx1 r1) as [z1|]; [|discriminate].
  destruct (Round1Result.ZKPx2 r1) as [z2|]; [|discriminate].
  destruct (u =? "")%string eqn:Eu; cbn [negb]; [discriminate|].
  destruct (x2 this) as [x2v|]; [|discriminate].
  destruct (G1 this) as [P1|]; [|discriminate].
  destruct (fromHex g1) as [P3|]; [|discriminate].
  destruct (fromHex g2) as [P4|]; [|discriminate].
  rewrite !mod__spec by lia.
  destruct (bytesToNumberBE s mod n =? 0) eqn:Es;
    [intros _; now apply Z.eqb_eq in Es|].
  cbn [userId otherInfo set_bobUserId].
  destruct (userId this =? u)%string; [discriminate|].
  repeat (break_match; cbn [fst]); try discriminate;
    invalid_argument_messages; error_kinds; discriminate.
Qed.

(** The scalar that [deriveSFromPassword] returns is one [round2] accepts:
    it is 32 bytes long, not a multiple of [n], and no [round2] called with
    it throws "Invalid s: s MUST not be equal to 0 mod n". *)
Theorem deriveSFromPassword_accepted_by_round2 (fuel : nat) (password : string)
    (s : bytes) :
  deriveSFromPassword fuel password = Some (Ok s) ->
  password <> "" /\ List.length s = 32%nat /\
  bytesToNumberBE s mod n <> 0 /\
  forall (r1 : Round1Result.t) (u : string) (entropy : Z) (this : JPake),
    fst (round2 r1 (Some s) u entropy this) <>
    Throw (InvalidArgumentError "Invalid s: s MUST not be equal to 0 mod n").
Proof.
  intros H. apply deriveSFromPassword_inv in H.
  destruct H as (Hp & v & Hv & -> & _).
  assert (bytesToNumberBE (numberToBytesBE v 32) mod n <> 0) as Hs.
  { rewrite scalar_bytes by lia. rewrite Z.mod_small; lia. }
  split; [exact Hp|split; [apply numberToBytesBE_length|split; [exact Hs|]]].
  intros r1 u entropy this E. apply round2_invalid_s in E. contradiction.
Qed.

End PasswordFacts.

Section PasswordMismatch.

Context {noble : Noble}.

Local Open Scope string_scope.
Local Open Scope Z_scope.

Lemma mismatch_point (x1 x2 x3 x4 sA sB : Z) :
  pmul
    (subtract
       (pmul (add (add (pmul G x3) (pmul G x1)) (pmul G x2)) ((x4 * sB) mod n))
       (pmul (pmul G x4) ((x2 * sA) mod n)))
    x2
  = pmul G (x2 * x4 * ((x1 + x2 + x3) * sB - x2 * sA)).
Proof.
  unfold subtract. rewrite !pmul_mod, !pmul_G_add, !pmul_mul, pmul_G_negate.
  rewrite pmul_G_add, pmul_mul. f_equal. ring.
Qed.

(** The key of one party when the peer, honest otherwise, has used the
    scalar [sB] where the party itself has used [sA]. *)
Lemma party_key_mismatch (uA uB : string) (oi : option (list string))
    (sA sB : bytes) (a1 a2 av1 av2 av3 b1 b2 : Z)
    (alice0 alice1 alice2 alice3 : JPake)
    (aliceRound1 : Round1Result.t) (aliceRound2 : Round2Result.t)
    (zb1 zb2 zB key : bytes) :
  let k1 := bytesToNumberBE (randomPrivateKey a1) in
  let k2 := bytesToNumberBE (randomPrivateKey a2) in
  let k3 := bytesToNumberBE (randomPrivateKey b1) in
  let k4 := bytesToNumberBE (randomPrivateKey b2) in
  let svA := bytesToNumberBE sA in
  let svB := bytesToNumberBE sB in
  let k4s := numberToBytesBE ((k4 * svB) mod n) 32 in
  let genB := add (add (pmul G k3) (pmul G k1)) (pmul G k2) in
  let AB := pmul genB (bytesToNumberBE k4s) in
  newJPake uA oi = Ok alice0 ->
  round1 a1 a2 av1 av2 alice0 = (Ok aliceRound1, alice1) ->
  round2 (Round1Result.mk (Some (toBytes (pmul G k3)))
            (Some (toBytes (pmul G k4))) (Some zb1) (Some zb2))
    (Some sA) uB av3 alice1 = (Ok aliceRound2, alice2) ->
  setRound2ResultFromBob (Round2Result.mk (Some (toBytes AB)) (Some zB)) alice2
    = (Ok tt, alice3) ->
  AB <> ZERO ->
  fst (deriveSharedKey alice3) = Ok key ->
  pmul G (k2 * k4 * ((k1 + k2 + k3) * svB - k2 * svA)) <> ZERO /\
  key = sha3_256
          (toBytes (pmul G (k2 * k4 * ((k1 + k2 + k3) * svB - k2 * svA)))).
Proof.
  cbv zeta.
  pose proof n_gt_1 as Hn. assert (0 < n) as Hn0 by lia.
  pose proof (randomPrivateKey_range a1) as Hx1.
  pose proof (randomPrivateKey_range a2) as Hx2.
  pose proof (randomPrivateKey_range b1) as Hx3.
  pose proof (randomPrivateKey_range b2) as Hx4.
  remember (bytesToNumberBE (randomPrivateKey a1)) as k1 eqn:Ek1.
  remember (bytesToNumberBE (randomPrivateKey a2)) as k2 eqn:Ek2.
  remember (bytesToNumberBE (randomPrivateKey b1)) as k3 eqn:Ek3.
  remember (bytesToNumberBE (randomPrivateKey b2)) as k4 eqn:Ek4.
  remember (bytesToNumberBE sA) as svA eqn:EsvA.
  remember (bytesToNumberBE sB) as svB eqn:EsvB.
  remember (numberToBytesBE ((k4 * svB) mod n) 32) as k4s eqn:Ek4s.
  remember (add (add (pmul G k3) (pmul G k1)) (pmul G k2)) as genB eqn:EgenB.
  remember (pmul genB (bytesToNumberBE k4s)) as AB eqn:EAB.
  intros Hnew Hr1 Hr2 Hset HAB Hkey.
  apply newJPake_ok in Hnew. destruct Hnew as [HuA ->].
  apply round1_ok in Hr1. cbv zeta in Hr1. rewrite <- Ek1, <- Ek2 in Hr1.
  destruct Hr1 as (_ & -> & HP1 & HP2 & _).
  apply round2_ok in Hr2.
  destruct Hr2 as (bG1 & bG2 & bz1 & bz2 & sb & x2v & G1v & P3 & P4 & _ & Hmk
                   & Hsb & HuB & Hx2v & HG1v & Hf3 & Hf4 & Hs & Hid & _ & Hrest).
  cbv zeta in Hrest.
  cbn [x2 G1 userId otherInfo set_state set_G2 set_G1 set_x2 set_x1]
    in Hx2v, HG1v, Hid, Hrest.
  injection Hmk as <- <- <- <-. injection Hsb as <-.
  injection Hx2v as <-. injection HG1v as <-.
  rewrite fromHex_toBytes in Hf3, Hf4
    by (apply pmul_not_ZERO; [apply BASE_not_ZERO|rewrite Z.mod_small; lia]).
  injection Hf3 as <-. injection Hf4 as <-.
  rewrite <- Ek2, <- EsvA in Hrest.
  destruct Hrest as (_ & _ & _ & z & _ & _ & ->).
  apply setRound2ResultFromBob_ok in Hset.
  destruct Hset as (bA & bz & p & _ & Hmk & Hf & ->).
  injection Hmk as <- <-.
  rewrite fromHex_toBytes in Hf by exact HAB. injection Hf as <-.
  destruct (deriveSharedKey _) as [res t] eqn:Ed in Hkey.
  cbn [fst] in Hkey. subst res.
  apply deriveSharedKey_ok in Ed.
  destruct Ed as (Bp & Q1 & Q2 & Q3 & Q4 & x2v & x2sv & zz & u & _ & EB & E1
                  & E2 & E3 & E4 & Ex2 & Ex2s & _ & _ & _ & _ & _ & _ & HKa
                  & -> & _).
  cbn [B G1 G2 G3 G4 x2 x2s set_state set_ZKPx2sBob set_B set_x2s set_G4
       set_G3 set_bobUserId set_G2 set_G1 set_x2 set_x1]
    in EB, E1, E2, E3, E4, Ex2, Ex2s.
  injection EB as <-. injection E4 as <-. injection Ex2 as <-.
  injection Ex2s as <-.
  pose proof (Z.mod_pos_bound (k2 * svA) n Hn0) as Hb2.
  pose proof (Z.mod_pos_bound (k4 * svB) n Hn0) as Hb4.
  assert (pmul (subtract AB (pmul (pmul G k4) ((k2 * svA) mod n))) k2
          = pmul G (k2 * k4 * ((k1 + k2 + k3) * svB - k2 * svA))) as HP.
  { rewrite EAB, EgenB, Ek4s. rewrite scalar_bytes by lia.
    apply mismatch_point. }
  rewrite <- Ek2 in HKa |- *. rewrite scalar_bytes in HKa |- * by lia.
  rewrite HP in HKa |- *. now split.
Qed.

Lemma toBytes_injective (P Q : ProjectivePoint) :
  P <> ZERO -> Q <> ZERO -> toBytes P = toBytes Q -> P = Q.
Proof.
  intros HP HQ H. apply fromHex_toBytes in HP, HQ. rewrite H in HP. congruence.
Qed.

(** Two parties that use different passwords do not hash the same point.
    When all calls of the exchange return, Alice having used [sA] and Bob
    [sB] with different values modulo [n], and the four first-round scalars
    do not sum to a multiple of [n], the two keys are the hashes of the
    encodings of two different points; they can only be equal if [sha3_256]
    collides on these two 33-byte strings. *)
Theorem different_passwords_different_points (userIdA userIdB : string)
    (otherInfo : option (list string)) (sA sB : bytes)
    (a1 a2 av1 av2 av3 b1 b2 bv1 bv2 bv3 : Z)
    (alice0 alice1 alice2 alice3 bob0 bob1 bob2 bob3 : JPake)
    (aliceRound1 bobRound1 : Round1Result.t)
    (aliceRound2 bobRound2 : Round2Result.t) (keyA keyB : bytes) :
  newJPake userIdA otherInfo = Ok alice0 ->
  newJPake userIdB otherInfo = Ok bob0 ->
  round1 a1 a2 av1 av2 alice0 = (Ok aliceRound1, alice1) ->
  round1 b1 b2 bv1 bv2 bob0 = (Ok bobRound1, bob1) ->
  round2 bobRound1 (Some sA) userIdB av3 alice1 = (Ok aliceRound2, alice2) ->
  round2 aliceRound1 (Some sB) userIdA bv3 bob1 = (Ok bobRound2, bob2) ->
  setRound2ResultFromBob bobRound2 alice2 = (Ok tt, alice3) ->
  setRound2ResultFromBob aliceRound2 bob2 = (Ok tt, bob3) ->
  fst (deriveSharedKey alice3) = Ok keyA ->
  fst (deriveSharedKey bob3) = Ok keyB ->
  bytesToNumberBE sA mod n <> bytesToNumberBE sB mod n ->
  (bytesToNumberBE (randomPrivateKey a1) +
   bytesToNumberBE (randomPrivateKey a2) +
   bytesToNumberBE (randomPrivateKey b1) +
   bytesToNumberBE (randomPrivateKey b2)) mod n <> 0 ->
  exists P Q : ProjectivePoint,
    P <> Q /\ toBytes P <> toBytes Q /\
    keyA = sha3_256 (toBytes P) /\ keyB = sha3_256 (toBytes Q).
Proof.
  intros HnA HnB H1A H1B H2A H2B HsA HsB HkA HkB Hs Hsum.
  pose proof n_gt_1 as Hn. assert (0 < n) as Hn0 by lia.
  assert (exists z1 z2, bobRound1 =
            Round1Result.mk
              (Some (toBytes (pmul G (bytesToNumberBE (randomPrivateKey b1)))))
              (Some (toBytes (pmul G (bytesToNumberBE (randomPrivateKey b2)))))
              (Some z1) (Some z2)) as (zb1 & zb2 & EB1).
  { pose proof H1B as H. apply round1_ok in H. cbv zeta in H.
    destruct H as (_ & _ & _ & _ & z1 & z2 & _ & _ & ->). now exists z1, z2. }
  subst bobRound1.
  destruct (round2_message _ _ _ _ _ _ _ _ _ _ _ _ _ _ _ _ _ _ HnA H1A H2A)
    as (za1 & za2 & zA & EA1 & EA2 & HzA).
  subst aliceRound1.
  destruct (round2_message _ _ _ _ _ _ _ _ _ _ _ _ _ _ _ _ _ _ HnB H1B H2B)
    as (_ & _ & zB & _ & EB2 & HzB).
  subst aliceRound2 bobRound2.
  apply generateSchnorrProof_inv in HzA, HzB.
  destruct HzA as (_ & HAA & _), HzB as (_ & HAB & _).
  destruct (party_key_mismatch _ _ _ _ _ _ _ _ _ _ _ _ _ _ _ _ _ _ _ _ _ _
              HnA H1A H2A HsA HAB HkA) as [HP ->].
  destruct (party_key_mismatch _ _ _ _ _ _ _ _ _ _ _ _ _ _ _ _ _ _ _ _ _ _
              HnB H1B H2B HsB HAA HkB) as [HQ ->].
  pose proof (randomPrivateKey_range a2) as Hx2.
  pose proof (randomPrivateKey_range b2) as Hx4.
  revert HP HQ Hs Hsum Hx2 Hx4.
  generalize (bytesToNumberBE (randomPrivateKey a1))
    (bytesToNumberBE (randomPrivateKey a2))
    (bytesToNumberBE (randomPrivateKey b1))
    (bytesToNumberBE (randomPrivateKey b2))
    (bytesToNumberBE sA) (bytesToNumberBE sB).
  intros k1 k2 k3 k4 svA svB HP HQ Hs Hsum Hx2 Hx4.
  assert (pmul G (k2 * k4 * ((k1 + k2 + k3) * svB - k2 * svA)) <>
          pmul G (k4 * k2 * ((k3 + k4 + k1) * svA - k4 * svB))) as Hne.
  { intros Heq.
    assert (pmul G (k2 * k4 * ((k1 + k2 + k3) * svB - k2 * svA) +
                    - (k4 * k2 * ((k3 + k4 + k1) * svA - k4 * svB))) = ZERO)
      as Hz by (rewrite pmul_add, pmul_opp, Heq; apply add_negate).
    apply pmul_eq_ZERO in Hz; [|apply BASE_not_ZERO].
    apply Z.mod_divide in Hz; [|lia].
    revert Hz.
    replace (k2 * k4 * ((k1 + k2 + k3) * svB - k2 * svA) +
             - (k4 * k2 * ((k3 + k4 + k1) * svA - k4 * svB)))
      with (k2 * (k4 * ((k1 + k2 + k3 + k4) * (svB - svA)))) by ring.
    repeat apply mul_mod_nonzero; try (rewrite Z.mod_small; lia);
      try exact Hsum.
    intros H0. apply Hs. symmetry.
    apply Z.mod_divide in H0; [|lia].
    destruct H0 as [q Hq].
    replace svB with (svA + q * n) by lia. now rewrite Z.mod_add by lia. }
  eexists _, _. split; [exact Hne|split; [|split; reflexivity]].
  intros H. apply Hne. now apply toBytes_injective.
Qed.

End PasswordMismatch.

Section ThreePassConstructor.

Context {noble : Noble}.

Local Open Scope string_scope.

(** [new JPakeThreePass(userId)] rejects the empty [userId] as the inner
    constructor does.  Otherwise the inner object carries the same [userId]
    and no [otherInfo], is in state INITIAL, and [deriveSharedKey] on the new
    object throws the state error and changes nothing. *)
Theorem three_pass_new_outcome (u : string) :
  match JPakeThreePass.new u with
  | Throw e => u = "" /\ e = InvalidArgumentError "UserId cannot be empty"
  | Ok this =>
      u <> "" /\ JPakeThreePass.userId this = u /\
      userId (JPakeThreePass.jpake this) = u /\
      otherInfo (JPakeThreePass.jpake this) = None /\
      state (JPakeThreePass.jpake this) = INITIAL /\
      JPakeThreePass.deriveSharedKey this =
      (Throw (InvalidStateError
         "Shared key can only be derived after receiving Round 2 results"),
       this)
  end.
Proof.
  unfold JPakeThreePass.new, newJPake. destruct (u =? "")%string eqn:E.
  - apply String.eqb_eq in E. now split.
  - apply String.eqb_neq in E. repeat apply conj; try reflexivity. exact E.
Qed.

End ThreePassConstructor.

(** ** Runs on the seven-point instance *)

Module DemoOutcomes.

Import Demo.

#[local] Existing Instance Tiny.tiny.

Local Open Scope string_scope.
Local Open Scope Z_scope.

(** [1*G] and [2*G]. *)
Definition point1 : ProjectivePoint := Tiny.P1.
Definition point2 : ProjectivePoint := Tiny.P2.

Lemma generateSchnorrProof_returns_verified_witness :
  List.length alice_ZKPx1 = 67%nat /\
  proofV alice_ZKPx1 = toBytes (pmul G (bytesToNumberBE (randomPrivateKey 1))) /\
  0 < proofR alice_ZKPx1 < n /\
  verifySchnorrProof "Alice" point1 alice_ZKPx1 G None = Ok true.
Proof.
  apply (generateSchnorrProof_returns_verified "Alice" (randomPrivateKey 0)
           point1 G None 1 alice_ZKPx1).
  run_it.
Defined.

Lemma generateSchnorrProof_only_for_own_key_witness :
  point1 = pmul G (bytesToNumberBE (randomPrivateKey 0)).
Proof.
  apply (generateSchnorrProof_only_for_own_key "Alice" (randomPrivateKey 0)
           point1 G None 1 alice_ZKPx1).
  run_it.
Defined.

(** For the key [2*G] the same call does not return. *)
Example generateSchnorrProof_other_key :
  generateSchnorrProof "Alice" (randomPrivateKey 0) point2 G None 1 =
  Throw (JPakeError "Generated Schnorr proof is invalid").
Proof. run_it. Qed.

Lemma long_userId_does_not_fit : ~ fits long_userId.
Proof.
  unfold fits.
  assert (len (utf8 long_userId) = 256) as -> by vm_refl. lia.
Qed.

Lemma round1_userId_too_long_witness :
  round1 0 1 1 2 (fresh long_userId) =
  (Throw (InvalidArgumentError
     "userId is too long. It must be 255 bytes or less when UTF-8 encoded."),
   set_G2 (Some (pmul G (bytesToNumberBE (randomPrivateKey 1))))
     (set_G1 (Some (pmul G (bytesToNumberBE (randomPrivateKey 0))))
        (set_x2 (Some (randomPrivateKey 1))
           (set_x1 (Some (randomPrivateKey 0)) (fresh long_userId))))).
Proof.
  apply (round1_userId_too_long 0 1 1 2 (fresh long_userId));
    [reflexivity|exact long_userId_does_not_fit].
Defined.

Lemma round1_honest :
  round1 0 1 1 2 (fresh "Alice") = (Ok (aliceRound1 honest), alice1 honest).
Proof. run_it. Qed.

Lemma round1_message_verifies_witness :
  exists (P1 P2 : ProjectivePoint) (g1 g2 z1 z2 : bytes),
    aliceRound1 honest = Round1Result.mk (Some g1) (Some g2) (Some z1) (Some z2) /\
    state (alice1 honest) = ROUND1FINISHED /\
    G1 (alice1 honest) = Some P1 /\ G2 (alice1 honest) = Some P2 /\
    fromHex g1 = Some P1 /\ fromHex g2 = Some P2 /\
    List.length g1 = 33%nat /\ List.length g2 = 33%nat /\
    List.length z1 = 67%nat /\ List.length z2 = 67%nat /\
    verifySchnorrProof "Alice" P1 z1 G None = Ok true /\
    verifySchnorrProof "Alice" P2 z2 G None = Ok true.
Proof.
  exact (round1_message_verifies 0 1 1 2 (fresh "Alice") (alice1 honest)
           (aliceRound1 honest) round1_honest).
Defined.

Lemma alice1_fields :
  state (alice1 honest) = ROUND1FINISHED /\
  x2 (alice1 honest) = Some (randomPrivateKey 1) /\
  G1 (alice1 honest) = Some point1.
Proof. repeat apply conj; run_it. Qed.

(** The empty array, 32 zero bytes and the 32 bytes of [n] are all rejected
    as [s]; so is a message whose first point is 32 zero bytes. *)
Lemma round2_argument_errors_witness :
  round2 (bobRound1 honest) (Some []) "Bob" 0 (alice1 honest) =
  (Throw (InvalidArgumentError "Invalid s: s MUST not be equal to 0 mod n"),
   alice1 honest) /\
  round2 (bobRound1 honest) None "Bob" 0 (alice1 honest) =
  (Throw (InvalidArgumentError "Missing required arguments for round 2"),
   alice1 honest).
Proof.
  destruct alice1_fields as (H1 & H2 & H3).
  split.
  - destruct (round2_argument_errors (bobRound1 honest) (Some []) "Bob" 0
                (alice1 honest) (randomPrivateKey 1) point1 H1 H2 H3)
      as [_ H].
    apply (H (field (Round1Result.G1 (bobRound1 honest)))
             (field (Round1Result.G2 (bobRound1 honest)))
             (field (Round1Result.ZKPx1 (bobRound1 honest)))
             (field (Round1Result.ZKPx2 (bobRound1 honest))) []);
      try run_it; try discriminate.
  - destruct (round2_argument_errors (bobRound1 honest) None "Bob" 0
                (alice1 honest) (randomPrivateKey 1) point1 H1 H2 H3)
      as [H _].
    apply H. do 4 right. now left.
Defined.

Example round2_rejected_arguments :
  fst (round2 (bobRound1 honest) (Some (numberToBytesBE 0 32)) "Bob" 0
         (alice1 honest)) =
  Throw (InvalidArgumentError "Invalid s: s MUST not be equal to 0 mod n") /\
  fst (round2 (bobRound1 honest) (Some (numberToBytesBE (2 * n) 64)) "Bob" 0
         (alice1 honest)) =
  Throw (InvalidArgumentError "Invalid s: s MUST not be equal to 0 mod n") /\
  fst (round2 (Round1Result.mk (Some (numberToBytesBE 0 32))
                 (Some (numberToBytesBE 0 32)) (Some (numberToBytesBE 0 32))
                 (Some (numberToBytesBE 0 32)))
         (Some (numberToBytesBE 123 32)) "Bob" 0 (alice1 honest)) =
  Throw (InvalidArgumentError
    "Invalid points received: G1 or G2 is not a valid ProjectivePoint") /\
  fst (round2 (bobRound1 honest) (Some s) "" 0 (alice1 honest)) =
  Throw (InvalidArgumentError "Missing required arguments for round 2").
Proof. repeat apply conj; run_it. Qed.

(** [s] as a 64-byte array of value [2*n + 6]. *)
Definition largeS : bytes := numberToBytesBE (2 * n + bytesToNumberBE s) 64.

Lemma round2_s_modulo_n_witness :
  round2 (bobRound1 honest) (Some s) "Bob" 0 (alice1 honest) =
  round2 (bobRound1 honest) (Some largeS) "Bob" 0 (alice1 honest).
Proof.
  apply (round2_s_modulo_n (bobRound1 honest) s largeS "Bob" 0 (alice1 honest)).
  run_it.
Defined.

Lemma round2_honest :
  round2 (bobRound1 honest) (Some s) "Bob" 0 (alice1 honest) =
  (Ok (aliceRound2 honest), alice2 honest).
Proof. run_it. Qed.

Lemma round2_message_verifies_witness :
  exists (P1 P3 P4 : ProjectivePoint) (a z x2sv : bytes),
    aliceRound2 honest = Round2Result.mk (Some a) (Some z) /\
    state (alice2 honest) = ROUND2FINISHED /\
    bobUserId (alice2 honest) = Some "Bob" /\
    G1 (alice1 honest) = Some P1 /\ G3 (alice2 honest) = Some P3 /\
    G4 (alice2 honest) = Some P4 /\
    x2s (alice2 honest) = Some x2sv /\ 0 < bytesToNumberBE x2sv < n /\
    add (add P1 P3) P4 <> ZERO /\
    fromHex a = Some (pmul (add (add P1 P3) P4) (bytesToNumberBE x2sv)) /\
    verifySchnorrProof "Alice"
      (pmul (add (add P1 P3) P4) (bytesToNumberBE x2sv)) z
      (add (add P1 P3) P4) None = Ok true.
Proof.
  exact (round2_message_verifies (bobRound1 honest) (Some s) "Bob" 0
           (alice1 honest) (alice2 honest) (aliceRound2 honest) round2_honest).
Defined.

Definition key_of (r : result bytes) : bytes :=
  match r with
  | Ok k => k
  | Throw _ => []
  end.

Definition aliceKey : bytes :=
  Eval vm_compute in key_of (fst (deriveSharedKey (alice3 honest))).
Definition alice4 : @JPake Tiny.tiny :=
  Eval vm_compute in snd (deriveSharedKey (alice3 honest)).

Lemma deriveSharedKey_honest :
  deriveSharedKey (alice3 honest) = (Ok aliceKey, alice4).
Proof. run_it. Qed.

Lemma deriveSharedKey_returns_verified_witness :
  exists (Bp P1 P2 P3 P4 : ProjectivePoint) (x2v x2sv z : bytes) (u : string),
    B (alice3 honest) = Some Bp /\ G1 (alice3 honest) = Some P1 /\
    G2 (alice3 honest) = Some P2 /\ G3 (alice3 honest) = Some P3 /\
    G4 (alice3 honest) = Some P4 /\ x2 (alice3 honest) = Some x2v /\
    x2s (alice3 honest) = Some x2sv /\ ZKPx2sBob (alice3 honest) = Some z /\
    bobUserId (alice3 honest) = Some u /\ u <> "" /\ "Alice" <> u /\
    verifySchnorrProof u Bp z (add (add P1 P3) P2) None = Ok true /\
    aliceKey =
    sha3_256
      (toBytes
         (pmul (subtract Bp (pmul P4 (bytesToNumberBE x2sv)))
            (bytesToNumberBE x2v))) /\
    List.length aliceKey = 32%nat /\
    alice4 = set_state KEYDERIVED (alice3 honest).
Proof.
  exact (deriveSharedKey_returns_verified (alice3 honest) alice4 aliceKey
           deriveSharedKey_honest).
Defined.

Lemma key_derived_is_final_witness :
  (forall c : call,
     exists msg, run c alice4 = (Throw (InvalidStateError msg), alice4)) /\
  (forall cs : list call, run_all cs alice4 = alice4).
Proof.
  exact (key_derived_is_final (alice3 honest) alice4 aliceKey
           deriveSharedKey_honest).
Defined.

(** A round-2 message whose [A] is the empty array. *)
Lemma setRound2ResultFromBob_all_or_nothing_witness :
  snd (setRound2ResultFromBob (Round2Result.mk (Some []) (Some []))
         (alice2 honest)) = alice2 honest.
Proof.
  apply (setRound2ResultFromBob_all_or_nothing
           (Round2Result.mk (Some []) (Some [])) (alice2 honest)
           (Error "Point is not on curve")).
  run_it.
Defined.

(** Alice after she has stored Bob's [A] with an empty array for its
    proof. *)
Definition stuck : @JPake Tiny.tiny :=
  Eval vm_compute in
    snd (setRound2ResultFromBob
           (Round2Result.mk (Round2Result.A (bobRound2 honest)) (Some []))
           (alice2 honest)).

Lemma stuck_throws :
  fst (deriveSharedKey stuck) =
  Throw (VerificationError "Invalid proof, must be 33 + 32 + 2 bytes long").
Proof. run_it. Qed.

Lemma deriveSharedKey_all_or_nothing_witness :
  snd (deriveSharedKey stuck) = stuck.
Proof.
  exact (proj1 (deriveSharedKey_all_or_nothing stuck
                  (VerificationError
                     "Invalid proof, must be 33 + 32 + 2 bytes long")
                  stuck_throws)).
Defined.

Lemma JPakeError_unreachable_witness :
  fst (run DeriveSharedKey (alice3 honest)) <>
  Throw (JPakeError "Missing required data for key derivation").
Proof.
  exact (JPakeError_unreachable (alice3 honest) DeriveSharedKey
           "Missing required data for key derivation"
           DemoSessions.alice3_reachable).
Defined.

(** The three-pass exchange with the draws of the honest two-round one. *)
Definition fresh3 (u : string) : JPakeThreePass.t :=
  JPakeThreePass.mk u (fresh u).

Definition pass2_of (r : result Pass2Result.t) : Pass2Result.t :=
  match r with
  | Ok m => m
  | Throw _ =>
      Pass2Result.mk (Round1Result.mk None None None None)
        (Round2Result.mk None None)
  end.

Record three_pass : Type := mkThreePass {
  initiator1 : JPakeThreePass.t;
  pass1Result : Round1Result.t;
  responder2 : JPakeThreePass.t;
  pass2Result : Pass2Result.t;
  initiator3 : JPakeThreePass.t;
  pass3Result : Round2Result.t;
  responder3 : JPakeThreePass.t
}.

Definition play3 : three_pass :=
  let r1 := JPakeThreePass.pass1 0 1 1 2 (fresh3 "Alice") in
  let r2 :=
    JPakeThreePass.pass2 (message1 (fst r1)) (Some s) "Alice" 2 3 2 2 1
      (fresh3 "Bob") in
  let r3 := JPakeThreePass.pass3 (pass2_of (fst r2)) (Some s) "Bob" 0 (snd r1) in
  let r4 := JPakeThreePass.receivePass3Results (message2 (fst r3)) (snd r2) in
  mkThreePass (snd r1) (message1 (fst r1)) (snd r2) (pass2_of (fst r2))
    (snd r3) (message2 (fst r3)) (snd r4).

Definition honest3 : three_pass := Eval vm_compute in play3.

Lemma three_pass_key_agreement_witness :
  exists key,
    fst (JPakeThreePass.deriveSharedKey (initiator3 honest3)) = Ok key /\
    fst (JPakeThreePass.deriveSharedKey (responder3 honest3)) = Ok key /\
    List.length key = 32%nat.
Proof.
  apply (three_pass_key_agreement (noble := Tiny.tiny) "Alice" "Bob" s
           0 1 1 2 0 2 3 2 2 1
           (fresh3 "Alice") (initiator1 honest3) (initiator3 honest3)
           (fresh3 "Bob") (responder2 honest3) (responder3 honest3)
           (pass1Result honest3) (pass2Result honest3) (pass3Result honest3));
    run_it.
Defined.

(** The responder is given its own userId as the peer's: [round1] has run,
    [round2] throws, and [pass2] cannot be called again. *)
Lemma pass2_failure_blocks_retry_witness :
  (fst (round1 2 3 2 2 (fresh "Bob")) =
   Throw (VerificationError "Proof verification failed, userIds are equal.") /\
   state (JPakeThreePass.jpake
            (snd (JPakeThreePass.pass2 (pass1Result honest3) (Some s) "Bob"
                    2 3 2 2 1 (fresh3 "Bob")))) = INITIAL) \/
  ((exists r, fst (round1 2 3 2 2 (fresh "Bob")) = Ok r) /\
   state (JPakeThreePass.jpake
            (snd (JPakeThreePass.pass2 (pass1Result honest3) (Some s) "Bob"
                    2 3 2 2 1 (fresh3 "Bob")))) = ROUND1FINISHED /\
   (forall r1' s' u' e1' e2' ev1' ev2' entropy',
      JPakeThreePass.pass2 r1' s' u' e1' e2' ev1' ev2' entropy'
        (snd (JPakeThreePass.pass2 (pass1Result honest3) (Some s) "Bob"
                2 3 2 2 1 (fresh3 "Bob"))) =
      (Throw (InvalidStateError "Round 1 can only be executed in INITIAL state"),
       snd (JPakeThreePass.pass2 (pass1Result honest3) (Some s) "Bob"
              2 3 2 2 1 (fresh3 "Bob")))) /\
   (forall e1' e2' ev1' ev2',
      JPakeThreePass.pass1 e1' e2' ev1' ev2'
        (snd (JPakeThreePass.pass2 (pass1Result honest3) (Some s) "Bob"
                2 3 2 2 1 (fresh3 "Bob"))) =
      (Throw (InvalidStateError "Round 1 can only be executed in INITIAL state"),
       snd (JPakeThreePass.pass2 (pass1Result honest3) (Some s) "Bob"
              2 3 2 2 1 (fresh3 "Bob"))))).
Proof.
  apply (pass2_failure_blocks_retry (pass1Result honest3) (Some s) "Bob"
           2 3 2 2 1 (fresh3 "Bob")
           (VerificationError "Proof verification failed, userIds are equal."));
    run_it.
Defined.

Example pass2_retry_rejected :
  fst (JPakeThreePass.pass2 (pass1Result honest3) (Some s) "Alice" 2 3 2 2 1
         (snd (JPakeThreePass.pass2 (pass1Result honest3) (Some s) "Bob"
                 2 3 2 2 1 (fresh3 "Bob")))) =
  Throw (InvalidStateError "Round 1 can only be executed in INITIAL state").
Proof. run_it. Qed.

(** The responder's message arrives with an [A] that is not a point. *)
Definition broken_pass2Result : Pass2Result.t :=
  Pass2Result.mk (Pass2Result.round1Result (pass2Result honest3))
    (Round2Result.mk (Some []) (Some [])).

Lemma pass3_failure_blocks_retry_witness :
  state (JPakeThreePass.jpake
           (snd (JPakeThreePass.pass3 broken_pass2Result (Some s) "Bob" 0
                   (initiator1 honest3)))) = ROUND2FINISHED /\
  (Error "Point is not on curve" =
   InvalidArgumentError "Missing required arguments for setRound2ResultFromBob" \/
   exists msg, Error "Point is not on curve" = Error msg) /\
  forall pass2Result' s' u' entropy',
    JPakeThreePass.pass3 pass2Result' s' u' entropy'
      (snd (JPakeThreePass.pass3 broken_pass2Result (Some s) "Bob" 0
              (initiator1 honest3))) =
    (Throw (InvalidStateError "Round 2 can only be executed after Round 1"),
     snd (JPakeThreePass.pass3 broken_pass2Result (Some s) "Bob" 0
            (initiator1 honest3))).
Proof.
  apply (pass3_failure_blocks_retry broken_pass2Result (Some s) "Bob" 0
           (initiator1 honest3) (Error "Point is not on curve")
           (pass3Result honest3));
    run_it.
Defined.

Lemma deriveSFromPassword_accepted_by_round2_witness :
  "secretPassword123" <> "" /\ List.length s = 32%nat /\
  bytesToNumberBE s mod n <> 0 /\
  forall (r1 : Round1Result.t) (u : string) (entropy : Z) (this : JPake),
    fst (round2 r1 (Some s) u entropy this) <>
    Throw (InvalidArgumentError "Invalid s: s MUST not be equal to 0 mod n").
Proof.
  apply (deriveSFromPassword_accepted_by_round2 1 "secretPassword123" s).
  run_it.
Defined.

(** The exchange of [honest] with another scalar on Bob's side. *)
Definition wrong_s : bytes := numberToBytesBE 3 32.

Definition play_mismatch : exchange :=
  let ra1 := round1 0 1 1 2 (fresh "Alice") in
  let rb1 := round1 2 3 2 2 (fresh "Bob") in
  let ra2 := round2 (message1 (fst rb1)) (Some s) "Bob" 0 (snd ra1) in
  let rb2 := round2 (message1 (fst ra1)) (Some wrong_s) "Alice" 0 (snd rb1) in
  let ra3 := setRound2ResultFromBob (message2 (fst rb2)) (snd ra2) in
  let rb3 := setRound2ResultFromBob (message2 (fst ra2)) (snd rb2) in
  mkExchange (snd ra1) (snd rb1) (message1 (fst ra1)) (message1 (fst rb1))
    (snd ra2) (snd rb2) (message2 (fst ra2)) (message2 (fst rb2))
    (snd ra3) (snd rb3).

Definition mismatch : exchange := Eval vm_compute in play_mismatch.

Definition mismatch_keyA : bytes :=
  Eval vm_compute in key_of (fst (deriveSharedKey (alice3 mismatch))).
Definition mismatch_keyB : bytes :=
  Eval vm_compute in key_of (fst (deriveSharedKey (bob3 mismatch))).

Lemma different_passwords_different_points_witness :
  exists P Q : ProjectivePoint,
    P <> Q /\ toBytes P <> toBytes Q /\
    mismatch_keyA = sha3_256 (toBytes P) /\
    mismatch_keyB = sha3_256 (toBytes Q).
Proof.
  apply (different_passwords_different_points (noble := Tiny.tiny)
           "Alice" "Bob" None s wrong_s 0 1 1 2 0 2 3 2 2 0
           (fresh "Alice") (alice1 mismatch) (alice2 mismatch) (alice3 mismatch)
           (fresh "Bob") (bob1 mismatch) (bob2 mismatch) (bob3 mismatch)
           (aliceRound1 mismatch) (bobRound1 mismatch)
           (aliceRound2 mismatch) (bobRound2 mismatch));
    run_it.
Defined.

Example different_passwords_different_keys : mismatch_keyA <> mismatch_keyB.
Proof. run_it. Qed.

End DemoOutcomes.
